(** * Momo scheduler: JobScheduler, MongoSchedule, connect and SchedulePing

    A shallow embedding of the scheduling core of momo-scheduler.

    - [Module Scheduler] embeds [src/scheduler/JobScheduler.ts].  The class is
      asynchronous: every [await] is a point where other callbacks of the
      event loop may run.  The embedding is a labelled transition system whose
      labels are the things the environment decides (a caller invokes a public
      method, a timer fires, a repository lookup or an executor promise
      settles); each transition runs the synchronous stretch of code up to the
      next [await], exactly as the event loop does.
    - [Module Mongo] embeds [connect]/[disconnect] and [MongoSchedule].
    - [Module Ping] models the schedule ping. *)

From Stdlib Require Import ZArith List String Lia.
From stdpp Require Import base option list gmap strings.
Import ListNotations.

Local Open Scope string_scope.
Local Open Scope list_scope.

Set Warnings "-clear-no-such-hyp".

(** ** Values shared by the modules *)

(** A JavaScript error value.  The two [MomoError] constants used by the
    scheduler are kept apart from every other error (store failures, handler
    failures), which only carry their message. *)
Inductive Err :=
| jobNotFound
| nonParsableInterval
| OtherError (message : string).

(** [MomoErrorType] as far as the embedded code uses it. *)
Inductive MomoErrorType := scheduleJob | executeJob | internal.

(** The result of [humanInterval]: a JavaScript number, which may be [NaN];
    [None] stands for [undefined]. *)
Inductive JsNumber := Num (z : Z) | NaN.

(** [!x] for [x : number | undefined]. *)
Definition falsy (x : option JsNumber) : bool :=
  match x with
  | None => true
  | Some NaN => true
  | Some (Num z) => (z =? 0)%Z
  end.

(** [isNaN(x)] for [x : number | undefined]. *)
Definition isNaN (x : option JsNumber) : bool :=
  match x with
  | None => true
  | Some NaN => true
  | Some (Num _) => false
  end.

(** lodash's [min]: [undefined] on an empty array, otherwise the least
    element. *)
Fixpoint lodash_min (xs : list Z) : option Z :=
  match xs with
  | [] => None
  | x :: rest =>
      Some (match lodash_min rest with
            | None => x
            | Some m => if (m <? x)%Z then m else x
            end)
  end.

Module JobEntity.

(** The fields of a job definition that the scheduler reads. *)
Record t := {
  name : string;
  interval : string;
  concurrency : Z;
  maxRunning : Z;
  running : option Z;          (* [running?: number] *)
  lastFinished : option Z;     (* [executionInfo?.lastFinished], epoch ms *)
}.

End JobEntity.

Module Scheduler.

Import JobEntity.

Inductive ExecutionStatus := finished | failed | maxRunningReached | notFound.

Record JobResult := { status : ExecutionStatus }.

(** Identifiers handed out by the runtime: timer handles, promises, and the
    individual calls of the scheduler's async methods. *)
Definition TimerId := nat.
Definition PromiseId := nat.
Definition CallId := nat.

(** Logger calls: the message, and of the context object the job name and
    the numbers ([pending], [times], or the time of the first run followed
    by [interval] and [delay]). *)
Inductive LogEntry :=
| LError (message : string) (type : MomoErrorType) (name : string) (error : Err)
| LDebug (message : string) (name : string) (data : list Z).

Inductive Method := MStart | MStop | MExecuteOnce | MExecuteConcurrently.

Inductive Value := VUndefined | VResult (r : JobResult).

(** How the promise returned by an async method settles. *)
Inductive Completion := Fulfilled (v : Value) | Rejected (e : Err).

(** How a promise returned by [jobExecutor.execute] settles. *)
Inductive Outcome := Resolves (r : JobResult) | Rejects (e : Err).

(** Who called [jobExecutor.execute]: a tick ([executeConcurrently]) or a call
    of [executeOnce]. *)
Inductive Origin := FromTick | FromOnce (k : CallId).

(** What [getJobRepository().findOne({ name })] produces. *)
Inductive FindResult :=
| Found (job : JobEntity.t)
| Missing
| FindFails (e : Err).

(** Observable happenings, recorded newest first in [trace]. *)
Inductive Obs :=
| OCall (k : CallId) (m : Method)
| OReturn (k : CallId) (m : Method) (c : Completion)
| OFindOne (k : CallId)
| OExecute (p : PromiseId) (o : Origin) (job : JobEntity.t)
| OSettled (p : PromiseId) (out : Outcome)
| OSetInterval (t : TimerId) (period delay : Z)
| OClearInterval (t : TimerId)
| OLog (l : LogEntry).

(** An async call suspended at an [await]. *)
Inductive Task :=
| StopAwaitAll (snapshot : list PromiseId)    (* stop: await Promise.all(pendingExecutions) *)
| StartAwaitStop (snapshot : list PromiseId)  (* start: await this.stop(), itself suspended *)
| StartAwaitFind                              (* start: await findOne *)
| OnceAwaitFind                               (* executeOnce: await findOne *)
| TickAwaitFind.                              (* executeConcurrently: await findOne *)

(** The private fields of [class JobScheduler]; [jobName] and [immediate]
    are the read-only constructor parameters.  The executor and the logger
    are not state: their calls are recorded in the trace. *)
Record JobScheduler := {
  jobName : string;
  immediate : bool;
  jobHandle : option TimerId;
  unexpectedErrorCount : nat;
  interval : option string;
  pendingExecutions : list PromiseId;
}.

(** A timer armed by [setIntervalWithDelay(callback, interval, delay)]. *)
Record Timer := { period : Z; delay : Z }.

(** The scheduler object together with the part of the JavaScript runtime it
    interacts with. *)
Record World := {
  this : JobScheduler;
  timers : gmap TimerId Timer;       (* armed and not yet cleared *)
  tasks : gmap CallId Task;          (* suspended async calls *)
  execs : gmap PromiseId Origin;     (* executor promises not yet settled *)
  settled : gset PromiseId;          (* executor promises that have settled *)
  fresh : nat;                       (* next unused identifier *)
  trace : list Obs;                  (* newest first *)
}.

(** [JobScheduler.forJob(job, logger)] in a runtime where nothing has
    happened yet. *)
Definition forJob (name : string) (imm : bool) : World :=
  {| this := {| jobName := name; immediate := imm; jobHandle := None;
                unexpectedErrorCount := 0; interval := None; pendingExecutions := [] |};
     timers := ∅; tasks := ∅; execs := ∅; settled := ∅; fresh := 0; trace := [] |}.

(** Field updates. *)
Definition set_this (f : JobScheduler -> JobScheduler) (w : World) : World :=
  {| this := f (this w); timers := timers w; tasks := tasks w; execs := execs w;
     settled := settled w; fresh := fresh w; trace := trace w |}.

Definition set_timers (f : gmap TimerId Timer -> gmap TimerId Timer) (w : World) : World :=
  {| this := this w; timers := f (timers w); tasks := tasks w; execs := execs w;
     settled := settled w; fresh := fresh w; trace := trace w |}.

Definition set_tasks (f : gmap CallId Task -> gmap CallId Task) (w : World) : World :=
  {| this := this w; timers := timers w; tasks := f (tasks w); execs := execs w;
     settled := settled w; fresh := fresh w; trace := trace w |}.

Definition set_execs (f : gmap PromiseId Origin -> gmap PromiseId Origin) (w : World) : World :=
  {| this := this w; timers := timers w; tasks := tasks w; execs := f (execs w);
     settled := settled w; fresh := fresh w; trace := trace w |}.

Definition set_settled (f : gset PromiseId -> gset PromiseId) (w : World) : World :=
  {| this := this w; timers := timers w; tasks := tasks w; execs := execs w;
     settled := f (settled w); fresh := fresh w; trace := trace w |}.

Definition bump (w : World) : World :=
  {| this := this w; timers := timers w; tasks := tasks w; execs := execs w;
     settled := settled w; fresh := S (fresh w); trace := trace w |}.

Definition emit (o : Obs) (w : World) : World :=
  {| this := this w; timers := timers w; tasks := tasks w; execs := execs w;
     settled := settled w; fresh := fresh w; trace := o :: trace w |}.

Definition set_jobHandle (h : option TimerId) (s : JobScheduler) : JobScheduler :=
  {| jobName := jobName s; immediate := immediate s;
     jobHandle := h; unexpectedErrorCount := unexpectedErrorCount s;
     interval := interval s; pendingExecutions := pendingExecutions s |}.

Definition set_unexpectedErrorCount (n : nat) (s : JobScheduler) : JobScheduler :=
  {| jobName := jobName s; immediate := immediate s;
     jobHandle := jobHandle s; unexpectedErrorCount := n;
     interval := interval s; pendingExecutions := pendingExecutions s |}.

Definition set_interval (i : option string) (s : JobScheduler) : JobScheduler :=
  {| jobName := jobName s; immediate := immediate s;
     jobHandle := jobHandle s; unexpectedErrorCount := unexpectedErrorCount s;
     interval := i; pendingExecutions := pendingExecutions s |}.

Definition set_pendingExecutions (l : list PromiseId) (s : JobScheduler) : JobScheduler :=
  {| jobName := jobName s; immediate := immediate s;
     jobHandle := jobHandle s; unexpectedErrorCount := unexpectedErrorCount s;
     interval := interval s; pendingExecutions := l |}.

(** [array.indexOf(x)] followed by [splice(index, 1)] when [index > -1]:
    the first occurrence of [x] is removed. *)
Fixpoint splice_first (x : PromiseId) (l : list PromiseId) : list PromiseId :=
  match l with
  | [] => []
  | y :: rest => if decide (y = x) then rest else y :: splice_first x rest
  end.

(** The number of executor invocations one tick means to launch:
<<
  jobEntity.maxRunning > 0
    ? min([jobEntity.concurrency, jobEntity.maxRunning - (jobEntity.running ?? 0)]) ?? jobEntity.concurrency
    : jobEntity.concurrency
>> *)
Definition numToExecute (job : JobEntity.t) : Z :=
  if (0 <? maxRunning job)%Z
  then default (concurrency job)
         (lodash_min [concurrency job; (maxRunning job - default 0%Z (running job))%Z])
  else concurrency job.

(** Modelled from the spec: [setIntervalWithDelay] is imported from a file
    that is not among the sources.  By section 4.1 it arms one timer, which
    fires first after [delay] and then every [interval], and returns its
    handle. *)
Definition setIntervalWithDelay (interval delay : Z) (w : World) : TimerId * World :=
  let t := fresh w in
  (t, emit (OSetInterval t interval delay)
        (set_timers (insert t {| period := interval; delay := delay |}) (bump w))).

(** [clearInterval(handle.get())]: the timer is cancelled. *)
Definition clearInterval (t : TimerId) (w : World) : World :=
  emit (OClearInterval t) (set_timers (delete t) w).

(** [jobExecutor.execute(jobEntity)]: class [JobExecutor] is not among the
    sources.  The scheduler uses the result as a promise ([.catch],
    [.finally]); the call is recorded, and the promise it returns is settled
    later by the environment. *)
Definition execute (o : Origin) (job : JobEntity.t) (w : World) : PromiseId * World :=
  let p := fresh w in
  (p, set_execs (insert p o) (emit (OExecute p o job) (bump w))).

Section WithJob.

(** The two imported functions [start()] relies on. *)
Variable humanInterval : string -> option JsNumber.
Variable calculateDelay : Z -> Z -> bool -> JobEntity.t -> Z.  (* clock, interval, immediate, job *)

(** [getUnexpectedErrorCount()] and [isStarted()]. *)
Definition getUnexpectedErrorCount (w : World) : nat := unexpectedErrorCount (this w).

Definition isStarted (w : World) : bool :=
  match jobHandle (this w) with Some _ => true | None => false end.

(** [handleUnexpectedError(error)]: count, then log. *)
Definition handleUnexpectedError (error : Err) (w : World) : World :=
  emit (OLog (LError "an unexpected error occurred while running job" executeJob (jobName (this w)) error))
    (set_this (fun s => set_unexpectedErrorCount (S (unexpectedErrorCount s)) s) w).

(** The synchronous part of [stop()], up to its only [await].  The second
    component is the array handed to [Promise.all] when there is something to
    wait for. *)
Definition stop_sync (w : World) : World * option (list PromiseId) :=
  let w1 :=
    match jobHandle (this w) with
    | Some t =>
        set_this (fun s => set_interval None (set_jobHandle None s)) (clearInterval t w)
    | None => w
    end in
  let pending := pendingExecutions (this w1) in
  if (0 <? length pending)%nat
  then (emit (OLog (LDebug "wait for pending executions to finish" (jobName (this w))
                      [Z.of_nat (length pending)])) w1,
        Some pending)
  else (w1, None).

(** [stop()] called by a client. *)
Definition call_stop (w : World) : World :=
  let k := fresh w in
  let '(w1, waiting) := stop_sync (emit (OCall k MStop) (bump w)) in
  match waiting with
  | Some snapshot => set_tasks (insert k (StopAwaitAll snapshot)) w1
  | None => emit (OReturn k MStop (Fulfilled VUndefined)) w1
  end.

(** [start()] after its [await this.stop()]: the lookup is issued. *)
Definition start_find (k : CallId) (w : World) : World :=
  set_tasks (insert k StartAwaitFind) (emit (OFindOne k) w).

(** [start()] called by a client: [await this.stop()] comes first. *)
Definition call_start (w : World) : World :=
  let k := fresh w in
  let '(w1, waiting) := stop_sync (emit (OCall k MStart) (bump w)) in
  match waiting with
  | Some snapshot => set_tasks (insert k (StartAwaitStop snapshot)) w1
  | None => start_find k w1
  end.

(** [start()] resumed with the result of [findOne]. *)
Definition start_resume (k : CallId) (r : FindResult) (now : Z) (w : World) : World :=
  match r with
  | FindFails e => emit (OReturn k MStart (Rejected e)) w
  | Missing =>
      emit (OReturn k MStart (Fulfilled VUndefined))
        (emit (OLog (LError "cannot schedule job" scheduleJob (jobName (this w)) jobNotFound)) w)
  | Found job =>
      let parsed := humanInterval (JobEntity.interval job) in
      if falsy parsed || isNaN parsed
      then emit (OReturn k MStart (Rejected nonParsableInterval)) w
      else
        match parsed with
        | Some (Num i) =>
            let w1 := set_this (set_interval (Some (JobEntity.interval job))) w in
            let d := calculateDelay now i (immediate (this w)) job in
            let '(t, w2) := setIntervalWithDelay i d w1 in
            let w3 := set_this (set_jobHandle (Some t)) w2 in
            emit (OReturn k MStart (Fulfilled VUndefined))
              (emit (OLog (LDebug "scheduled job to run at" (jobName (this w)) [(now + d)%Z; i; d])) w3)
        | _ => emit (OReturn k MStart (Rejected nonParsableInterval)) w
        end
  end.

(** [executeOnce()] called by a client. *)
Definition call_executeOnce (w : World) : World :=
  let k := fresh w in
  set_tasks (insert k OnceAwaitFind)
    (emit (OFindOne k) (emit (OCall k MExecuteOnce) (bump w))).

(** [executeOnce()] resumed with the result of [findOne].  In the last case
    the method executes [return this.jobExecutor.execute(jobEntity)]: the
    promise of the call is resolved with the executor's promise, and settles
    as that one does (see [executor_settles]). *)
Definition executeOnce_resume (k : CallId) (r : FindResult) (w : World) : World :=
  match r with
  | FindFails e =>
      emit (OReturn k MExecuteOnce (Fulfilled (VResult {| status := failed |})))
        (handleUnexpectedError e w)
  | Missing =>
      emit (OReturn k MExecuteOnce (Fulfilled (VResult {| status := notFound |})))
        (emit (OLog (LError "job not found, skip execution" executeJob (jobName (this w)) jobNotFound)) w)
  | Found job => snd (execute (FromOnce k) job w)
  end.

(** One iteration of the loop of [executeConcurrently]: the executor is
    invoked, the handlers are attached, the promise is pushed. *)
Definition launch_one (job : JobEntity.t) (w : World) : World :=
  let '(pendingExecution, w1) := execute FromTick job w in
  set_this (fun s => set_pendingExecutions (pendingExecutions s ++ [pendingExecution]) s) w1.

(** [for (let i = 0; i < numToExecute; i++) ...] *)
Fixpoint launch (n : nat) (job : JobEntity.t) (w : World) : World :=
  match n with
  | O => w
  | S m => launch m job (launch_one job w)
  end.

(** The timer fires: [executeConcurrently()] starts and issues its lookup. *)
Definition tick (w : World) : World :=
  let k := fresh w in
  set_tasks (insert k TickAwaitFind)
    (emit (OFindOne k) (emit (OCall k MExecuteConcurrently) (bump w))).

(** [executeConcurrently()] resumed with the result of [findOne]. *)
Definition executeConcurrently_resume (k : CallId) (r : FindResult) (w : World) : World :=
  match r with
  | FindFails e =>
      emit (OReturn k MExecuteConcurrently (Fulfilled VUndefined)) (handleUnexpectedError e w)
  | Missing =>
      emit (OReturn k MExecuteConcurrently (Fulfilled VUndefined))
        (emit (OLog (LError "job not found, skip execution" executeJob (jobName (this w)) jobNotFound)) w)
  | Found job =>
      let n := numToExecute job in
      emit (OReturn k MExecuteConcurrently (Fulfilled VUndefined))
        (launch (Z.to_nat n) job (emit (OLog (LDebug "execute job" (jobName (this w)) [n])) w))
  end.

(** The promise [p] returned by the executor settles.  For a tick the
    [.catch] handler runs on rejection and the [.finally] handler removes the
    promise from [pendingExecutions]; for [executeOnce] the call's own promise
    settles the same way as [p], and no code of the scheduler runs. *)
Definition executor_settles (p : PromiseId) (o : Origin) (out : Outcome) (w : World) : World :=
  let w1 := emit (OSettled p out) (set_settled (union {[ p ]}) (set_execs (delete p) w)) in
  match o with
  | FromTick =>
      let w2 := match out with
                | Rejects e => handleUnexpectedError e w1
                | Resolves _ => w1
                end in
      set_this (fun s => set_pendingExecutions (splice_first p (pendingExecutions s)) s) w2
  | FromOnce k =>
      emit (OReturn k MExecuteOnce
              (match out with
               | Resolves r => Fulfilled (VResult r)
               | Rejects e => Rejected e
               end)) w1
  end.

(** What the environment decides.  [AllSettled k] can happen at any time
    once the promises call [k] waits for have settled (in the event loop it
    follows the last of them at once); the properties below hold for every
    order of events, that one included. *)
Inductive Event :=
| CallStart
| CallStop
| CallExecuteOnce
| TimerFire (t : TimerId)
| FindOneSettles (k : CallId) (r : FindResult) (now : Z)
| AllSettled (k : CallId)
| ExecutorSettles (p : PromiseId) (out : Outcome).

(** [Promise.all(snapshot)] can fulfil once every promise of the snapshot has
    settled (the promises stored in [pendingExecutions] carry a [.catch], so
    they never reject). *)
Definition all_settled (snapshot : list PromiseId) (w : World) : bool :=
  forallb (fun p => bool_decide (p ∈ settled w)) snapshot.

(** One turn of the event loop.  [None]: the event cannot happen in [w]. *)
Definition step (e : Event) (w : World) : option World :=
  match e with
  | CallStart => Some (call_start w)
  | CallStop => Some (call_stop w)
  | CallExecuteOnce => Some (call_executeOnce w)
  | TimerFire t =>
      match timers w !! t with
      | Some _ => Some (tick w)
      | None => None
      end
  | FindOneSettles k r now =>
      match tasks w !! k with
      | Some StartAwaitFind => Some (start_resume k r now (set_tasks (delete k) w))
      | Some OnceAwaitFind => Some (executeOnce_resume k r (set_tasks (delete k) w))
      | Some TickAwaitFind => Some (executeConcurrently_resume k r (set_tasks (delete k) w))
      | _ => None
      end
  | AllSettled k =>
      match tasks w !! k with
      | Some (StopAwaitAll snapshot) =>
          if all_settled snapshot w
          then Some (emit (OReturn k MStop (Fulfilled VUndefined)) (set_tasks (delete k) w))
          else None
      | Some (StartAwaitStop snapshot) =>
          if all_settled snapshot w
          then Some (start_find k (set_tasks (delete k) w))
          else None
      | _ => None
      end
  | ExecutorSettles p out =>
      match execs w !! p with
      | Some o => Some (executor_settles p o out w)
      | None => None
      end
  end.

Fixpoint run (es : list Event) (w : World) : option World :=
  match es with
  | [] => Some w
  | e :: rest =>
      match step e w with
      | Some w' => run rest w'
      | None => None
      end
  end.

(** *** Notions used to state properties of runs *)

(** A call of [start()] or [stop()] is in progress when one of them is
    suspended at an [await]. *)
Definition lifecycle (t : Task) : bool :=
  match t with
  | StopAwaitAll _ | StartAwaitStop _ | StartAwaitFind => true
  | OnceAwaitFind | TickAwaitFind => false
  end.

Definition loading_tick (t : Task) : bool :=
  match t with
  | TickAwaitFind => true
  | _ => false
  end.

(** No [start()] or [stop()] is in progress. *)
Definition idle (w : World) : bool :=
  forallb (fun kt => negb (lifecycle (snd kt))) (map_to_list (tasks w)).

(** No tick is waiting for its job definition. *)
Definition no_tick_loading (w : World) : bool :=
  forallb (fun kt => negb (loading_tick (snd kt))) (map_to_list (tasks w)).

Definition lifecycle_call (e : Event) : bool :=
  match e with
  | CallStart | CallStop => true
  | _ => false
  end.

(** A run in which the clients of the scheduler serialize [start()] and
    [stop()]: each is called only when no other call of the two is in
    progress (section 5 of the specification).  Ticks, executions and
    [executeOnce()] interleave freely. *)
Fixpoint run_serial (es : list Event) (w : World) : option World :=
  match es with
  | [] => Some w
  | e :: rest =>
      if lifecycle_call e && negb (idle w) then None
      else
        match step e w with
        | Some w' => run_serial rest w'
        | None => None
        end
  end.

Definition is_execute (o : Obs) : bool :=
  match o with
  | OExecute _ _ _ => true
  | _ => false
  end.

(** How often [jobExecutor.execute] has been invoked. *)
Definition executor_invocations (tr : list Obs) : nat :=
  length (List.filter is_execute tr).

Definition is_unexpected (o : Obs) : bool :=
  match o with
  | OLog (LError message _ _ _) =>
      String.eqb message "an unexpected error occurred while running job"
  | _ => false
  end.

(** How often [handleUnexpectedError] has reported. *)
Definition unexpected_errors (tr : list Obs) : nat :=
  length (List.filter is_unexpected tr).

Definition is_start_call (e : Event) : bool :=
  match e with
  | CallStart => true
  | _ => false
  end.

(** The timers armed in the runtime are exactly the one whose handle the
    scheduler holds. *)
Definition timers_held (w : World) : Prop :=
  match jobHandle (this w) with
  | Some t => exists tm, timers w = {[ t := tm ]}
  | None => timers w = ∅
  end.

(** The invariant of serialized runs: the scheduler holds its timers; at
    most one call of [start()] or [stop()] is in progress; while one is, no
    timer is armed. *)
Definition lifecycle_inv (w : World) : Prop :=
  timers_held w
  /\ (forall k1 k2 t1 t2,
        tasks w !! k1 = Some t1 -> tasks w !! k2 = Some t2 ->
        lifecycle t1 = true -> lifecycle t2 = true -> k1 = k2)
  /\ (forall k t, tasks w !! k = Some t -> lifecycle t = true -> jobHandle (this w) = None).

(** The bookkeeping of promises and identifiers, an invariant of every run. *)
Definition promise_inv (w : World) : Prop :=
  NoDup (pendingExecutions (this w))
  /\ (forall p, p ∈ pendingExecutions (this w) -> execs w !! p = Some FromTick)
  /\ (forall p, p ∈ settled w -> execs w !! p = None)
  /\ (forall p o, execs w !! p = Some o -> p < fresh w)
  /\ (forall p, p ∈ settled w -> p < fresh w)
  /\ (forall k t, tasks w !! k = Some t -> k < fresh w)
  /\ (forall k c, OReturn k MStop c ∈ trace w -> k < fresh w)
  /\ (forall p job, OExecute p FromTick job ∈ trace w ->
        p ∈ settled w \/ p ∈ pendingExecutions (this w))
  /\ (forall p, p ∈ settled w -> exists out, OSettled p out ∈ trace w).

(** What holds once [stop()], called as call [k] when the trace was [tr],
    has run its synchronous part, for as long as [start()] is not called:
    no timer, no tick, no [start()] in progress, no further invocation by a
    tick; and the call either still waits for a snapshot that covers
    everything pending, or has resolved, at a time when every invocation
    launched by a tick had settled ([trace] is newest first: [earlier] is
    what happened before the call resolved). *)
Definition stopped (k : CallId) (tr : list Obs) (w : World) : Prop :=
  timers w = ∅
  /\ jobHandle (this w) = None
  /\ (forall k' t, tasks w !! k' = Some t ->
        t = OnceAwaitFind \/ exists snapshot, t = StopAwaitAll snapshot)
  /\ k < fresh w
  /\ (exists new, trace w = new ++ tr)
  /\ (forall p job, OExecute p FromTick job ∈ trace w -> OExecute p FromTick job ∈ tr)
  /\ match tasks w !! k with
     | Some (StopAwaitAll snapshot) =>
         (forall p, p ∈ pendingExecutions (this w) -> p ∈ snapshot)
         /\ (forall c, OReturn k MStop c ∉ trace w)
     | Some _ => False
     | None =>
         pendingExecutions (this w) = []
         /\ exists later earlier,
              trace w = later ++ OReturn k MStop (Fulfilled VUndefined) :: earlier
              /\ forall p job, OExecute p FromTick job ∈ tr ->
                               exists out, OSettled p out ∈ earlier
     end.

(** The same world with another value of [unexpectedErrorCount]. *)
Definition with_count (n : nat) (w : World) : World :=
  set_this (set_unexpectedErrorCount n) w.

End WithJob.

End Scheduler.

(** ** Sequential effectful code: a state and exception monad

    [connect], [MongoSchedule] and the schedule ping are written as straight
    sequences of awaited calls; they are embedded in a monad that threads the
    state and stops at the first exception. *)
Module Effects.

Inductive Res (A : Type) :=
| Ok (a : A)
| Throw (e : Err).

Arguments Ok {A} a.
Arguments Throw {A} e.

Definition M (S A : Type) : Type := S -> Res A * S.

Definition ret {S A} (a : A) : M S A := fun s => (Ok a, s).

Definition bind {S A B} (m : M S A) (k : A -> M S B) : M S B :=
  fun s =>
    match m s with
    | (Ok a, s') => k a s'
    | (Throw e, s') => (Throw e, s')
    end.

Definition throw {S A} (e : Err) : M S A := fun s => (Throw e, s).

(** [try { m } catch (e) { handler(e) }] *)
Definition try_catch {S A} (m : M S A) (handler : Err -> M S A) : M S A :=
  fun s =>
    match m s with
    | (Ok a, s') => (Ok a, s')
    | (Throw e, s') => handler e s'
    end.

Definition gets {S A} (f : S -> A) : M S A := fun s => (Ok (f s), s).

Definition modify {S} (f : S -> S) : M S unit := fun s => (Ok tt, f s).

(** Run a computation on a component of the state. *)
Definition zoom {S T A} (get : S -> T) (set : T -> S -> S) (m : M T A) : M S A :=
  fun s => let '(r, t) := m (get s) in (r, set t s).

Definition when {S} (b : bool) (m : M S unit) : M S unit := if b then m else ret tt.

End Effects.

Notation "'let!' x ':=' c 'in' k" := (Effects.bind c (fun x => k))
  (at level 10, x name, c at level 100, k at level 200, only parsing).
Notation "c ';!' k" := (Effects.bind c (fun _ => k))
  (at level 100, k at level 200, right associativity, only parsing).

(** ** The process: connection manager, schedules collection, call log *)
Module Process.

Import Effects.

Inductive Collection := Jobs | Executions.

(** Calls that leave the embedded code. *)
Inductive Call :=
| Uuid
| CreateConnection (name url : string)
| CreateCollectionIndex (c : Collection) (field indexName : string)
| Close (name : string)
| AddSchedule (scheduleId : string)
| DeleteOne (scheduleId : string)
| IsActiveSchedule (name : string)
| PingSchedule (scheduleId : string)
| DeleteDead (name : string) (olderThan : Z)
| StartAllJobs
| CancelJobs (names : list string)
| SetInterval (t : nat) (period : Z)
| ClearInterval (t : nat).

Inductive Effect :=
| ECall (c : Call)
| EDebug (message : string)
| EError (message : string) (type : MomoErrorType) (error : Err).

Record Connection := { connId : nat; url : string }.

Record ScheduleEntry := { scheduleId : string; name : string; lastAlive : Z }.

Record Proc := {
  manager : gmap string Connection;   (* typeorm's open connections, by name *)
  schedules : list ScheduleEntry;     (* the schedules (executions) collection *)
  uuids : nat;                        (* how many identifiers were generated *)
  nextId : nat;                       (* next connection or timer identifier *)
  effects : list Effect;              (* newest first *)
}.

Definition empty : Proc :=
  {| manager := ∅; schedules := []; uuids := 0; nextId := 0; effects := [] |}.

(** What the environment decides during one operation: which calls fail, the
    answer of [isActiveSchedule], and the clock. *)
Record Env := { fails : Call -> option Err; active : bool; now : Z }.

Definition log (e : Effect) : M Proc unit :=
  modify (fun s => {| manager := manager s; schedules := schedules s; uuids := uuids s;
                      nextId := nextId s; effects := e :: effects s |}).

Definition set_manager (f : gmap string Connection -> gmap string Connection) : M Proc unit :=
  modify (fun s => {| manager := f (manager s); schedules := schedules s; uuids := uuids s;
                      nextId := nextId s; effects := effects s |}).

Definition set_schedules (f : list ScheduleEntry -> list ScheduleEntry) : M Proc unit :=
  modify (fun s => {| manager := manager s; schedules := f (schedules s); uuids := uuids s;
                      nextId := nextId s; effects := effects s |}).

Definition next : M Proc nat :=
  fun s => (Ok (nextId s),
            {| manager := manager s; schedules := schedules s; uuids := uuids s;
               nextId := S (nextId s); effects := effects s |}).

Definition next_uuid : M Proc nat :=
  fun s => (Ok (uuids s),
            {| manager := manager s; schedules := schedules s; uuids := S (uuids s);
               nextId := nextId s; effects := effects s |}).

(** An awaited call: it is logged, then fails if the environment says so. *)
Definition call (env : Env) (c : Call) : M Proc unit :=
  log (ECall c) ;!
  match fails env c with
  | Some e => throw e
  | None => ret tt
  end.

(** *** The schedules repository

    The repository classes are not among the sources; the operations below
    are those of section 6 of the specification (Executions Ledger) on the
    collection of ScheduleEntry records of section 3. *)

(** Modelled from the spec: [addSchedule(scheduleId, name)] creates the
    ScheduleEntry of a schedule (the repository is not among the sources). *)
Definition addSchedule (env : Env) (id nm : string) : M Proc unit :=
  call env (AddSchedule id) ;!
  set_schedules (fun l => (l ++ [{| scheduleId := id; name := nm; lastAlive := now env |}])%list).

(** Modelled from the spec: [deleteOne({ scheduleId })] deletes the entries
    of that schedule (the repository is not among the sources). *)
Definition deleteOne (env : Env) (id : string) : M Proc unit :=
  call env (DeleteOne id) ;!
  set_schedules (List.filter (fun e => negb (bool_decide (scheduleId e = id)))).

(** Modelled from the spec: [isActiveSchedule(name)]; the election of
    section 4.7 is not among the sources, the environment answers. *)
Definition isActiveSchedule (env : Env) (nm : string) : M Proc bool :=
  call env (IsActiveSchedule nm) ;!
  ret (active env).

(** Modelled from the spec: [ping(scheduleId)] updates [lastAlive] to now. *)
Definition ping (env : Env) (id : string) : M Proc unit :=
  call env (PingSchedule id) ;!
  set_schedules
    (List.map (fun e => if bool_decide (scheduleId e = id)
                        then {| scheduleId := scheduleId e; name := name e; lastAlive := now env |}
                        else e)).

(** Modelled from the spec: the clean-up deletes the entries of the same
    schedule name whose [lastAlive] is older than the threshold. *)
Definition deleteDead (env : Env) (nm : string) (olderThan : Z) : M Proc unit :=
  call env (DeleteDead nm olderThan) ;!
  set_schedules
    (List.filter (fun e => negb (bool_decide (name e = nm) && (lastAlive e <? olderThan)%Z))).

End Process.

(** ** The schedule ping *)
Module Ping.

Import Effects Process.

(** Modelled from the spec: [class SchedulePing] is not among the sources
    (only its test is).  The record holds the constructor arguments of the
    test ([scheduleId], schedule name, interval), the timer handle and
    whether the last tick saw this schedule active (section 4.6). *)
Record SchedulePing := {
  scheduleId : string;
  scheduleName : string;
  interval : Z;
  handle : option nat;
  wasActive : bool;
}.

(** Modelled from the spec: a new ping is idle and has not seen its
    schedule active. *)
Definition create (id nm : string) (i : Z) : SchedulePing :=
  {| scheduleId := id; scheduleName := nm; interval := i; handle := None; wasActive := false |}.

Definition St : Type := SchedulePing * Proc.

Definition proc {A} (m : M Proc A) : M St A :=
  zoom snd (fun p (s : St) => (fst s, p)) m.

Definition set_wasActive (b : bool) : M St unit :=
  modify (fun s : St =>
            ({| scheduleId := scheduleId (fst s); scheduleName := scheduleName (fst s);
                interval := interval (fst s); handle := handle (fst s); wasActive := b |},
             snd s)).

Definition set_handle (h : option nat) : M St unit :=
  modify (fun s : St =>
            ({| scheduleId := scheduleId (fst s); scheduleName := scheduleName (fst s);
                interval := interval (fst s); handle := h; wasActive := wasActive (fst s) |},
             snd s)).

Definition errorMessage : string := "Pinging or cleaning the Schedules repository failed".

(** Modelled from the spec: steps 1 to 4 of the ping loop (section 4.6). *)
Definition pingAndClean (env : Env) : M St unit :=
  let! this := gets fst in
  let! isActive := proc (isActiveSchedule env (scheduleName this)) in
  set_wasActive isActive ;!
  when (isActive && negb (wasActive this)) (proc (call env StartAllJobs)) ;!
  proc (ping env (scheduleId this)) ;!
  proc (deleteDead env (scheduleName this) (now env - 2 * interval this)).

(** Modelled from the spec: one tick; "any store error in steps 1-4 is caught
    and logged"; the logger arguments are those the test expects. *)
Definition tick (env : Env) : M St unit :=
  try_catch (pingAndClean env)
    (fun e => proc (log (EError errorMessage internal e))).

(** Modelled from the spec: [start()] takes an idle ping to active, timer
    armed; as the test shows, a first tick has run when it resolves. *)
Definition start (env : Env) : M St unit :=
  let! this := gets fst in
  match handle this with
  | Some _ => ret tt
  | None =>
      tick env ;!
      let! t := proc next in
      proc (log (ECall (SetInterval t (interval this)))) ;!
      set_handle (Some t)
  end.

(** Modelled from the spec: [stop()] deletes the schedule's own entry and
    cancels the timer; the ping never propagates store errors (section 7). *)
Definition stop (env : Env) : M St unit :=
  let! this := gets fst in
  try_catch (proc (deleteOne env (scheduleId this)))
    (fun e => proc (log (EError errorMessage internal e))) ;!
  match handle this with
  | Some t => proc (log (ECall (ClearInterval t))) ;! set_handle None
  | None => ret tt
  end.

(** How many ticks have begun: each begins by asking [isActiveSchedule]. *)
Definition ticks_begun (l : list Effect) : nat :=
  length (List.filter (fun e => match e with ECall (IsActiveSchedule _) => true | _ => false end) l).

(** Modelled from the spec: the ping loop, "one tick every ping interval".
    The armed timer fires once per environment of the list; a tick runs only
    while the timer is armed. *)
Fixpoint loop (envs : list Env) : M St unit :=
  match envs with
  | [] => ret tt
  | env :: rest =>
      let! this := gets fst in
      match handle this with
      | Some _ => tick env ;! loop rest
      | None => ret tt
      end
  end.

End Ping.

(** ** connect, disconnect and MongoSchedule *)
Module Mongo.

Import Effects Process.

Definition connectionName : string := "momo".

Record MomoConnectionOptions := { url : string }.

(** Modelled from the spec: [isConnected] is imported from a file that is not
    among the sources; a connection named [connectionName] exists. *)
Definition isConnected (s : Proc) : bool :=
  bool_decide (is_Some (manager s !! connectionName)).

(** typeorm's [getConnection(name)]: throws when there is none. *)
Definition getConnection (nm : string) : M Proc Connection :=
  let! m := gets manager in
  match m !! nm with
  | Some c => ret c
  | None => throw (OtherError "ConnectionNotFoundError")
  end.

(** typeorm's [createConnection(options)]: a new connection is opened and
    registered under its name. *)
Definition createConnection (env : Env) (nm u : string) : M Proc Connection :=
  call env (CreateConnection nm u) ;!
  let! i := next in
  let c := {| connId := i; Process.url := u |} in
  set_manager (insert nm c) ;!
  ret c.

Definition createCollectionIndex (env : Env) (c : Collection) (field indexName : string)
  : M Proc unit :=
  call env (CreateCollectionIndex c field indexName).

Definition debug (logger : bool) (message : string) : M Proc unit :=
  when logger (log (EDebug message)).

(** [connect(connectionOptions, logger?)]; [logger] says whether one was
    passed. *)
Definition connect (env : Env) (connectionOptions : MomoConnectionOptions) (logger : bool)
  : M Proc Connection :=
  let! connected := gets isConnected in
  if connected : bool then getConnection connectionName
  else
    debug logger "connect to database" ;!
    let! connection := createConnection env connectionName (url connectionOptions) in
    debug logger "create indices" ;!
    createCollectionIndex env Jobs "name" "job_name_index" ;!
    createCollectionIndex env Executions "scheduleId" "schedule_id_index" ;!
    ret connection.

(** [disconnect()] *)
Definition disconnect (env : Env) : M Proc unit :=
  let! _ := getConnection connectionName in
  call env (Close connectionName) ;!
  set_manager (delete connectionName).

(** [class MongoSchedule extends Schedule]: the schedule's identifier, the
    job schedulers the base class holds (by job name; the flag says whether
    the job is started) and the ping. *)
Record MongoSchedule := {
  scheduleId : string;
  jobSchedulers : gmap string bool;
  schedulePing : Ping.SchedulePing;
}.

Definition St : Type := MongoSchedule * Proc.

Definition proc {A} (m : M Proc A) : M St A :=
  zoom snd (fun p (s : St) => (fst s, p)) m.

Definition onPing {A} (m : M Ping.St A) : M St A :=
  zoom (fun s : St => (schedulePing (fst s), snd s))
       (fun (ps : Ping.St) (s : St) =>
          ({| scheduleId := scheduleId (fst s); jobSchedulers := jobSchedulers (fst s);
              schedulePing := fst ps |}, snd ps)) m.

(** Modelled from the spec: [Schedule.cancel()], of the base class that is
    not among the sources, "both stops and removes from the local scheduler
    set without deleting from the Job Store". *)
Definition cancel : M St unit :=
  let! this := gets fst in
  proc (log (ECall (CancelJobs (map fst (map_to_list (jobSchedulers this)))))) ;!
  modify (fun s : St =>
            ({| scheduleId := scheduleId (fst s); jobSchedulers := ∅;
                schedulePing := schedulePing (fst s) |}, snd s)).

Section WithUuid.

(** [uuid()]: the [n]-th identifier the generator hands out. *)
Variable uuid : nat -> string.

(** The default ping interval of this version is not among the sources. *)
Variable pingInterval : Z.

(** [new MongoSchedule(scheduleId)] *)
Definition new (id : string) : MongoSchedule :=
  {| scheduleId := id; jobSchedulers := ∅; schedulePing := Ping.create id "" pingInterval |}.

(** [MongoSchedule.connect(connectionOptions)].  The call
    [mongoSchedule.schedulePing.start()] is not awaited; what it does is
    recorded at the place of the call. *)
Definition MongoSchedule_connect (env : Env) (connectionOptions : MomoConnectionOptions)
  : M Proc MongoSchedule :=
  let! n := next_uuid in
  let id := uuid n in
  log (ECall Uuid) ;!
  let mongoSchedule := new id in
  let! _ := connect env connectionOptions true in
  addSchedule env id "" ;!
  fun s =>
    let '(_, (ms, s')) := onPing (Ping.start env) (mongoSchedule, s) in
    (Ok ms, s').

End WithUuid.

(** [mongoSchedule.disconnect()] *)
Definition MongoSchedule_disconnect (env : Env) : M St unit :=
  cancel ;!
  onPing (Ping.stop env) ;!
  proc (disconnect env).

End Mongo.

(** ** Concrete environments and states used in examples *)
Module MongoSamples.

Import Effects Process Mongo.

(** An environment in which every call succeeds. *)
Definition calm (t : Z) : Env := {| fails := fun _ => None; active := true; now := t |}.

(** An environment in which [ping] is rejected, as in the test. *)
Definition ping_rejected (t : Z) : Env :=
  {| fails := fun c => match c with
                       | PingSchedule _ => Some (OtherError "I am an error that should be caught")
                       | _ => None
                       end;
     active := true; now := t |}.

(** A generator of identifiers for the examples: the [n]-th identifier is
    [n] in unary. *)
Fixpoint sample_uuid (n : nat) : string :=
  match n with
  | O => "id"
  | S m => String.append "I" (sample_uuid m)
  end.

Definition sample_options : MomoConnectionOptions :=
  {| url := "mongodb://localhost:27017" |}.

(** The ping of the test: [scheduleId = '123'], schedule name ['schedule'],
    interval 1000. *)
Definition test_ping : Ping.St := (Ping.create "123" "schedule" 1000, Process.empty).

(** A process in which [MongoSchedule.connect] has returned, and the
    schedule it returned. *)
Definition connected : Res MongoSchedule * Proc :=
  MongoSchedule_connect sample_uuid 1000 (calm 0) sample_options Process.empty.

Definition connected_schedule : MongoSchedule :=
  match fst connected with
  | Ok ms => ms
  | Throw _ => new 1000 ""
  end.

End MongoSamples.

(** ** Concrete schedulers and jobs used in examples *)
Module Samples.

Import Scheduler.

(** A fragment of the interval grammar, enough for the examples: the
    parser yields a millisecond count, or [NaN] for what it cannot read. *)
Definition humanInterval (s : string) : option JsNumber :=
  if decide (s = "one minute") then Some (Num 60000)
  else if decide (s = "30 seconds") then Some (Num 30000)
  else if decide (s = "one hour") then Some (Num 3600000)
  else Some NaN.

(** Modelled from the spec: [calculateDelay] is imported from a file that is
    not among the sources; this is the delay of section 4.2. *)
Definition calculateDelay (now interval : Z) (immediate : bool) (job : JobEntity.t) : Z :=
  match JobEntity.lastFinished job with
  | None => if immediate then 0%Z else interval
  | Some t => Z.max 0 (interval - (now - t))
  end.

(** The job of scenario 2 of the specification: [concurrency = 5],
    [maxRunning = 2], one invocation already running. *)
Definition job : JobEntity.t :=
  {| JobEntity.name := "j"; JobEntity.interval := "one minute";
     JobEntity.concurrency := 5; JobEntity.maxRunning := 2;
     JobEntity.running := Some 1%Z; JobEntity.lastFinished := None |}.

(** A job whose interval does not parse (scenario 4). *)
Definition blue_moon : JobEntity.t :=
  {| JobEntity.name := "j"; JobEntity.interval := "every blue moon";
     JobEntity.concurrency := 1; JobEntity.maxRunning := 0;
     JobEntity.running := None; JobEntity.lastFinished := None |}.

Definition scheduler : World := forJob "j" false.

Definition run := Scheduler.run humanInterval calculateDelay.
Definition run_serial := Scheduler.run_serial humanInterval calculateDelay.
Definition step := Scheduler.step humanInterval calculateDelay.

(** The world the events lead to ([scheduler] itself if they cannot
    happen). *)
Definition after (es : list Event) : World :=
  default scheduler (run es scheduler).

(** [start()] has been called and waits for the job definition. *)
Definition starting : World := after [CallStart].

(** The scheduler is started. *)
Definition started : World :=
  after [CallStart; FindOneSettles 0 (Found job) 0].

(** The timer has fired; the tick waits for the job definition. *)
Definition ticking : World :=
  after [CallStart; FindOneSettles 0 (Found job) 0; TimerFire 1].

(** The tick has found the job and launched its invocations. *)
Definition ticked : World :=
  after [CallStart; FindOneSettles 0 (Found job) 0; TimerFire 1;
         FindOneSettles 2 (Found job) 0].

(** [executeOnce()] has been called and waits for the job definition. *)
Definition once : World := after [CallExecuteOnce].

(** [executeOnce()] has been called and its lookup has failed. *)
Definition once_failed : World :=
  after [CallExecuteOnce; FindOneSettles 0 (FindFails (OtherError "store unavailable")) 0].

(** [start()] has found a job whose interval does not parse. *)
Definition start_refused : World :=
  after [CallStart; FindOneSettles 0 (Found blue_moon) 0].


(** After a tick has launched an invocation, [stop()] is called, the
    invocation finishes and the call resolves. *)
Definition drained : World :=
  after [CallStart; FindOneSettles 0 (Found job) 0; TimerFire 1;
         FindOneSettles 2 (Found job) 0;
         CallStop; ExecutorSettles 3 (Resolves {| status := finished |}); AllSettled 4].

End Samples.

(** ** getJobDescription *)
Module Description.

Import Scheduler.

(** The [schedulerStatus] of a [MomoJobDescription]. *)
Record SchedulerStatus := {
  interval : string;
  running : option Z;          (* [jobEntity.running], a [running?: number] *)
}.

Section WithDescription.

(** [jobDescriptionFromEntity] is imported; [D] is the type of what it
    returns. *)
Variable D : Type.
Variable jobDescriptionFromEntity : JobEntity.t -> D.

(** [{ ...jobDescriptionFromEntity(jobEntity), schedulerStatus }] *)
Record MomoJobDescription := {
  fromEntity : D;
  schedulerStatus : option SchedulerStatus;
}.

(** How the promise of [getJobDescription()] settles: fulfilled with a
    description or [undefined], or rejected. *)
Inductive Described :=
| Describes (d : option MomoJobDescription)
| DescribeFails (e : Err).

(** [getJobDescription()] resumed with the result of [findOne], in the world
    in which the lookup settles.  The method has no [try]: a failing lookup
    rejects its promise. *)
Definition getJobDescription (r : FindResult) (w : World) : Described * World :=
  match r with
  | FindFails e => (DescribeFails e, w)
  | Missing =>
      (Describes None,
       emit (OLog (LError "get job description - job not found" scheduleJob
                     (jobName (this w)) jobNotFound)) w)
  | Found jobEntity =>
      let schedulerStatus :=
        match Scheduler.interval (this w) with
        | Some i => Some {| interval := i; running := JobEntity.running jobEntity |}
        | None => None
        end in
      (Describes (Some {| fromEntity := jobDescriptionFromEntity jobEntity;
                          schedulerStatus := schedulerStatus |}), w)
  end.

End WithDescription.

Arguments fromEntity {D} _.
Arguments schedulerStatus {D} _.
Arguments Describes {D} _.
Arguments DescribeFails {D} _.

End Description.

(** ** Further notions used to state properties of runs *)
Module Bookkeeping.

Import Scheduler.

(** [pendingExecutions] and the trace: every promise a tick has launched and
    that has not settled is in the array; every promise of the array was
    launched by a tick; a promise that was seen settling is settled; the
    promises of [executeOnce()] are not in the array; the promises seen are
    older than the next identifier. *)
Definition pending_inv (w : World) : Prop :=
  (forall p, execs w !! p = Some FromTick -> p ∈ pendingExecutions (this w))
  /\ (forall p, p ∈ pendingExecutions (this w) -> exists job, OExecute p FromTick job ∈ trace w)
  /\ (forall p out, OSettled p out ∈ trace w -> p ∈ settled w)
  /\ (forall p k job, OExecute p (FromOnce k) job ∈ trace w -> p ∉ pendingExecutions (this w))
  /\ (forall p o job, OExecute p o job ∈ trace w -> p < fresh w).

(** [this.interval !== undefined] *)
Definition interval_defined (w : World) : bool :=
  match Scheduler.interval (this w) with Some _ => true | None => false end.


Definition is_rejection (out : Outcome) : bool :=
  match out with Rejects _ => true | Resolves _ => false end.


End Bookkeeping.

(** ** The earlier version of MongoSchedule *)
Module MongoV1.

Import Effects Process Mongo.

(** [class MongoSchedule extends Schedule] as it is in the first of the two
    versions among the sources: it has neither a schedule identifier nor a
    ping, only the job schedulers the base class holds. *)
Record MongoSchedule := { jobSchedulers : gmap string bool }.

Definition St : Type := MongoSchedule * Proc.

Definition proc {A} (m : M Proc A) : M St A :=
  zoom snd (fun p (s : St) => (fst s, p)) m.

(** Modelled from the spec: [Schedule.cancel()], of the base class that is
    not among the sources, "both stops and removes from the local scheduler
    set without deleting from the Job Store". *)
Definition cancel : M St unit :=
  let! this := gets fst in
  proc (log (ECall (CancelJobs (map fst (map_to_list (jobSchedulers this)))))) ;!
  modify (fun s : St => ({| jobSchedulers := ∅ |}, snd s)).

(** [new MongoSchedule()] *)
Definition new : MongoSchedule := {| jobSchedulers := ∅ |}.

(** [MongoSchedule.connect(connectionOptions)] *)
Definition MongoSchedule_connect (env : Env) (connectionOptions : MomoConnectionOptions)
  : M Proc MongoSchedule :=
  let mongoSchedule := new in
  let! _ := connect env connectionOptions true in
  ret mongoSchedule.

(** [mongoSchedule.disconnect()] *)
Definition MongoSchedule_disconnect (env : Env) : M St unit :=
  cancel ;!
  proc (disconnect env).

End MongoV1.

(** * Properties of JobScheduler *)
Module SchedulerFacts.

Import JobEntity Scheduler.

Section Facts.

Variable humanInterval : string -> option JsNumber.
Variable calculateDelay : Z -> Z -> bool -> JobEntity.t -> Z.

Local Abbreviation step := (Scheduler.step humanInterval calculateDelay).
Local Abbreviation run := (Scheduler.run humanInterval calculateDelay).
Local Abbreviation run_serial := (Scheduler.run_serial humanInterval calculateDelay).
Local Abbreviation start_resume := (Scheduler.start_resume humanInterval calculateDelay).

#[local] Arguments unexpected_errors : simpl never.
#[local] Arguments executor_invocations : simpl never.

(** ** The launch loop *)

Lemma executor_invocations_cons o tr :
  executor_invocations (o :: tr) = (if is_execute o then 1 else 0) + executor_invocations tr.
Proof. unfold executor_invocations. simpl. destruct (is_execute o); reflexivity. Qed.

Lemma unexpected_errors_cons o tr :
  unexpected_errors (o :: tr) = (if is_unexpected o then 1 else 0) + unexpected_errors tr.
Proof. unfold unexpected_errors. simpl. destruct (is_unexpected o); reflexivity. Qed.

Lemma launch_trace n job w :
  executor_invocations (trace (launch n job w)) = n + executor_invocations (trace w).
Proof.
  revert w. induction n as [|n IH]; intros w; simpl; [reflexivity|].
  rewrite IH. unfold launch_one, execute. cbn [trace set_this set_execs emit bump].
  rewrite executor_invocations_cons. simpl. lia.
Qed.

Lemma launch_pending n job w :
  length (pendingExecutions (this (launch n job w))) = n + length (pendingExecutions (this w)).
Proof.
  revert w. induction n as [|n IH]; intros w; simpl; [reflexivity|].
  rewrite IH. simpl. rewrite length_app. simpl. lia.
Qed.

(** [numToExecute] in closed form. *)
Lemma numToExecute_eq job :
  numToExecute job =
    if (maxRunning job <=? 0)%Z then concurrency job
    else Z.min (concurrency job) (maxRunning job - default 0%Z (running job)).
Proof.
  unfold numToExecute. simpl.
  destruct (Z.ltb_spec 0 (maxRunning job)); destruct (Z.leb_spec (maxRunning job) 0);
    try lia; try reflexivity.
  destruct (Z.ltb_spec (maxRunning job - default 0%Z (running job)) (concurrency job)); lia.
Qed.

(** A tick that finds its job invokes the executor [numToExecute] times, or
    not at all when that number is negative. *)
Lemma tick_found_invocations w k job now w' :
  tasks w !! k = Some TickAwaitFind ->
  step (FindOneSettles k (Found job) now) w = Some w' ->
  executor_invocations (trace w') = Z.to_nat (numToExecute job) + executor_invocations (trace w)
  /\ length (pendingExecutions (this w'))
     = Z.to_nat (numToExecute job) + length (pendingExecutions (this w)).
Proof.
  intros Hk Hs. simpl in Hs. rewrite Hk in Hs. injection Hs as <-.
  unfold executeConcurrently_resume. cbn [trace emit this].
  rewrite executor_invocations_cons, launch_trace, launch_pending.
  cbn [trace emit this set_tasks]. rewrite executor_invocations_cons.
  split; reflexivity.
Qed.

(** C1: for a tick of [executeConcurrently] that finds the job definition
    (with a concurrency that is not negative, as a count has to be), the
    number of executor invocations launched is [concurrency] when
    [maxRunning <= 0], and [min(concurrency, max(0, maxRunning - running))]
    otherwise; in particular none is launched when [running >= maxRunning]. *)
Theorem tick_launches_min_concurrency_capacity w k job now w' :
  tasks w !! k = Some TickAwaitFind ->
  step (FindOneSettles k (Found job) now) w = Some w' ->
  (0 <= concurrency job)%Z ->
  let launched := executor_invocations (trace w') - executor_invocations (trace w) in
  let running := default 0%Z (running job) in
  Z.of_nat launched =
    (if (maxRunning job <=? 0)%Z then concurrency job
     else Z.min (concurrency job) (Z.max 0 (maxRunning job - running)))
  /\ ((0 < maxRunning job)%Z -> (maxRunning job <= running)%Z -> launched = 0)
  /\ length (pendingExecutions (this w')) = launched + length (pendingExecutions (this w)).
Proof.
  intros Hk Hs Hc launched running0.
  destruct (tick_found_invocations w k job now w' Hk Hs) as [Ht Hp].
  assert (Hl : launched = Z.to_nat (numToExecute job)) by (unfold launched; lia).
  rewrite Hp, Hl, numToExecute_eq. fold running0.
  destruct (Z.leb_spec (maxRunning job) 0); repeat split; try lia.
Qed.

(** ** The counter of unexpected errors *)

Lemma launch_with_count m job n w :
  launch m job (with_count n w) = with_count n (launch m job w).
Proof.
  revert w. induction m as [|m IH]; intros w; simpl; [reflexivity|].
  rewrite <- IH. reflexivity.
Qed.

Lemma launch_count m job w :
  unexpectedErrorCount (this (launch m job w)) = unexpectedErrorCount (this w)
  /\ unexpected_errors (trace (launch m job w)) = unexpected_errors (trace w).
Proof.
  revert w. induction m as [|m IH]; intros w; simpl; [split; reflexivity|].
  destruct (IH (launch_one job w)) as [-> ->]. split; reflexivity.
Qed.

Lemma step_count e w w' :
  step e w = Some w' ->
  unexpected_errors (trace w') + getUnexpectedErrorCount w
  = unexpected_errors (trace w) + getUnexpectedErrorCount w'
  /\ unexpected_errors (trace w) <= unexpected_errors (trace w').
Proof.
  unfold getUnexpectedErrorCount.
  destruct e as [| | |t|k r now|k|p out]; cbn; intros H.
  - injection H as <-. unfold call_start, stop_sync, clearInterval. cbn.
    destruct (jobHandle (this w)); cbn; destruct (pendingExecutions (this w)); cbn;
      rewrite ?unexpected_errors_cons; cbn; lia.
  - injection H as <-. unfold call_stop, stop_sync, clearInterval. cbn.
    destruct (jobHandle (this w)); cbn; destruct (pendingExecutions (this w)); cbn;
      rewrite ?unexpected_errors_cons; cbn; lia.
  - injection H as <-. cbn. rewrite ?unexpected_errors_cons; cbn; lia.
  - destruct (timers w !! t); [|discriminate]. injection H as <-. cbn.
    rewrite ?unexpected_errors_cons; cbn; lia.
  - destruct (tasks w !! k) as [[]|]; try discriminate; injection H as <-.
    + unfold Scheduler.start_resume, setIntervalWithDelay. destruct r as [job| |e]; cbn.
      * destruct (humanInterval (JobEntity.interval job)) as [[z|]|]; cbn;
          try (rewrite ?unexpected_errors_cons; cbn; lia).
        destruct (z =? 0)%Z; cbn; rewrite ?unexpected_errors_cons; cbn; lia.
      * rewrite ?unexpected_errors_cons; cbn; lia.
      * rewrite ?unexpected_errors_cons; cbn; lia.
    + destruct r as [job| |e]; cbn; rewrite ?unexpected_errors_cons; cbn; lia.
    + destruct r as [job| |e]; cbn; rewrite ?unexpected_errors_cons; cbn; try lia.
      destruct (launch_count (Z.to_nat (numToExecute job)) job
        (emit (OLog (LDebug "execute job" (jobName (this w)) [numToExecute job]))
           (set_tasks (delete k) w))) as [-> ->].
      cbn. rewrite ?unexpected_errors_cons; cbn; lia.
  - destruct (tasks w !! k) as [[]|]; try discriminate;
      destruct (all_settled _ w); try discriminate; injection H as <-; cbn;
      rewrite ?unexpected_errors_cons; cbn; lia.
  - destruct (execs w !! p) as [[|k]|]; try discriminate; injection H as <-;
      destruct out; cbn; rewrite ?unexpected_errors_cons; cbn; lia.
Qed.

Lemma step_with_count e n w :
  option_map (with_count 0) (step e (with_count n w))
  = option_map (with_count 0) (step e w).
Proof.
  destruct e as [| | |t|k r now|k|p out]; cbn.
  - unfold call_start, stop_sync, clearInterval. cbn.
    destruct (jobHandle (this w)); cbn; destruct (pendingExecutions (this w)); reflexivity.
  - unfold call_stop, stop_sync, clearInterval. cbn.
    destruct (jobHandle (this w)); cbn; destruct (pendingExecutions (this w)); reflexivity.
  - reflexivity.
  - destruct (timers w !! t); reflexivity.
  - destruct (tasks w !! k) as [[]|]; try reflexivity.
    + unfold Scheduler.start_resume, setIntervalWithDelay. destruct r as [job| |e]; cbn; try reflexivity.
      destruct (humanInterval (JobEntity.interval job)) as [[z|]|]; cbn; try reflexivity.
      destruct (z =? 0)%Z; reflexivity.
    + destruct r as [job| |e]; reflexivity.
    + destruct r as [job| |e]; cbn; try reflexivity.
      change (emit ?o (set_tasks ?f (with_count n w))) with (with_count n (emit o (set_tasks f w))).
      rewrite launch_with_count. reflexivity.
  - destruct (tasks w !! k) as [[]|]; try reflexivity;
      unfold all_settled; cbn; destruct (forallb _ _); reflexivity.
  - destruct (execs w !! p) as [[|k]|]; try reflexivity; destruct out; reflexivity.
Qed.

Lemma with_count_inv a b :
  with_count 0 a = with_count 0 b -> a = with_count (getUnexpectedErrorCount a) b.
Proof.
  destruct a as [[] ? ? ? ? ? ?], b as [[] ? ? ? ? ? ?]. unfold with_count. cbn.
  intros H. injection H as -> -> -> -> -> -> -> -> -> -> ->. reflexivity.
Qed.

Lemma run_with_count es n w :
  option_map (with_count 0) (run es (with_count n w))
  = option_map (with_count 0) (run es w).
Proof.
  revert n w. induction es as [|e es IH]; intros n w; cbn; [reflexivity|].
  pose proof (step_with_count e n w) as Hs.
  destruct (step e (with_count n w)) as [w1|], (step e w) as [w2|]; cbn [option_map] in Hs;
    try discriminate; [|reflexivity].
  assert (Hw : with_count 0 w1 = with_count 0 w2) by congruence.
  rewrite (with_count_inv _ _ Hw). apply IH.
Qed.

Lemma run_count es w w' :
  run es w = Some w' ->
  unexpected_errors (trace w') + getUnexpectedErrorCount w
  = unexpected_errors (trace w) + getUnexpectedErrorCount w'
  /\ unexpected_errors (trace w) <= unexpected_errors (trace w').
Proof.
  revert w. induction es as [|e es IH]; intros w; cbn.
  - intros [= <-]. lia.
  - destruct (step e w) as [w1|] eqn:Hs; [|discriminate]. intros Hr.
    destruct (step_count _ _ _ Hs), (IH _ Hr). lia.
Qed.

(** C6: across every operation of the scheduler [unexpectedErrorCount] never
    decreases; it grows by exactly one for each error that
    [handleUnexpectedError] reports; and it has no influence on scheduling:
    started from a world that differs only in the counter, the same events
    lead to the same world (timers, delays, launched executions, trace), the
    counter apart. *)
Theorem unexpectedErrorCount_monotone_and_inert es w w' :
  run es w = Some w' ->
  getUnexpectedErrorCount w <= getUnexpectedErrorCount w'
  /\ getUnexpectedErrorCount w'
     = getUnexpectedErrorCount w + (unexpected_errors (trace w') - unexpected_errors (trace w))
  /\ forall n, option_map (with_count 0) (run es (with_count n w)) = Some (with_count 0 w').
Proof.
  intros Hr. destruct (run_count _ _ _ Hr) as [Heq Hle].
  repeat split; try lia.
  intros n. rewrite run_with_count, Hr. reflexivity.
Qed.

(** ** A missing job definition *)

(** C5: when the job definition is absent at execution time,
    [executeConcurrently] logs the [jobNotFound] error, launches no executor
    invocation and returns normally; [executeOnce] logs and returns a
    [JobResult] with status [notFound] without invoking the executor. *)
Theorem missing_job_is_logged_and_skipped w k now :
  (tasks w !! k = Some TickAwaitFind ->
   exists w',
     step (FindOneSettles k Missing now) w = Some w'
     /\ trace w' =
          OReturn k MExecuteConcurrently (Fulfilled VUndefined)
          :: OLog (LError "job not found, skip execution" executeJob (jobName (this w)) jobNotFound)
          :: trace w
     /\ executor_invocations (trace w') = executor_invocations (trace w)
     /\ this w' = this w /\ execs w' = execs w /\ timers w' = timers w)
  /\ (tasks w !! k = Some OnceAwaitFind ->
      exists w',
        step (FindOneSettles k Missing now) w = Some w'
        /\ trace w' =
             OReturn k MExecuteOnce (Fulfilled (VResult {| status := notFound |}))
             :: OLog (LError "job not found, skip execution" executeJob (jobName (this w)) jobNotFound)
             :: trace w
        /\ executor_invocations (trace w') = executor_invocations (trace w)
        /\ this w' = this w /\ execs w' = execs w /\ timers w' = timers w).
Proof.
  split; intros Hk; cbn; rewrite Hk; eexists; (split; [reflexivity|]); cbn;
    rewrite !executor_invocations_cons; cbn; repeat split; reflexivity.
Qed.

(** ** [executeOnce] and errors *)

(** A failing lookup is caught by [executeOnce]: counted, reported as
    [failed]. *)
Lemma executeOnce_catches_lookup_failure w k e now :
  tasks w !! k = Some OnceAwaitFind ->
  exists w',
    step (FindOneSettles k (FindFails e) now) w = Some w'
    /\ hd_error (trace w') = Some (OReturn k MExecuteOnce (Fulfilled (VResult {| status := failed |})))
    /\ getUnexpectedErrorCount w' = S (getUnexpectedErrorCount w).
Proof.
  intros Hk. cbn. rewrite Hk. eexists. repeat split.
Qed.

(** A rejection of the executor's promise is not: [executeOnce] returns that
    promise without awaiting it, so its own promise rejects with the same
    error and [handleUnexpectedError] does not run. *)
Lemma executeOnce_passes_executor_rejection w k job e now :
  tasks w !! k = Some OnceAwaitFind ->
  exists w1 w2,
    step (FindOneSettles k (Found job) now) w = Some w1
    /\ step (ExecutorSettles (fresh w) (Rejects e)) w1 = Some w2
    /\ trace w2 =
         OReturn k MExecuteOnce (Rejected e)
         :: OSettled (fresh w) (Rejects e)
         :: OExecute (fresh w) (FromOnce k) job
         :: trace w
    /\ getUnexpectedErrorCount w2 = getUnexpectedErrorCount w.
Proof.
  intros Hk. cbn. rewrite Hk. do 2 eexists. split; [reflexivity|].
  cbn. rewrite lookup_insert_eq. repeat split.
Qed.

(** The sibling path: a tick's [.catch] handler does count the rejection. *)
Lemma tick_counts_executor_rejection w p e :
  execs w !! p = Some FromTick ->
  exists w',
    step (ExecutorSettles p (Rejects e)) w = Some w'
    /\ getUnexpectedErrorCount w' = S (getUnexpectedErrorCount w)
    /\ pendingExecutions (this w') = splice_first p (pendingExecutions (this w)).
Proof.
  intros Hp. cbn. rewrite Hp. eexists. repeat split.
Qed.

(** C10, at the failing input: the job is found and the executor's promise
    rejects; the promise of [executeOnce] rejects with the executor's error
    instead of fulfilling with status [failed], and the counter stays 0. *)
Lemma executeOnce_rejects_when_executor_rejects :
  exists w,
    Samples.run [CallExecuteOnce;
                 FindOneSettles 0 (Found Samples.job) 0;
                 ExecutorSettles 1 (Rejects (OtherError "store unavailable"))]
      Samples.scheduler = Some w
    /\ rev (trace w) =
         [OCall 0 MExecuteOnce; OFindOne 0; OExecute 1 (FromOnce 0) Samples.job;
          OSettled 1 (Rejects (OtherError "store unavailable"));
          OReturn 0 MExecuteOnce (Rejected (OtherError "store unavailable"))]
    /\ getUnexpectedErrorCount w = 0.
Proof. eexists. repeat split. Qed.

(** ** The outcomes of [start()] *)

(** C4, as the code has it: resumed with the result of the lookup,
    [start()] ends in one of four ways.  The job is absent: [jobNotFound] is
    logged, the call returns normally, nothing is armed.  The lookup failed:
    the call rejects with the store's error, nothing is armed.  The interval
    parses to [undefined], [NaN] or [0]: the call throws
    [nonParsableInterval], nothing is armed.  Otherwise one timer is armed
    with the parsed period and the call returns normally. *)
Theorem start_outcomes w k r now w' :
  tasks w !! k = Some StartAwaitFind ->
  step (FindOneSettles k r now) w = Some w' ->
  match r with
  | Missing =>
      trace w' =
        OReturn k MStart (Fulfilled VUndefined)
        :: OLog (LError "cannot schedule job" scheduleJob (jobName (this w)) jobNotFound)
        :: trace w
      /\ timers w' = timers w /\ this w' = this w
  | FindFails e =>
      trace w' = OReturn k MStart (Rejected e) :: trace w
      /\ timers w' = timers w /\ this w' = this w
  | Found job =>
      let parsed := humanInterval (JobEntity.interval job) in
      match parsed with
      | Some (Num i) =>
          if (i =? 0)%Z
          then trace w' = OReturn k MStart (Rejected nonParsableInterval) :: trace w
               /\ timers w' = timers w /\ this w' = this w
          else hd_error (trace w') = Some (OReturn k MStart (Fulfilled VUndefined))
               /\ timers w' =
                    <[fresh w := {| period := i;
                                    delay := calculateDelay now i (immediate (this w)) job |}]>
                      (timers w)
               /\ jobHandle (this w') = Some (fresh w)
               /\ interval (this w') = Some (JobEntity.interval job)
      | _ =>
          trace w' = OReturn k MStart (Rejected nonParsableInterval) :: trace w
          /\ timers w' = timers w /\ this w' = this w
      end
  end.
Proof.
  intros Hk Hs. cbn in Hs. rewrite Hk in Hs. injection Hs as <-.
  unfold Scheduler.start_resume, setIntervalWithDelay.
  destruct r as [job| |e]; cbn; [|repeat split..].
  destruct (humanInterval (JobEntity.interval job)) as [[i|]|]; cbn; [|repeat split..].
  destruct (i =? 0)%Z; cbn; repeat split.
Qed.

(** C4, the claim as stated fails: a lookup that fails makes [start()]
    reject with the store's error, a third way to fail besides the logged
    [jobNotFound] and the thrown [nonParsableInterval]. *)
Lemma start_rejects_with_store_error :
  exists w,
    Samples.run [CallStart; FindOneSettles 0 (FindFails (OtherError "store unavailable")) 0]
      Samples.scheduler = Some w
    /\ rev (trace w) =
         [OCall 0 MStart; OFindOne 0;
          OReturn 0 MStart (Rejected (OtherError "store unavailable"))]
    /\ OtherError "store unavailable" <> nonParsableInterval
    /\ timers w = ∅.
Proof. eexists. repeat split. discriminate. Qed.

(** ** Serialized runs hold one timer *)

Lemma idle_spec w :
  idle w = true <-> forall k t, tasks w !! k = Some t -> lifecycle t = false.
Proof.
  unfold idle. rewrite forallb_forall. split.
  - intros H k t Hk. apply elem_of_map_to_list, list_elem_of_In in Hk.
    apply H in Hk. cbn in Hk. destruct (lifecycle t); [discriminate|reflexivity].
  - intros H [k t] Hin. apply list_elem_of_In, elem_of_map_to_list in Hin.
    cbn. rewrite (H _ _ Hin). reflexivity.
Qed.

Lemma no_tick_loading_spec w :
  no_tick_loading w = true <-> forall k t, tasks w !! k = Some t -> loading_tick t = false.
Proof.
  unfold no_tick_loading. rewrite forallb_forall. split.
  - intros H k t Hk. apply elem_of_map_to_list, list_elem_of_In in Hk.
    apply H in Hk. cbn in Hk. destruct (loading_tick t); [discriminate|reflexivity].
  - intros H [k t] Hin. apply list_elem_of_In, elem_of_map_to_list in Hin.
    cbn. rewrite (H _ _ Hin). reflexivity.
Qed.

(** What the synchronous part of [stop()] leaves behind. *)
Lemma stop_sync_spec w :
  timers_held w ->
  let w1 := fst (stop_sync w) in
  timers w1 = ∅ /\ jobHandle (this w1) = None
  /\ tasks w1 = tasks w /\ execs w1 = execs w /\ settled w1 = settled w
  /\ fresh w1 = fresh w
  /\ pendingExecutions (this w1) = pendingExecutions (this w)
  /\ snd (stop_sync w)
     = match pendingExecutions (this w) with [] => None | l => Some l end.
Proof.
  unfold timers_held, stop_sync, clearInterval. destruct (jobHandle (this w)) as [t|] eqn:Hh.
  - intros [tm Htm]. cbn. destruct (pendingExecutions (this w)) eqn:Hp; cbn;
      rewrite ?Hp, Htm, delete_singleton_eq; repeat split.
  - intros Htm. destruct (pendingExecutions (this w)) eqn:Hp; cbn; rewrite ?Hp; repeat split; assumption.
Qed.

Lemma launch_frame n job w :
  timers (launch n job w) = timers w
  /\ tasks (launch n job w) = tasks w
  /\ settled (launch n job w) = settled w
  /\ jobHandle (this (launch n job w)) = jobHandle (this w)
  /\ fresh w <= fresh (launch n job w).
Proof.
  revert w. induction n as [|n IH]; intros w; cbn [launch]; [repeat split; lia|].
  destruct (IH (launch_one job w)) as (-> & -> & -> & -> & Hf).
  assert (Hl : fresh (launch_one job w) = S (fresh w)) by reflexivity.
  rewrite Hl in Hf. repeat split. lia.
Qed.

Ltac map_cases :=
  repeat match goal with
    | H : <[_:=_]> _ !! _ = Some _ |- _ =>
        apply lookup_insert_Some in H as [[<- <-]|[? H]]
    | H : delete _ _ !! _ = Some _ |- _ =>
        apply lookup_delete_Some in H as [? H]
    end.

Lemma step_lifecycle_inv e w w' :
  lifecycle_inv w ->
  (lifecycle_call e = true -> idle w = true) ->
  step e w = Some w' ->
  lifecycle_inv w'.
Proof.
  intros (Hheld & Huniq & Hnone) Hidle Hs.
  destruct e as [| | |t|k r now|k|p out]; cbn in Hs.
  - injection Hs as <-. specialize (Hidle eq_refl). rewrite idle_spec in Hidle.
    unfold call_start.
    assert (Hheld' : timers_held (emit (OCall (fresh w) MStart) (bump w))) by exact Hheld.
    pose proof (stop_sync_spec _ Hheld') as Hspec. cbn zeta in Hspec.
    destruct (stop_sync (emit (OCall (fresh w) MStart) (bump w))) as [w1 [snap|]];
      cbn [fst snd] in Hspec; destruct Hspec as (Ht & Hj & Htk & _);
      cbn in Htk; unfold lifecycle_inv, timers_held; cbn; rewrite Hj, Ht, Htk.
    all: split; [reflexivity|]; split.
    all: try (intros ? ? ? ? H1 H2 L1 L2; map_cases; try reflexivity;
              try (apply Hidle in H1; congruence); try (apply Hidle in H2; congruence)).
    all: intros; reflexivity.
  - injection Hs as <-. specialize (Hidle eq_refl). rewrite idle_spec in Hidle.
    unfold call_stop.
    assert (Hheld' : timers_held (emit (OCall (fresh w) MStop) (bump w))) by exact Hheld.
    pose proof (stop_sync_spec _ Hheld') as Hspec. cbn zeta in Hspec.
    destruct (stop_sync (emit (OCall (fresh w) MStop) (bump w))) as [w1 [snap|]];
      cbn [fst snd] in Hspec; destruct Hspec as (Ht & Hj & Htk & _);
      cbn in Htk; unfold lifecycle_inv, timers_held; cbn; rewrite Hj, Ht, Htk.
    all: split; [reflexivity|]; split.
    all: try (intros ? ? ? ? H1 H2 L1 L2; map_cases; try reflexivity;
              try (apply Hidle in H1; congruence); try (apply Hidle in H2; congruence)).
    all: intros; reflexivity.
  - injection Hs as <-. unfold lifecycle_inv, timers_held. cbn.
    split; [exact Hheld|]. split.
    + intros ? ? ? ? H1 H2 L1 L2; map_cases; try discriminate. eauto.
    + intros ? ? H1 L1; map_cases; try discriminate. eauto.
  - destruct (timers w !! t); [|discriminate]. injection Hs as <-.
    unfold lifecycle_inv, timers_held. cbn.
    split; [exact Hheld|]. split.
    + intros ? ? ? ? H1 H2 L1 L2; map_cases; try discriminate. eauto.
    + intros ? ? H1 L1; map_cases; try discriminate. eauto.
  - destruct (tasks w !! k) as [[]|] eqn:Hk; try discriminate; injection Hs as <-.
    + assert (Hj : jobHandle (this w) = None) by (eapply Hnone; eauto).
      unfold timers_held in Hheld. rewrite Hj in Hheld.
      assert (Hno : forall k' t', delete k (tasks w) !! k' = Some t' -> lifecycle t' = true -> False).
      { intros k' t' H1 L1. map_cases. apply H. symmetry. eapply Huniq; eauto. }
      unfold Scheduler.start_resume, setIntervalWithDelay.
      destruct r as [job| |e]; cbn.
      2,3: unfold lifecycle_inv, timers_held; cbn; rewrite Hj; split; [exact Hheld|];
           split; [intros; exfalso; eauto|intros; reflexivity].
      destruct (humanInterval (JobEntity.interval job)) as [[i|]|]; cbn.
      2,3: unfold lifecycle_inv, timers_held; cbn; rewrite Hj; split; [exact Hheld|];
           split; [intros; exfalso; eauto|intros; reflexivity].
      destruct (i =? 0)%Z; cbn.
      1: unfold lifecycle_inv, timers_held; cbn; rewrite Hj; split; [exact Hheld|];
           split; [intros; exfalso; eauto|intros; reflexivity].
      unfold lifecycle_inv, timers_held; cbn. rewrite Hheld. split.
      { eexists. apply insert_empty. }
      split; intros; exfalso; eauto.
    + unfold lifecycle_inv, timers_held.
      destruct r as [job| |e]; cbn; (split; [exact Hheld|]); split.
      all: try (intros ? ? ? ? H1 H2 L1 L2; map_cases; eauto).
      all: intros ? ? H1 L1; map_cases; eauto.
    + unfold lifecycle_inv, timers_held.
      destruct r as [job| |e]; cbn.
      2,3: (split; [exact Hheld|]); split;
        [intros ? ? ? ? H1 H2 L1 L2; map_cases; eauto
        |intros ? ? H1 L1; map_cases; eauto].
      destruct (launch_frame (Z.to_nat (numToExecute job)) job
        (emit (OLog (LDebug "execute job" (jobName (this w)) [numToExecute job]))
           (set_tasks (delete k) w))) as (-> & -> & _ & -> & _). cbn.
      (split; [exact Hheld|]); split;
        [intros ? ? ? ? H1 H2 L1 L2; map_cases; eauto
        |intros ? ? H1 L1; map_cases; eauto].
  - destruct (tasks w !! k) as [[]|] eqn:Hk; try discriminate;
      destruct (all_settled _ w); try discriminate; injection Hs as <-.
    + unfold lifecycle_inv, timers_held. cbn. (split; [exact Hheld|]); split;
        [intros ? ? ? ? H1 H2 L1 L2; map_cases; eauto
        |intros ? ? H1 L1; map_cases; eauto].
    + unfold lifecycle_inv, timers_held. cbn. (split; [exact Hheld|]); split.
      * intros ? ? ? ? H1 H2 L1 L2; map_cases; try reflexivity.
        -- symmetry. eapply Huniq; eauto.
        -- eapply Huniq; eauto.
        -- eauto.
      * intros ? ? H1 L1. eapply Hnone; eauto.
  - destruct (execs w !! p) as [[|k]|]; try discriminate; injection Hs as <-;
      destruct out; unfold lifecycle_inv, timers_held; cbn; auto.
Qed.

Lemma forJob_lifecycle_inv name imm : lifecycle_inv (forJob name imm).
Proof.
  unfold lifecycle_inv, timers_held. cbn. repeat split; intros *; rewrite lookup_empty; discriminate.
Qed.

Lemma run_serial_lifecycle_inv es w w' :
  lifecycle_inv w -> run_serial es w = Some w' -> lifecycle_inv w'.
Proof.
  revert w. induction es as [|e es IH]; intros w Hinv; cbn.
  - intros [= <-]. exact Hinv.
  - destruct (lifecycle_call e && negb (idle w)) eqn:Hg; [discriminate|].
    destruct (step e w) as [w1|] eqn:Hs; [|discriminate].
    apply IH. eapply step_lifecycle_inv; eauto.
    intros Hl. rewrite Hl in Hg. destruct (idle w); [reflexivity|discriminate].
Qed.

Lemma run_serial_run es w w' : run_serial es w = Some w' -> run es w = Some w'.
Proof.
  revert w. induction es as [|e es IH]; intros w; cbn; [trivial|].
  destruct (lifecycle_call e && negb (idle w)); [discriminate|].
  destruct (step e w); [apply IH|discriminate].
Qed.


(** Calling [start()] twice in a row, the second call once the first has
    resolved: the first timer is cleared, one timer is armed. *)
Example start_twice_leaves_one_timer :
  exists w,
    Samples.run_serial [CallStart; FindOneSettles 0 (Found Samples.job) 0;
                        CallStart; FindOneSettles 2 (Found Samples.job) 10]
      Samples.scheduler = Some w
    /\ jobHandle (this w) = Some 3
    /\ timers w = {[ 3 := {| period := 60000; delay := 60000 |} ]}
    /\ rev (trace w) =
         [OCall 0 MStart; OFindOne 0; OSetInterval 1 60000 60000;
          OLog (LDebug "scheduled job to run at" "j" [60000; 60000; 60000]%Z);
          OReturn 0 MStart (Fulfilled VUndefined);
          OCall 2 MStart; OClearInterval 1; OFindOne 2; OSetInterval 3 60000 60000;
          OLog (LDebug "scheduled job to run at" "j" [60010; 60000; 60000]%Z);
          OReturn 2 MStart (Fulfilled VUndefined)].
Proof. eexists. split; [vm_compute; reflexivity|]. vm_compute. repeat split. Qed.


(** ** Promises and identifiers *)

Lemma elem_of_splice_first p q l :
  NoDup l -> q ∈ splice_first p l <-> q ∈ l /\ q <> p.
Proof.
  induction l as [|y l IH]; cbn; intros Hnd.
  - set_solver.
  - apply NoDup_cons in Hnd as [Hy Hnd]. destruct (decide (y = p)) as [->|Hne].
    + split; [intros Hq; split; [set_solver|intros ->; contradiction]|set_solver].
    + rewrite elem_of_cons, IH by assumption. set_solver.
Qed.

Lemma NoDup_splice_first p l : NoDup l -> NoDup (splice_first p l).
Proof.
  induction l as [|y l IH]; cbn; intros Hnd; [constructor|].
  apply NoDup_cons in Hnd as [Hy Hnd]. destruct (decide (y = p)); [assumption|].
  apply NoDup_cons. split; [|auto].
  rewrite elem_of_splice_first by assumption. tauto.
Qed.

Lemma launch_one_promise_inv job w : promise_inv w -> promise_inv (launch_one job w).
Proof.
  intros (Hnd & Hpe & Hse & Hef & Hsf & Htf & Hrf & Hex & Hst).
  assert (Hfresh : fresh w ∉ pendingExecutions (this w)).
  { intros Hin. apply Hpe, Hef in Hin. lia. }
  unfold promise_inv, launch_one, execute. cbn. repeat split.
  - apply NoDup_app. repeat split; [assumption|set_solver|apply NoDup_singleton].
  - intros p Hp. apply elem_of_app in Hp as [Hp|Hp].
    + rewrite lookup_insert_ne; [auto|]. intros <-. contradiction.
    + apply list_elem_of_singleton in Hp as ->. apply lookup_insert_eq.
  - intros p Hp. rewrite lookup_insert_ne; [auto|]. intros <-. apply Hsf in Hp. lia.
  - intros p o Hp. apply lookup_insert_Some in Hp as [[<- _]|[_ Hp]]; [lia|].
    apply Hef in Hp. lia.
  - intros p Hp. apply Hsf in Hp. lia.
  - intros k t Hk. apply Htf in Hk. lia.
  - intros k c Hin. apply elem_of_cons in Hin as [Hin|Hin]; [discriminate|].
    apply Hrf in Hin. lia.
  - intros p j Hin. apply elem_of_cons in Hin as [Hin|Hin].
    + injection Hin as -> _. right. set_solver.
    + destruct (Hex _ _ Hin); [left; assumption|right; set_solver].
  - intros p Hp. destruct (Hst _ Hp) as [out Ho]. exists out. set_solver.
Qed.

Lemma launch_promise_inv n job w : promise_inv w -> promise_inv (launch n job w).
Proof.
  revert w. induction n as [|n IH]; intros w Hw; cbn; [assumption|].
  apply IH, launch_one_promise_inv, Hw.
Qed.

(** Observations and state that do not matter to the invariant. *)
Lemma promise_inv_emit o w :
  (forall k c, o <> OReturn k MStop c) ->
  (forall p job, o <> OExecute p FromTick job) ->
  promise_inv w -> promise_inv (emit o w).
Proof.
  intros Hr He (Hnd & Hpe & Hse & Hef & Hsf & Htf & Hrf & Hex & Hst).
  unfold promise_inv. cbn. repeat split; auto.
  - intros k c Hin. apply elem_of_cons in Hin as [Hin|Hin]; [symmetry in Hin; apply Hr in Hin; contradiction|eauto].
  - intros p j Hin. apply elem_of_cons in Hin as [Hin|Hin]; [symmetry in Hin; apply He in Hin; contradiction|eauto].
  - intros p Hp. destruct (Hst _ Hp) as [out Ho]. exists out. set_solver.
Qed.

Lemma promise_inv_emit_return k m c w :
  k < fresh w -> promise_inv w -> promise_inv (emit (OReturn k m c) w).
Proof.
  intros Hk (Hnd & Hpe & Hse & Hef & Hsf & Htf & Hrf & Hex & Hst).
  unfold promise_inv. cbn. repeat split; auto.
  - intros k' c' Hin. apply elem_of_cons in Hin as [Hin|Hin]; [injection Hin as -> _ _; assumption|eauto].
  - intros p j Hin. apply elem_of_cons in Hin as [Hin|Hin]; [discriminate|eauto].
  - intros p Hp. destruct (Hst _ Hp) as [out Ho]. exists out. set_solver.
Qed.

Lemma promise_inv_bump w : promise_inv w -> promise_inv (bump w).
Proof.
  intros (Hnd & Hpe & Hse & Hef & Hsf & Htf & Hrf & Hex & Hst).
  unfold promise_inv. cbn. repeat split; auto.
  - intros p o Hp. apply Hef in Hp. lia.
  - intros p Hp. apply Hsf in Hp. lia.
  - intros k t Hk. apply Htf in Hk. lia.
  - intros k c Hin. apply Hrf in Hin. lia.
Qed.

Lemma promise_inv_insert_task k t w :
  k < fresh w -> promise_inv w -> promise_inv (set_tasks (insert k t) w).
Proof.
  intros Hk (Hnd & Hpe & Hse & Hef & Hsf & Htf & Hrf & Hex & Hst).
  unfold promise_inv. cbn. repeat split; auto.
  intros k' t' Hin. apply lookup_insert_Some in Hin as [[<- _]|[_ Hin]]; eauto.
Qed.

Lemma promise_inv_delete_task k w :
  promise_inv w -> promise_inv (set_tasks (delete k) w).
Proof.
  intros (Hnd & Hpe & Hse & Hef & Hsf & Htf & Hrf & Hex & Hst).
  unfold promise_inv. cbn. repeat split; auto.
  intros k' t' Hin. apply lookup_delete_Some in Hin as [_ Hin]. eauto.
Qed.

(** Changes of the scheduler's fields other than [pendingExecutions], and
    of the timers. *)
Lemma promise_inv_frame w w' :
  pendingExecutions (this w') = pendingExecutions (this w) ->
  execs w' = execs w -> settled w' = settled w -> tasks w' = tasks w ->
  fresh w' = fresh w -> trace w' = trace w ->
  promise_inv w -> promise_inv w'.
Proof.
  unfold promise_inv. intros -> -> -> -> -> ->. trivial.
Qed.

Lemma stop_sync_fresh w : fresh (fst (stop_sync w)) = fresh w.
Proof.
  unfold stop_sync, clearInterval. destruct (jobHandle (this w)); cbn;
    destruct (pendingExecutions (this w)); reflexivity.
Qed.

Lemma stop_sync_promise_inv w : promise_inv w -> promise_inv (fst (stop_sync w)).
Proof.
  intros Hw. unfold stop_sync, clearInterval.
  destruct (jobHandle (this w)) as [t|]; cbn [this set_this set_interval set_jobHandle pendingExecutions emit set_timers];
    destruct (pendingExecutions (this w)) eqn:Hp; cbn [length Nat.ltb Nat.leb fst].
  - eapply promise_inv_frame with (w := emit (OClearInterval t) w); try reflexivity.
    apply promise_inv_emit; [discriminate..|assumption].
  - apply promise_inv_emit; [discriminate..|].
    eapply promise_inv_frame with (w := emit (OClearInterval t) w); try reflexivity.
    apply promise_inv_emit; [discriminate..|assumption].
  - assumption.
  - apply promise_inv_emit; [discriminate..|assumption].
Qed.

Lemma handleUnexpectedError_promise_inv e w :
  promise_inv w -> promise_inv (handleUnexpectedError e w).
Proof.
  intros Hw. unfold handleUnexpectedError. apply promise_inv_emit; [discriminate..|].
  eapply promise_inv_frame with (w := w); try reflexivity. assumption.
Qed.

Lemma executor_settles_promise_inv p o out w :
  execs w !! p = Some o -> promise_inv w -> promise_inv (executor_settles p o out w).
Proof.
  intros Hp (Hnd & Hpe & Hse & Hef & Hsf & Htf & Hrf & Hex & Hst).
  assert (Hbase : promise_inv (emit (OSettled p out) (set_settled (union {[p]}) (set_execs (delete p) w)))
                  \/ o = FromTick).
  { destruct o as [|k]; [right; reflexivity|left].
    unfold promise_inv. cbn. repeat split; auto.
    - intros q Hq. rewrite lookup_delete_ne; [auto|]. intros <-. apply Hpe in Hq. congruence.
    - intros q Hq. apply elem_of_union in Hq as [Hq|Hq].
      + apply elem_of_singleton in Hq as ->. apply lookup_delete_eq.
      + apply lookup_delete_None. right. auto.
    - intros q o' Hq. apply lookup_delete_Some in Hq as [_ Hq]. eauto.
    - intros q Hq. apply elem_of_union in Hq as [Hq|Hq]; [|auto].
      apply elem_of_singleton in Hq as ->. eauto.
    - intros k' c Hin. apply elem_of_cons in Hin as [Hin|Hin]; [discriminate|eauto].
    - intros q j Hin. apply elem_of_cons in Hin as [Hin|Hin]; [discriminate|].
      destruct (Hex _ _ Hin); [left; set_solver|right; assumption].
    - intros q Hq. apply elem_of_union in Hq as [Hq|Hq].
      + apply elem_of_singleton in Hq as ->. exists out. set_solver.
      + destruct (Hst _ Hq) as [out' Ho]. exists out'. set_solver. }
  destruct o as [|k]; unfold executor_settles.
  - clear Hbase.
    assert (Hgoal : forall w2,
      pendingExecutions (this w2) = pendingExecutions (this w) ->
      execs w2 = delete p (execs w) -> settled w2 = {[p]} ∪ settled w ->
      tasks w2 = tasks w -> fresh w2 = fresh w ->
      (forall o', o' ∈ trace w2 <-> o' = OSettled p out \/ (exists l, o' = OLog l) /\ o' ∈ trace w2 \/ o' ∈ trace w) ->
      promise_inv (set_this (fun s => set_pendingExecutions (splice_first p (pendingExecutions s)) s) w2)).
    { intros w2 E1 E2 E3 E4 E5 E6. unfold promise_inv. cbn. rewrite E1, E2, E3, E4, E5.
      repeat split; auto.
      - apply NoDup_splice_first, Hnd.
      - intros q Hq. apply elem_of_splice_first in Hq as [Hq Hne]; [|assumption].
        rewrite lookup_delete_ne; auto.
      - intros q Hq. apply elem_of_union in Hq as [Hq|Hq].
        + apply elem_of_singleton in Hq as ->. apply lookup_delete_eq.
        + apply lookup_delete_None. right. auto.
      - intros q o' Hq. apply lookup_delete_Some in Hq as [_ Hq]. eauto.
      - intros q Hq. apply elem_of_union in Hq as [Hq|Hq]; [|auto].
        apply elem_of_singleton in Hq as ->. eauto.
      - intros k' c Hin. apply E6 in Hin as [Hin|[[[l Hl] _]|Hin]]; [discriminate|discriminate|eauto].
      - intros q j Hin. apply E6 in Hin as [Hin|[[[l Hl] _]|Hin]]; [discriminate|discriminate|].
        destruct (decide (q = p)) as [->|Hne]; [left; set_solver|].
        destruct (Hex _ _ Hin); [left; set_solver|right].
        apply elem_of_splice_first; auto.
      - intros q Hq. apply elem_of_union in Hq as [Hq|Hq].
        + apply elem_of_singleton in Hq as ->. exists out. apply E6. left. reflexivity.
        + destruct (Hst _ Hq) as [out' Ho]. exists out'. apply E6. right. right. assumption. }
    destruct out as [r|e]; apply Hgoal; try reflexivity; cbn; intros o'.
    + rewrite elem_of_cons. tauto.
    + rewrite !elem_of_cons. naive_solver.
  - destruct Hbase as [Hbase|?]; [|discriminate].
    apply promise_inv_emit; [discriminate..|assumption].
Qed.

Lemma step_promise_inv e w w' :
  promise_inv w -> step e w = Some w' -> promise_inv w'.
Proof.
  intros Hw Hs.
  destruct e as [| | |t|k r now|k|p out]; cbn in Hs.
  - injection Hs as <-. unfold call_start.
    pose proof (stop_sync_fresh (emit (OCall (fresh w) MStart) (bump w))) as Hf.
    assert (Hw1 : promise_inv (fst (stop_sync (emit (OCall (fresh w) MStart) (bump w))))).
    { apply stop_sync_promise_inv, promise_inv_emit; [discriminate..|]. apply promise_inv_bump, Hw. }
    destruct (stop_sync (emit (OCall (fresh w) MStart) (bump w))) as [w1 [snap|]];
      cbn [fst] in *; cbn in Hf.
    + apply promise_inv_insert_task; [lia|assumption].
    + unfold start_find. apply promise_inv_insert_task; [cbn; lia|].
      apply promise_inv_emit; [discriminate..|assumption].
  - injection Hs as <-. unfold call_stop.
    pose proof (stop_sync_fresh (emit (OCall (fresh w) MStop) (bump w))) as Hf.
    assert (Hw1 : promise_inv (fst (stop_sync (emit (OCall (fresh w) MStop) (bump w))))).
    { apply stop_sync_promise_inv, promise_inv_emit; [discriminate..|]. apply promise_inv_bump, Hw. }
    destruct (stop_sync (emit (OCall (fresh w) MStop) (bump w))) as [w1 [snap|]];
      cbn [fst] in *; cbn in Hf.
    + apply promise_inv_insert_task; [lia|assumption].
    + apply promise_inv_emit_return; [lia|assumption].
  - injection Hs as <-. unfold call_executeOnce.
    apply promise_inv_insert_task; [cbn; lia|].
    do 2 (apply promise_inv_emit; [discriminate..|]). apply promise_inv_bump, Hw.
  - destruct (timers w !! t); [|discriminate]. injection Hs as <-. unfold tick.
    apply promise_inv_insert_task; [cbn; lia|].
    do 2 (apply promise_inv_emit; [discriminate..|]). apply promise_inv_bump, Hw.
  - assert (Hk : forall t, tasks w !! k = Some t -> k < fresh w).
    { destruct Hw as (_ & _ & _ & _ & _ & Htf & _). eauto. }
    pose proof (promise_inv_delete_task k w Hw) as Hd.
    destruct (tasks w !! k) as [[]|] eqn:Ek; try discriminate; injection Hs as <-;
      specialize (Hk _ eq_refl).
    + unfold Scheduler.start_resume, setIntervalWithDelay. destruct r as [job| |e].
      * destruct (falsy _ || isNaN _); [apply promise_inv_emit_return; assumption|].
        destruct (humanInterval (JobEntity.interval job)) as [[i|]|];
          try (apply promise_inv_emit_return; assumption).
        apply promise_inv_emit_return; [cbn; lia|].
        apply promise_inv_emit; [discriminate..|].
        eapply promise_inv_frame with
          (w := emit (OSetInterval (fresh w) i
                   (calculateDelay now i (immediate (this w)) job)) (bump (set_tasks (delete k) w)));
          try reflexivity.
        apply promise_inv_emit; [discriminate..|]. apply promise_inv_bump, Hd.
      * apply promise_inv_emit_return; [assumption|].
        apply promise_inv_emit; [discriminate..|assumption].
      * apply promise_inv_emit_return; assumption.
    + unfold executeOnce_resume, execute. destruct r as [job| |e].
      * destruct Hd as (Hnd & Hpe & Hse & Hef & Hsf & Htf & Hrf & Hex & Hst). cbn in *.
        unfold promise_inv. cbn. repeat split; auto.
        -- intros q Hq. rewrite lookup_insert_ne; [auto|]. intros <-.
           apply Hpe, Hef in Hq. lia.
        -- intros q Hq. rewrite lookup_insert_ne; [auto|]. intros <-. apply Hsf in Hq. lia.
        -- intros q o Hq. apply lookup_insert_Some in Hq as [[<- _]|[_ Hq]]; [lia|].
           apply Hef in Hq. lia.
        -- intros q Hq. apply Hsf in Hq. lia.
        -- intros k' t Hk'. apply Htf in Hk'. lia.
        -- intros k' c Hin. apply elem_of_cons in Hin as [Hin|Hin]; [discriminate|].
           apply Hrf in Hin. lia.
        -- intros q j Hin. apply elem_of_cons in Hin as [Hin|Hin]; [discriminate|eauto].
        -- intros q Hq. destruct (Hst _ Hq) as [out Ho]. exists out. set_solver.
      * apply promise_inv_emit_return; [assumption|].
        apply promise_inv_emit; [discriminate..|assumption].
      * apply promise_inv_emit_return; [assumption|].
        apply handleUnexpectedError_promise_inv, Hd.
    + unfold executeConcurrently_resume. destruct r as [job| |e].
      * apply promise_inv_emit_return.
        -- pose proof (launch_frame (Z.to_nat (numToExecute job)) job
             (emit (OLog (LDebug "execute job" (jobName (this (set_tasks (delete k) w)))
                            [numToExecute job])) (set_tasks (delete k) w))) as (_ & _ & _ & _ & Hf).
           exact (Nat.lt_le_trans _ _ _ Hk Hf).
        -- apply launch_promise_inv, promise_inv_emit; [discriminate..|assumption].
      * apply promise_inv_emit_return; [assumption|].
        apply promise_inv_emit; [discriminate..|assumption].
      * apply promise_inv_emit_return; [assumption|].
        apply handleUnexpectedError_promise_inv, Hd.
  - assert (Hk : forall t, tasks w !! k = Some t -> k < fresh w).
    { destruct Hw as (_ & _ & _ & _ & _ & Htf & _). eauto. }
    pose proof (promise_inv_delete_task k w Hw) as Hd.
    destruct (tasks w !! k) as [[]|] eqn:Ek; try discriminate;
      destruct (all_settled _ w); try discriminate; injection Hs as <-;
      specialize (Hk _ eq_refl).
    + apply promise_inv_emit_return; assumption.
    + unfold start_find. apply promise_inv_insert_task; [assumption|].
      apply promise_inv_emit; [discriminate..|assumption].
  - destruct (execs w !! p) as [o|] eqn:Ep; [|discriminate]. injection Hs as <-.
    apply executor_settles_promise_inv; assumption.
Qed.

Lemma forJob_promise_inv name imm : promise_inv (forJob name imm).
Proof.
  unfold promise_inv. cbn. repeat split; try (intros *; rewrite ?lookup_empty; set_solver).
  constructor.
Qed.

Lemma run_promise_inv es w w' : promise_inv w -> run es w = Some w' -> promise_inv w'.
Proof.
  revert w. induction es as [|e es IH]; intros w Hw; cbn.
  - intros [= <-]. exact Hw.
  - destruct (step e w) as [w1|] eqn:Hs; [|discriminate].
    apply IH. eapply step_promise_inv; eauto.
Qed.

(** ** After [stop()] *)

Lemma splice_first_subseteq p q l : q ∈ splice_first p l -> q ∈ l.
Proof.
  induction l as [|y l IH]; cbn; [trivial|].
  destruct (decide (y = p)); set_solver.
Qed.

Lemma stopped_extend k tr w w' new :
  stopped k tr w ->
  trace w' = new ++ trace w ->
  (forall o, o ∈ new ->
     (forall p job, o <> OExecute p FromTick job) /\ (forall c, o <> OReturn k MStop c)) ->
  timers w' = ∅ -> jobHandle (this w') = None ->
  (forall k' t, tasks w' !! k' = Some t ->
     t = OnceAwaitFind \/ exists snapshot, t = StopAwaitAll snapshot) ->
  fresh w <= fresh w' ->
  tasks w' !! k = tasks w !! k ->
  (forall p, p ∈ pendingExecutions (this w') -> p ∈ pendingExecutions (this w)) ->
  stopped k tr w'.
Proof.
  intros (S1 & S2 & S3 & S4 & [old S5] & S6 & S7) Htr Hnew Ht Hj Htk Hf Hk Hp.
  unfold stopped. rewrite Ht, Hj, Hk, Htr.
  split; [reflexivity|]. split; [reflexivity|]. split; [exact Htk|]. split; [lia|].
  split; [exists (new ++ old); rewrite S5, app_assoc; reflexivity|].
  split.
  { intros p job Hin. apply elem_of_app in Hin as [Hin|Hin]; [|auto].
    apply Hnew in Hin as [Hin _]. exfalso. eapply Hin. reflexivity. }
  destruct (tasks w !! k) as [[snap| | | |]|]; try contradiction.
  - destruct S7 as [Hsub Hno]. split; [auto|].
    intros c Hin. apply elem_of_app in Hin as [Hin|Hin]; [|eapply Hno; eauto].
    apply Hnew in Hin as [_ Hin]. eapply Hin. reflexivity.
  - destruct S7 as (Hnil & later & earlier & Hl & Hall). split.
    + destruct (pendingExecutions (this w')) as [|q l]; [reflexivity|].
      specialize (Hp q). rewrite Hnil in Hp. set_solver.
    + exists (new ++ later), earlier. rewrite Hl, app_assoc. split; [reflexivity|assumption].
Qed.

Lemma stop_sync_trace w :
  exists new,
    trace (fst (stop_sync w)) = new ++ trace w
    /\ forall o, o ∈ new -> (exists t, o = OClearInterval t) \/ (exists l, o = OLog l).
Proof.
  unfold stop_sync, clearInterval. destruct (jobHandle (this w)) as [t|]; cbn;
    destruct (pendingExecutions (this w)); cbn.
  - exists [OClearInterval t]. split; [reflexivity|]. intros o Ho.
    apply list_elem_of_singleton in Ho as ->. eauto.
  - eexists [_; OClearInterval t]. split; [reflexivity|]. intros o Ho.
    apply elem_of_cons in Ho as [->|Ho]; [eauto|].
    apply list_elem_of_singleton in Ho as ->. eauto.
  - exists []. split; [reflexivity|]. intros o Ho. set_solver.
  - eexists [_]. split; [reflexivity|]. intros o Ho.
    apply list_elem_of_singleton in Ho as ->. eauto.
Qed.

Lemma stop_sync_stopped w :
  jobHandle (this w) = None ->
  stop_sync w =
    match pendingExecutions (this w) with
    | [] => (w, None)
    | l => (emit (OLog (LDebug "wait for pending executions to finish" (jobName (this w))
                          [Z.of_nat (length l)])) w, Some l)
    end.
Proof.
  intros Hj. unfold stop_sync. rewrite Hj. destruct (pendingExecutions (this w)); reflexivity.
Qed.

Ltac obs_new :=
  let o := fresh "o" in
  let Ho := fresh "Ho" in
  intros o Ho;
  repeat (apply elem_of_cons in Ho as [->|Ho]);
  try (apply elem_of_nil in Ho; contradiction);
  split; intros; try discriminate;
  let Heq := fresh "Heq" in
  intros [= Heq]; first [lia | congruence].

Ltac extend_goals tasks_tac lookup_tac pend_tac :=
  [> eassumption | reflexivity | obs_new | cbn; assumption | cbn; assumption
  | cbn; tasks_tac | cbn; lia | cbn; lookup_tac | cbn; pend_tac ].

Ltac extend1 tasks_tac lookup_tac pend_tac :=
  eapply stopped_extend with (new := [_]); extend_goals tasks_tac lookup_tac pend_tac.

Ltac extend2 tasks_tac lookup_tac pend_tac :=
  eapply stopped_extend with (new := [_; _]); extend_goals tasks_tac lookup_tac pend_tac.

Ltac tasks_insert S3 :=
  let k2 := fresh "k2" in
  let t2 := fresh "t2" in
  let Hk2 := fresh "Hk2" in
  intros k2 t2 Hk2; apply lookup_insert_Some in Hk2 as [[_ <-]|[_ Hk2]]; eauto.

Ltac tasks_delete S3 :=
  let k2 := fresh "k2" in
  let t2 := fresh "t2" in
  let Hk2 := fresh "Hk2" in
  intros k2 t2 Hk2; apply lookup_delete_Some in Hk2 as [_ Hk2]; eauto.

Lemma step_stopped k tr e w w' :
  promise_inv w -> stopped k tr w ->
  is_start_call e = false ->
  step e w = Some w' ->
  stopped k tr w'.
Proof.
  intros Hpi Hst He Hs.
  pose proof Hst as (S1 & S2 & S3 & S4 & S5 & S6 & S7).
  destruct e as [| | |t|k' r now|k'|p out]; cbn in Hs; try discriminate.
  - (* stop() is called again *)
    injection Hs as <-. unfold call_stop. rewrite stop_sync_stopped by exact S2.
    cbn [this emit bump]. destruct (pendingExecutions (this w)) as [|q l] eqn:Hp.
    + extend2 ltac:(exact S3) ltac:(reflexivity) ltac:(rewrite Hp; trivial).
    + extend2 ltac:(tasks_insert S3) ltac:(apply lookup_insert_ne; lia) ltac:(trivial).
  - injection Hs as <-. unfold call_executeOnce.
    extend2 ltac:(tasks_insert S3) ltac:(apply lookup_insert_ne; lia) ltac:(trivial).
  - rewrite S1, lookup_empty in Hs. discriminate.
  - destruct (tasks w !! k') as [tk|] eqn:Hk'; [|discriminate].
    destruct (S3 _ _ Hk') as [->|[snap ->]]; [|discriminate].
    injection Hs as <-.
    assert (Hne : k' <> k).
    { intros ->. rewrite Hk' in S7. contradiction. }
    unfold executeOnce_resume, execute. destruct r as [job| |e].
    + extend1 ltac:(tasks_delete S3) ltac:(apply lookup_delete_ne; assumption) ltac:(trivial).
    + extend2 ltac:(tasks_delete S3) ltac:(apply lookup_delete_ne; assumption) ltac:(trivial).
    + extend2 ltac:(tasks_delete S3) ltac:(apply lookup_delete_ne; assumption) ltac:(trivial).
  - destruct (tasks w !! k') as [tk|] eqn:Hk'; [|discriminate].
    destruct (S3 _ _ Hk') as [->|[snap ->]]; [discriminate|].
    destruct (all_settled snap w) eqn:Hall; [|discriminate]. injection Hs as <-.
    destruct (decide (k' = k)) as [->|Hne].
    + (* the call resolves *)
      rewrite Hk' in S7. destruct S7 as [Hsub Hno].
      destruct Hpi as (Hnd & Hpe & Hse & Hef & Hsf & Htf & Hrf & Hex & Hsett).
      assert (Hnil : pendingExecutions (this w) = []).
      { destruct (pendingExecutions (this w)) as [|q l] eqn:Hp; [reflexivity|exfalso].
        assert (Hq : q ∈ q :: l) by set_solver.
        pose proof (Hpe _ Hq) as He1. apply Hsub in Hq.
        unfold all_settled in Hall. rewrite forallb_forall in Hall.
        apply list_elem_of_In, Hall, bool_decide_eq_true_1, Hse in Hq. congruence. }
      destruct S5 as [new S5].
      unfold stopped. cbn. rewrite lookup_delete_eq.
      split; [assumption|]. split; [assumption|]. split; [tasks_delete S3|]. split; [assumption|].
      split; [exists (OReturn k MStop (Fulfilled VUndefined) :: new); rewrite S5; reflexivity|].
      split; [intros p job Hin; apply elem_of_cons in Hin as [Hin|Hin]; [discriminate|auto]|].
      split; [assumption|].
      exists [], (trace w). split; [reflexivity|].
      intros p job Hin.
      assert (Hin' : OExecute p FromTick job ∈ trace w) by (rewrite S5; set_solver).
      destruct (Hex _ _ Hin') as [Hp|Hp]; [auto|]. rewrite Hnil in Hp. set_solver.
    + extend1 ltac:(tasks_delete S3) ltac:(apply lookup_delete_ne; assumption) ltac:(trivial).
  - destruct (execs w !! p) as [[|k2]|] eqn:Hp; [| |discriminate]; injection Hs as <-;
      unfold executor_settles; destruct out as [r|e].
    + extend1 ltac:(exact S3) ltac:(reflexivity) ltac:(intros ?; apply splice_first_subseteq).
    + extend2 ltac:(exact S3) ltac:(reflexivity) ltac:(intros ?; apply splice_first_subseteq).
    + extend2 ltac:(exact S3) ltac:(reflexivity) ltac:(trivial).
    + extend2 ltac:(exact S3) ltac:(reflexivity) ltac:(trivial).
Qed.

Lemma call_stop_stopped w :
  lifecycle_inv w -> promise_inv w ->
  idle w = true -> no_tick_loading w = true ->
  stopped (fresh w) (trace w) (call_stop w).
Proof.
  intros (Hheld & _ & _) Hpi Hidle Hnt.
  rewrite idle_spec in Hidle. rewrite no_tick_loading_spec in Hnt.
  destruct Hpi as (Hnd & Hpe & Hse & Hef & Hsf & Htf & Hrf & Hex & Hsett).
  assert (Htasks : forall k' t, tasks w !! k' = Some t ->
            t = OnceAwaitFind \/ exists snapshot, t = StopAwaitAll snapshot).
  { intros k' t Hk'. specialize (Hidle _ _ Hk'). specialize (Hnt _ _ Hk').
    destruct t; try discriminate. left. reflexivity. }
  unfold call_stop.
  set (w0 := emit (OCall (fresh w) MStop) (bump w)).
  assert (Hheld0 : timers_held w0) by exact Hheld.
  pose proof (stop_sync_spec _ Hheld0) as Hspec. cbn zeta in Hspec.
  destruct (stop_sync_trace w0) as (new & Hnew & Hforms).
  destruct (stop_sync w0) as [w1 waiting]. cbn [fst snd] in *.
  destruct Hspec as (Ht & Hj & Htk & Hex1 & Hse1 & Hf & Hp & Hw).
  cbn in Htk, Hex1, Hse1, Hf, Hp, Hw, Hnew.
  assert (Hnoexec : forall p job, OExecute p FromTick job ∈ new ++ OCall (fresh w) MStop :: trace w ->
                      OExecute p FromTick job ∈ trace w).
  { intros p job Hin. apply elem_of_app in Hin as [Hin|Hin].
    - apply Hforms in Hin as [[? ?]|[? ?]]; discriminate.
    - apply elem_of_cons in Hin as [Hin|Hin]; [discriminate|assumption]. }
  destruct (pendingExecutions (this w)) as [|q l] eqn:Hpend; subst waiting.
  - unfold stopped. cbn. rewrite Ht, Hj, Htk, Hf, Hp, Hnew.
    match goal with
    | |- context [match ?x with _ => _ end] =>
        destruct x as [tk|] eqn:E; [apply Htf in E; lia|]
    end.
    repeat split; auto.
    + exists (OReturn (fresh w) MStop (Fulfilled VUndefined) :: new ++ [OCall (fresh w) MStop]).
      cbn. rewrite <- app_assoc. reflexivity.
    + intros p job Hin. apply elem_of_cons in Hin as [Hin|Hin]; [discriminate|auto].
    + exists [], (new ++ OCall (fresh w) MStop :: trace w). split; [reflexivity|].
      intros p job Hin. destruct (Hex _ _ Hin) as [Hs|Hs]; [|set_solver].
      destruct (Hsett _ Hs) as [out Ho]. exists out. set_solver.
  - unfold stopped. cbn. rewrite Ht, Hj, Htk, Hf, Hp, Hnew, lookup_insert_eq.
    repeat split; auto.
    + intros k' t Hk'. apply lookup_insert_Some in Hk' as [[_ <-]|[_ Hk']]; eauto.
    + exists (new ++ [OCall (fresh w) MStop]). rewrite <- app_assoc. reflexivity.
    + intros c Hin. apply elem_of_app in Hin as [Hin|Hin].
      * apply Hforms in Hin as [[? ?]|[? ?]]; discriminate.
      * apply elem_of_cons in Hin as [Hin|Hin]; [discriminate|].
        apply Hrf in Hin. lia.
Qed.

Lemma run_stopped k tr es w w' :
  promise_inv w -> stopped k tr w ->
  forallb (fun e => negb (is_start_call e)) es = true ->
  run es w = Some w' ->
  stopped k tr w'.
Proof.
  revert w. induction es as [|e es IH]; intros w Hpi Hst Hes; cbn.
  - intros [= <-]. exact Hst.
  - cbn in Hes. apply andb_prop in Hes as [He Hes].
    destruct (step e w) as [w1|] eqn:Hs; [|discriminate].
    apply IH; [eapply step_promise_inv; eauto| |assumption].
    eapply step_stopped; eauto. destruct (is_start_call e); [discriminate|reflexivity].
Qed.

(** X18: what [stop()] does drain.  In a run in which [start()] and [stop()]
    have been called one after the other, let [stop()] be called while no
    [start()] or [stop()] is in progress and no tick is waiting for its job
    definition.  Then, as long as [start()] is not called, no timer is armed
    and no timer fires, no executor invocation is launched by a tick, and
    once the call has resolved nothing is pending: every invocation launched
    by a tick had settled before the call resolved. *)
Theorem stop_drains_tick_invocations name imm es1 w1 es2 w3 :
  run_serial es1 (forJob name imm) = Some w1 ->
  idle w1 = true ->
  no_tick_loading w1 = true ->
  forallb (fun e => negb (is_start_call e)) es2 = true ->
  run (CallStop :: es2) w1 = Some w3 ->
  timers w3 = ∅ /\ isStarted w3 = false
  /\ (forall t, step (TimerFire t) w3 = None)
  /\ (forall p job, OExecute p FromTick job ∈ trace w3 -> OExecute p FromTick job ∈ trace w1)
  /\ (OReturn (fresh w1) MStop (Fulfilled VUndefined) ∈ trace w3 ->
      pendingExecutions (this w3) = []
      /\ exists later earlier,
           trace w3 = later ++ OReturn (fresh w1) MStop (Fulfilled VUndefined) :: earlier
           /\ forall p job, OExecute p FromTick job ∈ trace w3 ->
                            exists out, OSettled p out ∈ earlier).
Proof.
  intros Hr1 Hidle Hnt Hes Hr2. cbn in Hr2.
  pose proof (run_serial_lifecycle_inv _ _ _ (forJob_lifecycle_inv name imm) Hr1) as Hli.
  pose proof (run_promise_inv _ _ _ (forJob_promise_inv name imm) (run_serial_run _ _ _ Hr1)) as Hpi.
  pose proof (call_stop_stopped _ Hli Hpi Hidle Hnt) as Hst.
  assert (Hpi2 : promise_inv (call_stop w1)).
  { eapply step_promise_inv with (e := CallStop); eauto. }
  pose proof (run_stopped _ _ _ _ _ Hpi2 Hst Hes Hr2) as (S1 & S2 & S3 & S4 & S5 & S6 & S7).
  split; [assumption|]. split; [unfold isStarted; rewrite S2; reflexivity|].
  split; [intros t; cbn; rewrite S1, lookup_empty; reflexivity|].
  split; [assumption|].
  intros Hin.
  match type of S7 with
  | match ?x with _ => _ end => destruct x as [[snap| | | |]|]; try contradiction
  end.
  - destruct S7 as [_ Hno]. exfalso. eapply Hno; eauto.
  - destruct S7 as (Hnil & later & earlier & Htr & Hall). split; [assumption|].
    exists later, earlier. split; [assumption|]. intros p job Hp. eauto.
Qed.

(** [executeOnce()] is not gated by [stop()]: after [stop()] has resolved,
    and before any [start()], a call of [executeOnce()] by a client invokes
    the executor. *)
Lemma executeOnce_runs_after_stop :
  exists w,
    Samples.run_serial [CallStart; FindOneSettles 0 (Found Samples.job) 0;
                        CallStop;
                        CallExecuteOnce; FindOneSettles 3 (Found Samples.job) 0]
      Samples.scheduler = Some w
    /\ rev (trace w) =
         [OCall 0 MStart; OFindOne 0; OSetInterval 1 60000 60000;
          OLog (LDebug "scheduled job to run at" "j" [60000; 60000; 60000]%Z);
          OReturn 0 MStart (Fulfilled VUndefined);
          OCall 2 MStop; OClearInterval 1; OReturn 2 MStop (Fulfilled VUndefined);
          OCall 3 MExecuteOnce; OFindOne 3; OExecute 4 (FromOnce 3) Samples.job]
    /\ execs w = {[ 4 := FromOnce 3 ]}.
Proof. eexists. split; [vm_compute; reflexivity|]. vm_compute. repeat split. Qed.

(** C2, at the failing input: the timer has fired and the tick still waits
    for its job definition when [stop()] is called.  Nothing is pending, so
    [stop()] clears the timer and resolves at once; the lookup then finds
    the job and the tick invokes the executor, after [stop()] has resolved
    and with no [start()] in between; the invocation is pending on a stopped
    scheduler. *)
Lemma tick_in_flight_escapes_stop :
  exists w,
    Samples.run_serial [CallStart; FindOneSettles 0 (Found Samples.job) 0;
                        TimerFire 1;
                        CallStop;
                        FindOneSettles 2 (Found Samples.job) 0]
      Samples.scheduler = Some w
    /\ rev (trace w) =
         [OCall 0 MStart; OFindOne 0; OSetInterval 1 60000 60000;
          OLog (LDebug "scheduled job to run at" "j" [60000; 60000; 60000]%Z);
          OReturn 0 MStart (Fulfilled VUndefined);
          OCall 2 MExecuteConcurrently; OFindOne 2;
          OCall 3 MStop; OClearInterval 1; OReturn 3 MStop (Fulfilled VUndefined);
          OLog (LDebug "execute job" "j" [1%Z]);
          OExecute 4 FromTick Samples.job;
          OReturn 2 MExecuteConcurrently (Fulfilled VUndefined)]
    /\ pendingExecutions (this w) = [4]
    /\ isStarted w = false.
Proof. eexists. split; [vm_compute; reflexivity|]. vm_compute. repeat split. Qed.

End Facts.

(** ** The theorems at concrete inputs *)

Lemma tick_launches_min_concurrency_capacity_witness :
  let w := Samples.ticking in
  let w' := Samples.ticked in
  let job := Samples.job in
  tasks w !! 2 = Some TickAwaitFind
  /\ Samples.step (FindOneSettles 2 (Found job) 0) w = Some w'
  /\ (0 <= concurrency job)%Z
  /\ (let launched := executor_invocations (trace w') - executor_invocations (trace w) in
      let running := default 0%Z (running job) in
      Z.of_nat launched =
        (if (maxRunning job <=? 0)%Z then concurrency job
         else Z.min (concurrency job) (Z.max 0 (maxRunning job - running)))
      /\ ((0 < maxRunning job)%Z -> (maxRunning job <= running)%Z -> launched = 0)
      /\ length (pendingExecutions (this w')) = launched + length (pendingExecutions (this w))).
Proof.
  intros w w' job.
  assert (H1 : tasks w !! 2 = Some TickAwaitFind) by (vm_compute; reflexivity).
  assert (H2 : Samples.step (FindOneSettles 2 (Found job) 0) w = Some w')
    by (vm_compute; reflexivity).
  assert (H3 : (0 <= concurrency job)%Z) by (vm_compute; discriminate).
  exact (conj H1 (conj H2 (conj H3
           (tick_launches_min_concurrency_capacity
              Samples.humanInterval Samples.calculateDelay w 2 job 0 w' H1 H2 H3)))).
Defined.

Lemma missing_job_is_logged_and_skipped_witness :
  (tasks Samples.ticking !! 2 = Some TickAwaitFind
   /\ exists w',
       Samples.step (FindOneSettles 2 Missing 0) Samples.ticking = Some w'
       /\ executor_invocations (trace w') = executor_invocations (trace Samples.ticking)
       /\ this w' = this Samples.ticking)
  /\ (tasks Samples.once !! 0 = Some OnceAwaitFind
      /\ exists w',
          Samples.step (FindOneSettles 0 Missing 0) Samples.once = Some w'
          /\ hd_error (trace w')
             = Some (OReturn 0 MExecuteOnce (Fulfilled (VResult {| status := notFound |})))
          /\ execs w' = execs Samples.once).
Proof.
  assert (H1 : tasks Samples.ticking !! 2 = Some TickAwaitFind) by (vm_compute; reflexivity).
  assert (H2 : tasks Samples.once !! 0 = Some OnceAwaitFind) by (vm_compute; reflexivity).
  destruct (missing_job_is_logged_and_skipped
              Samples.humanInterval Samples.calculateDelay Samples.ticking 2 0) as [Ht _].
  destruct (missing_job_is_logged_and_skipped
              Samples.humanInterval Samples.calculateDelay Samples.once 0 0) as [_ Ho].
  destruct (Ht H1) as (w1 & Hs1 & Htr1 & Hi1 & Hth1 & _).
  destruct (Ho H2) as (w2 & Hs2 & Htr2 & _ & _ & He2 & _).
  split; (split; [assumption|]).
  - exists w1. repeat split; assumption.
  - exists w2. rewrite Htr2. repeat split; assumption.
Defined.

Lemma unexpectedErrorCount_monotone_and_inert_witness :
  let es := [CallExecuteOnce; FindOneSettles 0 (FindFails (OtherError "store unavailable")) 0] in
  let w := Samples.scheduler in
  let w' := Samples.once_failed in
  Samples.run es w = Some w'
  /\ getUnexpectedErrorCount w = 0
  /\ getUnexpectedErrorCount w' = 1
  /\ (getUnexpectedErrorCount w <= getUnexpectedErrorCount w'
      /\ getUnexpectedErrorCount w'
         = getUnexpectedErrorCount w + (unexpected_errors (trace w') - unexpected_errors (trace w))
      /\ forall n, option_map (with_count 0) (Samples.run es (with_count n w))
                   = Some (with_count 0 w')).
Proof.
  intros es w w'.
  assert (H1 : Samples.run es w = Some w') by (vm_compute; reflexivity).
  exact (conj H1 (conj eq_refl (conj eq_refl
           (unexpectedErrorCount_monotone_and_inert
              Samples.humanInterval Samples.calculateDelay es w w' H1)))).
Defined.

Lemma start_outcomes_witness :
  let w := Samples.starting in
  let w' := Samples.start_refused in
  tasks w !! 0 = Some StartAwaitFind
  /\ Samples.step (FindOneSettles 0 (Found Samples.blue_moon) 0) w = Some w'
  /\ Samples.humanInterval (JobEntity.interval Samples.blue_moon) = Some NaN
  /\ (trace w' = OReturn 0 MStart (Rejected nonParsableInterval) :: trace w
      /\ timers w' = timers w /\ this w' = this w).
Proof.
  intros w w'.
  assert (H1 : tasks w !! 0 = Some StartAwaitFind) by (vm_compute; reflexivity).
  assert (H2 : Samples.step (FindOneSettles 0 (Found Samples.blue_moon) 0) w = Some w')
    by (vm_compute; reflexivity).
  exact (conj H1 (conj H2 (conj eq_refl
           (start_outcomes Samples.humanInterval Samples.calculateDelay
              w 0 (Found Samples.blue_moon) 0 w' H1 H2)))).
Defined.


Lemma stop_drains_tick_invocations_witness :
  let es1 := [CallStart; FindOneSettles 0 (Found Samples.job) 0; TimerFire 1;
              FindOneSettles 2 (Found Samples.job) 0] in
  let es2 := [ExecutorSettles 3 (Resolves {| status := finished |}); AllSettled 4] in
  let w1 := Samples.ticked in
  let w3 := Samples.drained in
  Samples.run_serial es1 (forJob "j" false) = Some w1
  /\ idle w1 = true
  /\ no_tick_loading w1 = true
  /\ forallb (fun e => negb (is_start_call e)) es2 = true
  /\ Samples.run (CallStop :: es2) w1 = Some w3
  /\ pendingExecutions (this w1) = [3]
  /\ OReturn (fresh w1) MStop (Fulfilled VUndefined) ∈ trace w3
  /\ (timers w3 = ∅ /\ isStarted w3 = false
      /\ (forall t, Samples.step (TimerFire t) w3 = None)
      /\ (forall p job, OExecute p FromTick job ∈ trace w3 -> OExecute p FromTick job ∈ trace w1)
      /\ (OReturn (fresh w1) MStop (Fulfilled VUndefined) ∈ trace w3 ->
          pendingExecutions (this w3) = []
          /\ exists later earlier,
               trace w3 = later ++ OReturn (fresh w1) MStop (Fulfilled VUndefined) :: earlier
               /\ forall p job, OExecute p FromTick job ∈ trace w3 ->
                                exists out, OSettled p out ∈ earlier)).
Proof.
  intros es1 es2 w1 w3.
  assert (H1 : Samples.run_serial es1 (forJob "j" false) = Some w1) by (vm_compute; reflexivity).
  assert (H2 : idle w1 = true) by (vm_compute; reflexivity).
  assert (H3 : no_tick_loading w1 = true) by (vm_compute; reflexivity).
  assert (H4 : forallb (fun e => negb (is_start_call e)) es2 = true) by (vm_compute; reflexivity).
  assert (H5 : Samples.run (CallStop :: es2) w1 = Some w3) by (vm_compute; reflexivity).
  assert (H6 : pendingExecutions (this w1) = [3]) by (vm_compute; reflexivity).
  assert (H7 : OReturn (fresh w1) MStop (Fulfilled VUndefined) ∈ trace w3)
    by (vm_compute; apply list_elem_of_here).
  exact (conj H1 (conj H2 (conj H3 (conj H4 (conj H5 (conj H6 (conj H7
           (stop_drains_tick_invocations
              Samples.humanInterval Samples.calculateDelay
              "j" false es1 w1 es2 w3 H1 H2 H3 H4 H5)))))))).
Defined.

(** Scenario 2 of the specification: [concurrency = 5], [maxRunning = 2],
    [running = 1]: one tick launches exactly one invocation. *)
Example scenario_max_running_enforced :
  executor_invocations (trace Samples.ticked) - executor_invocations (trace Samples.ticking) = 1
  /\ pendingExecutions (this Samples.ticked) = [3].
Proof. vm_compute. split; reflexivity. Qed.

End SchedulerFacts.

(** * Further properties of JobScheduler *)
Module RunFacts.

Import JobEntity Scheduler Bookkeeping.

Section Facts.

Variable humanInterval : string -> option JsNumber.
Variable calculateDelay : Z -> Z -> bool -> JobEntity.t -> Z.

Local Abbreviation step := (Scheduler.step humanInterval calculateDelay).
Local Abbreviation run := (Scheduler.run humanInterval calculateDelay).
Local Abbreviation run_serial := (Scheduler.run_serial humanInterval calculateDelay).

#[local] Arguments unexpected_errors : simpl never.
#[local] Arguments executor_invocations : simpl never.

(** ** The pending array and the trace *)

Lemma pending_inv_frame w w' :
  pendingExecutions (this w') = pendingExecutions (this w) ->
  execs w' = execs w -> settled w' = settled w -> trace w' = trace w ->
  fresh w <= fresh w' ->
  pending_inv w -> pending_inv w'.
Proof.
  unfold pending_inv. intros -> -> -> -> Hf (Ha & Hb & Hc & Hd & He).
  repeat (split; [assumption|]). intros p o job Hin. apply He in Hin. lia.
Qed.

Lemma pending_inv_emit o w :
  (forall p out, o <> OSettled p out) ->
  (forall p o' job, o <> OExecute p o' job) ->
  pending_inv w -> pending_inv (emit o w).
Proof.
  intros Ho Hx (Ha & Hb & Hc & Hd & He). unfold pending_inv. cbn.
  split; [exact Ha|]. split; [|split; [|split]].
  - intros p Hp. destruct (Hb _ Hp) as [job Hj]. exists job. set_solver.
  - intros p out Hin. apply elem_of_cons in Hin as [Hin|Hin]; [|eauto].
    symmetry in Hin. apply Ho in Hin. contradiction.
  - intros p k job Hin. apply elem_of_cons in Hin as [Hin|Hin]; [|eauto].
    symmetry in Hin. apply Hx in Hin. contradiction.
  - intros p o' job Hin. apply elem_of_cons in Hin as [Hin|Hin]; [|eauto].
    symmetry in Hin. apply Hx in Hin. contradiction.
Qed.

Ltac neutral w0 :=
  eapply pending_inv_frame with (w := w0); [reflexivity..|cbn; lia|].

Ltac emitted := apply pending_inv_emit; [discriminate..|].

Lemma stop_sync_pending_inv w : pending_inv w -> pending_inv (fst (stop_sync w)).
Proof.
  intros Hw. unfold stop_sync, clearInterval.
  destruct (jobHandle (this w)) as [t|];
    cbn [this set_this set_interval set_jobHandle pendingExecutions emit set_timers];
    destruct (pendingExecutions (this w)) eqn:Hp; cbn [length Nat.ltb Nat.leb fst].
  - neutral (emit (OClearInterval t) w). emitted. assumption.
  - emitted. neutral (emit (OClearInterval t) w). emitted. assumption.
  - assumption.
  - emitted. assumption.
Qed.

Lemma launch_one_pending_inv job w :
  promise_inv w -> pending_inv w -> pending_inv (launch_one job w).
Proof.
  intros (Hnd & Hpe & Hse & Hef & _) (Ha & Hb & Hc & Hd & He).
  unfold pending_inv, launch_one, execute. cbn. split; [|split; [|split; [|split]]].
  - intros p Hp. apply lookup_insert_Some in Hp as [[<- _]|[_ Hp]]; [set_solver|].
    apply elem_of_app. left. auto.
  - intros p Hp. apply elem_of_app in Hp as [Hp|Hp].
    + destruct (Hb _ Hp) as [j Hj]. exists j. set_solver.
    + apply list_elem_of_singleton in Hp as ->. exists job. set_solver.
  - intros p out Hin. apply elem_of_cons in Hin as [Hin|Hin]; [discriminate|eauto].
  - intros p k j Hin Hp. apply elem_of_cons in Hin as [Hin|Hin]; [discriminate|].
    apply elem_of_app in Hp as [Hp|Hp]; [exact (Hd _ _ _ Hin Hp)|].
    apply list_elem_of_singleton in Hp as ->. apply He in Hin. lia.
  - intros p o j Hin. apply elem_of_cons in Hin as [Hin|Hin].
    + injection Hin as -> _ _. lia.
    + apply He in Hin. lia.
Qed.

Lemma launch_invariants n job w :
  promise_inv w -> pending_inv w ->
  promise_inv (launch n job w) /\ pending_inv (launch n job w).
Proof.
  revert w. induction n as [|n IH]; intros w Hp Hw; cbn; [split; assumption|].
  apply IH; [apply SchedulerFacts.launch_one_promise_inv, Hp|apply launch_one_pending_inv; assumption].
Qed.

Lemma handleUnexpectedError_pending_inv e w :
  pending_inv w -> pending_inv (handleUnexpectedError e w).
Proof.
  intros Hw. unfold handleUnexpectedError. emitted. neutral w. assumption.
Qed.

Lemma executor_settles_pending_inv p o out w :
  NoDup (pendingExecutions (this w)) ->
  pending_inv w -> pending_inv (executor_settles p o out w).
Proof.
  intros Hnd (Ha & Hb & Hc & Hd & He).
  assert (Hbase : pending_inv (emit (OSettled p out)
                    (set_settled (union {[p]}) (set_execs (delete p) w)))).
  { unfold pending_inv. cbn. split; [|split; [|split; [|split]]].
    - intros q Hq. apply lookup_delete_Some in Hq as [_ Hq]. auto.
    - intros q Hq. destruct (Hb _ Hq) as [j Hj]. exists j. set_solver.
    - intros q o' Hin. apply elem_of_cons in Hin as [Hin|Hin].
      + injection Hin as -> _. set_solver.
      + apply elem_of_union. right. eauto.
    - intros q k j Hin. apply elem_of_cons in Hin as [Hin|Hin]; [discriminate|eauto].
    - intros q o' j Hin. apply elem_of_cons in Hin as [Hin|Hin]; [discriminate|eauto]. }
  destruct o as [|k]; unfold executor_settles.
  - assert (Hgoal : forall w2,
      pending_inv w2 ->
      pendingExecutions (this w2) = pendingExecutions (this w) ->
      execs w2 = delete p (execs w) ->
      pending_inv (set_this (fun s => set_pendingExecutions
                                        (splice_first p (pendingExecutions s)) s) w2)).
    { intros w2 (Ha2 & Hb2 & Hc2 & Hd2 & He2) E1 E2. unfold pending_inv. cbn. rewrite E1.
      split; [|split; [|split; [|split]]].
      - intros q Hq. rewrite E2 in Hq. apply lookup_delete_Some in Hq as [Hne Hq].
        apply SchedulerFacts.elem_of_splice_first; auto.
      - intros q Hq. apply SchedulerFacts.splice_first_subseteq in Hq.
        apply Hb2. rewrite E1. exact Hq.
      - exact Hc2.
      - intros q k j Hin Hq. apply SchedulerFacts.splice_first_subseteq in Hq.
        apply (Hd2 _ _ _ Hin). rewrite E1. exact Hq.
      - exact He2. }
    destruct out as [r|e]; apply Hgoal; try reflexivity; try assumption.
    apply handleUnexpectedError_pending_inv, Hbase.
  - emitted. assumption.
Qed.

Lemma step_pending_inv e w w' :
  promise_inv w -> pending_inv w -> step e w = Some w' -> pending_inv w'.
Proof.
  intros Hpw Hw Hs.
  destruct e as [| | |t|k r now|k|p out]; cbn in Hs.
  - injection Hs as <-. unfold call_start.
    assert (Hw1 : pending_inv (fst (stop_sync (emit (OCall (fresh w) MStart) (bump w))))).
    { apply stop_sync_pending_inv. emitted. neutral w. assumption. }
    destruct (stop_sync (emit (OCall (fresh w) MStart) (bump w))) as [w1 [snap|]];
      cbn [fst] in *.
    + neutral w1. assumption.
    + unfold start_find. neutral (emit (OFindOne (fresh w)) w1). emitted. assumption.
  - injection Hs as <-. unfold call_stop.
    assert (Hw1 : pending_inv (fst (stop_sync (emit (OCall (fresh w) MStop) (bump w))))).
    { apply stop_sync_pending_inv. emitted. neutral w. assumption. }
    destruct (stop_sync (emit (OCall (fresh w) MStop) (bump w))) as [w1 [snap|]];
      cbn [fst] in *.
    + neutral w1. assumption.
    + emitted. assumption.
  - injection Hs as <-. unfold call_executeOnce.
    neutral (emit (OFindOne (fresh w)) (emit (OCall (fresh w) MExecuteOnce) (bump w))).
    do 2 emitted. neutral w. assumption.
  - destruct (timers w !! t); [|discriminate]. injection Hs as <-. unfold tick.
    neutral (emit (OFindOne (fresh w)) (emit (OCall (fresh w) MExecuteConcurrently) (bump w))).
    do 2 emitted. neutral w. assumption.
  - assert (Hd : pending_inv (set_tasks (delete k) w)) by (neutral w; assumption).
    assert (Hpd : promise_inv (set_tasks (delete k) w))
      by apply SchedulerFacts.promise_inv_delete_task, Hpw.
    destruct (tasks w !! k) as [[]|] eqn:Ek; try discriminate; injection Hs as <-.
    + unfold Scheduler.start_resume, setIntervalWithDelay. destruct r as [job| |e].
      * destruct (falsy _ || isNaN _); [emitted; assumption|].
        destruct (humanInterval (JobEntity.interval job)) as [[i|]|];
          try (emitted; assumption).
        do 2 emitted.
        neutral (emit (OSetInterval (fresh w) i
                   (calculateDelay now i (immediate (this w)) job)) (set_tasks (delete k) w)).
        emitted. assumption.
      * do 2 emitted. assumption.
      * emitted. assumption.
    + unfold executeOnce_resume, execute. destruct r as [job| |e].
      * destruct Hd as (Ha & Hb & Hc & Hd & He).
        destruct Hpd as (Hnd & Hpe & Hse & Hef & _). cbn in *.
        unfold pending_inv. cbn. split; [|split; [|split; [|split]]].
        -- intros q Hq. apply lookup_insert_Some in Hq as [[_ [=]]|[_ Hq]]. auto.
        -- intros q Hq. destruct (Hb _ Hq) as [j Hj]. exists j. set_solver.
        -- intros q o Hin. apply elem_of_cons in Hin as [Hin|Hin]; [discriminate|eauto].
        -- intros q k' j Hin Hq. apply elem_of_cons in Hin as [Hin|Hin]; [|exact (Hd _ _ _ Hin Hq)].
           injection Hin as -> _ _. apply Hpe, Hef in Hq. lia.
        -- intros q o j Hin. apply elem_of_cons in Hin as [Hin|Hin].
           ++ injection Hin as -> _ _. lia.
           ++ apply He in Hin. lia.
      * do 2 emitted. assumption.
      * emitted. apply handleUnexpectedError_pending_inv, Hd.
    + unfold executeConcurrently_resume. destruct r as [job| |e].
      * emitted. apply launch_invariants.
        -- apply SchedulerFacts.promise_inv_emit; [discriminate..|assumption].
        -- emitted. assumption.
      * do 2 emitted. assumption.
      * emitted. apply handleUnexpectedError_pending_inv, Hd.
  - assert (Hd : pending_inv (set_tasks (delete k) w)) by (neutral w; assumption).
    destruct (tasks w !! k) as [[]|] eqn:Ek; try discriminate;
      destruct (all_settled _ w); try discriminate; injection Hs as <-.
    + emitted. assumption.
    + unfold start_find. neutral (emit (OFindOne k) (set_tasks (delete k) w)).
      emitted. assumption.
  - destruct (execs w !! p) as [o|] eqn:Ep; [|discriminate]. injection Hs as <-.
    apply executor_settles_pending_inv; [apply Hpw|assumption].
Qed.

Lemma forJob_pending_inv name imm : pending_inv (forJob name imm).
Proof.
  unfold pending_inv. cbn.
  split; [|split; [|split; [|split]]]; intros *; rewrite ?lookup_empty; set_solver.
Qed.

Lemma run_invariants es w w' :
  promise_inv w -> pending_inv w -> run es w = Some w' -> promise_inv w' /\ pending_inv w'.
Proof.
  revert w. induction es as [|e es IH]; intros w Hp Hw; cbn.
  - intros [= <-]. split; assumption.
  - destruct (step e w) as [w1|] eqn:Hs; [|discriminate].
    apply IH.
    + eapply SchedulerFacts.step_promise_inv; eauto.
    + eapply step_pending_inv; eauto.
Qed.

Lemma run_forJob_invariants name imm es w :
  run es (forJob name imm) = Some w -> promise_inv w /\ pending_inv w.
Proof.
  apply run_invariants; [apply SchedulerFacts.forJob_promise_inv|apply forJob_pending_inv].
Qed.

(** X1: at every point of every run, [pendingExecutions] holds, once
    each, exactly the promises of the executor invocations that ticks have
    launched and that have not settled yet; an invocation of [executeOnce()]
    is never among them. *)
Theorem pendingExecutions_are_the_unsettled_tick_invocations name imm es w :
  run es (forJob name imm) = Some w ->
  NoDup (pendingExecutions (this w))
  /\ (forall p, p ∈ pendingExecutions (this w)
        <-> (exists job, OExecute p FromTick job ∈ trace w)
            /\ forall out, OSettled p out ∉ trace w)
  /\ (forall p k job, OExecute p (FromOnce k) job ∈ trace w -> p ∉ pendingExecutions (this w)).
Proof.
  intros Hr. destruct (run_forJob_invariants _ _ _ _ Hr) as [Hp (Ha & Hb & Hc & Hd & He)].
  destruct Hp as (Hnd & Hpe & Hse & Hef & Hsf & Htf & Hrf & Hex & Hst).
  split; [exact Hnd|]. split.
  - intros p. split.
    + intros Hp. split; [auto|]. intros out Hin. apply Hc, Hse in Hin.
      apply Hpe in Hp. congruence.
    + intros [[job Hj] Hno]. destruct (Hex _ _ Hj) as [Hs|Hp]; [|exact Hp].
      destruct (Hst _ Hs) as [out Ho]. exfalso. exact (Hno _ Ho).
  - exact Hd.
Qed.


(** ** Settling *)

(** Rewrite the scrutinee of the goal's [match] with an equation on it. *)
Ltac rewrite_scrutinee H :=
  match type of H with
  | ?l = _ =>
      match goal with
      | |- context [match ?x with _ => _ end] => change x with l; rewrite H
      end
  end.

Lemma splice_first_length p l :
  p ∈ l -> S (length (splice_first p l)) = length l.
Proof.
  induction l as [|y l IH]; cbn; intros Hp; [set_solver|].
  destruct (decide (y = p)) as [->|Hne]; [reflexivity|].
  apply elem_of_cons in Hp as [->|Hp]; [contradiction|].
  cbn. rewrite IH by assumption. reflexivity.
Qed.

(** What the run of an executor promise's handlers changes. *)
Lemma executor_settles_tick_frame p out w :
  let w' := executor_settles p FromTick out w in
  pendingExecutions (this w') = splice_first p (pendingExecutions (this w))
  /\ execs w' = delete p (execs w)
  /\ settled w' = {[ p ]} ∪ settled w
  /\ tasks w' = tasks w /\ timers w' = timers w
  /\ jobHandle (this w') = jobHandle (this w)
  /\ interval (this w') = interval (this w)
  /\ fresh w' = fresh w
  /\ getUnexpectedErrorCount w' = (if is_rejection out then 1 else 0) + getUnexpectedErrorCount w
  /\ (forall o, o ∈ trace w' ->
        o = OSettled p out \/ (exists l, o = OLog l) \/ o ∈ trace w).
Proof.
  destruct out as [r|e]; cbn; repeat (split; [reflexivity|]); intros o Hin.
  - apply elem_of_cons in Hin as [->|Hin]; auto.
  - apply elem_of_cons in Hin as [->|Hin]; [eauto|].
    apply elem_of_cons in Hin as [->|Hin]; auto.
Qed.

(** X2: when the promise of an invocation launched by a tick settles, it
    leaves [pendingExecutions], the other pending promises stay; a rejection
    is counted once by [handleUnexpectedError], a fulfilment is not counted;
    nothing else of the scheduler changes, and no call of a method of the
    scheduler returns or rejects because of it. *)
Theorem settled_tick_invocation_leaves_pendingExecutions name imm es w p out :
  run es (forJob name imm) = Some w ->
  execs w !! p = Some FromTick ->
  exists w',
    step (ExecutorSettles p out) w = Some w'
    /\ p ∈ pendingExecutions (this w)
    /\ (p ∉ pendingExecutions (this w'))
    /\ (forall q, q <> p ->
          (q ∈ pendingExecutions (this w') <-> q ∈ pendingExecutions (this w)))
    /\ S (length (pendingExecutions (this w'))) = length (pendingExecutions (this w))
    /\ getUnexpectedErrorCount w'
       = (if is_rejection out then 1 else 0) + getUnexpectedErrorCount w
    /\ jobHandle (this w') = jobHandle (this w)
    /\ timers w' = timers w /\ tasks w' = tasks w
    /\ (forall k m c, OReturn k m c ∈ trace w' -> OReturn k m c ∈ trace w).
Proof.
  intros Hr Hp. destruct (run_forJob_invariants _ _ _ _ Hr) as [Hpi (Ha & _)].
  destruct Hpi as (Hnd & _).
  exists (executor_settles p FromTick out w). split; [cbn; rewrite Hp; reflexivity|].
  destruct (executor_settles_tick_frame p out w)
    as (Epen & _ & _ & Etasks & Etimers & Ehandle & _ & _ & Ecount & Etrace).
  pose proof (Ha _ Hp) as Hin.
  split; [exact Hin|]. rewrite Epen.
  split; [rewrite SchedulerFacts.elem_of_splice_first by assumption; tauto|].
  split; [intros q Hq; rewrite SchedulerFacts.elem_of_splice_first by assumption; tauto|].
  split; [apply splice_first_length, Hin|].
  repeat (split; [assumption|]).
  intros k m c Hk. apply Etrace in Hk as [Hk|[[l Hk]|Hk]]; [discriminate..|exact Hk].
Qed.

Ltac rewrite_scrutinee_in Hs H :=
  match type of H with
  | ?l = _ =>
      match type of Hs with
      | context [match ?x with _ => _ end] => change x with l in Hs; rewrite H in Hs
      end
  end.

(** ** [stop()] resolves *)


(** What the synchronous part of [stop()] leaves behind, in every world. *)
Lemma stop_sync_frame w :
  let w1 := fst (stop_sync w) in
  jobHandle (this w1) = None
  /\ (interval (this w1) = match jobHandle (this w) with Some _ => None | None => interval (this w) end)
  /\ (timers w1 = match jobHandle (this w) with Some t => delete t (timers w) | None => timers w end)
  /\ tasks w1 = tasks w /\ execs w1 = execs w /\ settled w1 = settled w
  /\ fresh w1 = fresh w
  /\ pendingExecutions (this w1) = pendingExecutions (this w)
  /\ unexpectedErrorCount (this w1) = unexpectedErrorCount (this w)
  /\ executor_invocations (trace w1) = executor_invocations (trace w)
  /\ snd (stop_sync w)
     = match pendingExecutions (this w) with [] => None | l => Some l end.
Proof.
  unfold stop_sync, clearInterval, executor_invocations.
  destruct (jobHandle (this w)) as [t|] eqn:Hh;
    cbn; destruct (pendingExecutions (this w)) eqn:Hp; cbn; rewrite ?Hp, ?Hh; repeat split.
Qed.




(** ** The interval and the timer handle *)

Lemma launch_interval n job w : interval (this (launch n job w)) = interval (this w).
Proof.
  revert w. induction n as [|n IH]; intros w; cbn [launch]; [reflexivity|].
  rewrite IH. reflexivity.
Qed.

(** What [stop()] called by a client leaves behind, in every world. *)
Lemma call_stop_frame w :
  let w1 := call_stop w in
  jobHandle (this w1) = None
  /\ (interval (this w1) = match jobHandle (this w) with Some _ => None | None => interval (this w) end)
  /\ (timers w1 = match jobHandle (this w) with Some t => delete t (timers w) | None => timers w end)
  /\ execs w1 = execs w /\ settled w1 = settled w
  /\ pendingExecutions (this w1) = pendingExecutions (this w)
  /\ unexpectedErrorCount (this w1) = unexpectedErrorCount (this w)
  /\ (tasks w1 = match pendingExecutions (this w) with
                 | [] => tasks w
                 | l => <[fresh w := StopAwaitAll l]> (tasks w)
                 end)
  /\ (pendingExecutions (this w) = [] ->
      hd_error (trace w1) = Some (OReturn (fresh w) MStop (Fulfilled VUndefined)))
  /\ executor_invocations (trace w1) = executor_invocations (trace w).
Proof.
  unfold call_stop.
  destruct (stop_sync_frame (emit (OCall (fresh w) MStop) (bump w)))
    as (Hj & Hi & Ht & Htasks & Hexecs & Hsettled & Hfresh & Hpen & Hcount & Hinv & Hsnd).
  destruct (stop_sync (emit (OCall (fresh w) MStop) (bump w))) as [w1 waiting].
  cbn [fst snd] in *. cbn in Hi, Ht, Htasks, Hexecs, Hsettled, Hfresh, Hpen, Hcount, Hsnd.
  cbn [trace emit bump] in Hinv.
  rewrite SchedulerFacts.executor_invocations_cons in Hinv. cbn in Hinv.
  subst waiting. destruct (pendingExecutions (this w)) as [|q l]; cbn;
    rewrite ?SchedulerFacts.executor_invocations_cons; cbn;
    repeat (split; [assumption|]).
  - split; [reflexivity|assumption].
  - rewrite Htasks. split; [reflexivity|]. split; [discriminate|assumption].
Qed.

(** The two ways [start()] ends once its lookup has settled. *)
Lemma start_resume_spec k r now w :
  let w' := Scheduler.start_resume humanInterval calculateDelay k r now w in
  tasks w' = tasks w
  /\ pendingExecutions (this w') = pendingExecutions (this w)
  /\ ((exists job i,
         r = Found job /\ humanInterval (JobEntity.interval job) = Some (Num i) /\ i <> 0%Z
         /\ jobHandle (this w') = Some (fresh w)
         /\ interval (this w') = Some (JobEntity.interval job)
         /\ timers w' = <[fresh w := {| period := i;
                                        delay := calculateDelay now i (immediate (this w)) job |}]>
                          (timers w)
         /\ fresh w' = S (fresh w)
         /\ hd_error (trace w') = Some (OReturn k MStart (Fulfilled VUndefined)))
      \/ ((forall job i, r = Found job -> humanInterval (JobEntity.interval job) = Some (Num i) ->
                         i = 0%Z)
          /\ this w' = this w /\ timers w' = timers w /\ fresh w' = fresh w
          /\ exists c, hd_error (trace w') = Some (OReturn k MStart c)
                       /\ (c = Fulfilled VUndefined <-> r = Missing))).
Proof.
  unfold Scheduler.start_resume, setIntervalWithDelay. destruct r as [job| |e].
  - destruct (humanInterval (JobEntity.interval job)) as [[i|]|] eqn:Hi; cbn.
    + destruct (Z.eqb_spec i 0) as [->|Hne]; cbn.
      * repeat split. right. repeat split; [intros ? ? [= <-]; congruence|].
        eexists. split; [reflexivity|]. split; discriminate.
      * repeat split. left. exists job, i. repeat split; assumption.
    + repeat split. right. repeat split; [intros ? ? [= <-]; congruence|].
      eexists. split; [reflexivity|]. split; discriminate.
    + repeat split. right. repeat split; [intros ? ? [= <-]; congruence|].
      eexists. split; [reflexivity|]. split; discriminate.
  - cbn. repeat split. right. repeat split; [discriminate|].
    eexists. split; [reflexivity|]. split; reflexivity.
  - cbn. repeat split. right. repeat split; [discriminate|].
    eexists. split; [reflexivity|]. split; discriminate.
Qed.

Lemma step_interval_defined e w w' :
  interval_defined w = isStarted w -> step e w = Some w' ->
  interval_defined w' = isStarted w'.
Proof.
  unfold interval_defined, isStarted. intros Hw Hs.
  destruct e as [| | |t|k r now|k|p out]; cbn in Hs.
  - injection Hs as <-. unfold call_start.
    destruct (stop_sync_frame (emit (OCall (fresh w) MStart) (bump w)))
      as (Hj & Hi & _). cbn in Hi.
    destruct (stop_sync (emit (OCall (fresh w) MStart) (bump w))) as [w1 [snap|]];
      cbn [fst] in *; cbn; rewrite Hj, Hi;
      destruct (jobHandle (this w)); [reflexivity|exact Hw|reflexivity|exact Hw].
  - injection Hs as <-.
    destruct (call_stop_frame w) as (Hj & Hi & _). rewrite Hj, Hi.
    destruct (jobHandle (this w)); [reflexivity|exact Hw].
  - injection Hs as <-. exact Hw.
  - destruct (timers w !! t); [|discriminate]. injection Hs as <-. exact Hw.
  - destruct (tasks w !! k) as [[]|] eqn:Ek; try discriminate; injection Hs as <-.
    + destruct (start_resume_spec k r now (set_tasks (delete k) w)) as (_ & _ & Hc).
      destruct Hc as [(job & i & _ & _ & _ & -> & -> & _)|(_ & -> & _)];
        [reflexivity|exact Hw].
    + destruct r as [job| |e]; exact Hw.
    + destruct r as [job| |e]; try exact Hw. cbn.
      rewrite launch_interval.
      destruct (SchedulerFacts.launch_frame (Z.to_nat (numToExecute job)) job
        (emit (OLog (LDebug "execute job" (jobName (this w)) [numToExecute job]))
           (set_tasks (delete k) w))) as (_ & _ & _ & -> & _).
      exact Hw.
  - destruct (tasks w !! k) as [[]|] eqn:Ek; try discriminate;
      destruct (all_settled _ w); try discriminate; injection Hs as <-; exact Hw.
  - destruct (execs w !! p) as [[|k]|]; try discriminate; injection Hs as <-;
      destruct out; exact Hw.
Qed.

Lemma run_interval_defined es w w' :
  interval_defined w = isStarted w -> run es w = Some w' ->
  interval_defined w' = isStarted w'.
Proof.
  revert w. induction es as [|e es IH]; intros w Hw; cbn.
  - intros [= <-]. exact Hw.
  - destruct (step e w) as [w1|] eqn:Hs; [|discriminate].
    apply IH. eapply step_interval_defined; eauto.
Qed.

Lemma not_idle w :
  idle w = false -> exists k t, tasks w !! k = Some t /\ lifecycle t = true.
Proof.
  unfold idle. intros H.
  assert (Hex : forall l : list (CallId * Task),
            forallb (fun kt => negb (lifecycle (snd kt))) l = false ->
            exists kt, kt ∈ l /\ lifecycle (snd kt) = true).
  { induction l as [|kt l IH]; cbn; [discriminate|].
    destruct (lifecycle (snd kt)) eqn:Hl; cbn.
    - intros _. exists kt. split; [set_solver|exact Hl].
    - intros Hf. destruct (IH Hf) as (kt' & Hin & Hl'). exists kt'. split; [set_solver|exact Hl']. }
  destruct (Hex _ H) as ([k t] & Hin & Hl). apply elem_of_map_to_list in Hin. eauto.
Qed.

(** X4: in a run in which [start()] and [stop()] are called one after the
    other, no timer is armed while one of the two is in progress: the
    scheduler is not started, no tick can fire, and only one such call is in
    progress. *)
Theorem no_timer_while_start_or_stop_is_in_progress name imm es w :
  run_serial es (forJob name imm) = Some w ->
  idle w = false ->
  isStarted w = false
  /\ timers w = ∅
  /\ (forall t, step (TimerFire t) w = None)
  /\ exists k t,
       tasks w !! k = Some t /\ lifecycle t = true
       /\ forall k' t', tasks w !! k' = Some t' -> lifecycle t' = true -> k' = k.
Proof.
  intros Hr Hidle.
  pose proof (SchedulerFacts.run_serial_lifecycle_inv humanInterval calculateDelay
                _ _ _ (SchedulerFacts.forJob_lifecycle_inv name imm) Hr)
    as (Hheld & Huniq & Hnone).
  destruct (not_idle _ Hidle) as (k & t & Hk & Hl).
  pose proof (Hnone _ _ Hk Hl) as Hj. unfold timers_held in Hheld. rewrite Hj in Hheld.
  unfold isStarted. rewrite Hj. split; [reflexivity|]. split; [exact Hheld|]. split.
  - intros t0. cbn. rewrite Hheld, lookup_empty. reflexivity.
  - exists k, t. split; [exact Hk|]. split; [exact Hl|].
    intros k' t' Hk' Hl'. eapply Huniq; eauto.
Qed.

(** X5: in a run in which [start()] and [stop()] are called one after the
    other, when the lookup of a [start()] settles the call completes, and
    the scheduler is started exactly if the job definition was found and its
    interval parses to a number other than zero: then one timer with that
    period is armed and [interval] is the definition's interval string; in
    every other case (job missing, lookup failed, interval not parsable) no
    timer is armed and [interval] is undefined, even if the scheduler was
    started before the call. *)
Theorem start_ends_started_iff_the_interval_parses name imm es w k r now w' :
  run_serial es (forJob name imm) = Some w ->
  tasks w !! k = Some StartAwaitFind ->
  step (FindOneSettles k r now) w = Some w' ->
  idle w' = true
  /\ (isStarted w' = true <->
      exists job i, r = Found job
                    /\ humanInterval (JobEntity.interval job) = Some (Num i) /\ i <> 0%Z)
  /\ (isStarted w' = true ->
      exists job i t tm,
        r = Found job /\ humanInterval (JobEntity.interval job) = Some (Num i)
        /\ timers w' = {[ t := tm ]} /\ period tm = i
        /\ interval (this w') = Some (JobEntity.interval job))
  /\ (isStarted w' = false -> timers w' = ∅ /\ interval (this w') = None).
Proof.
  intros Hr Hk Hs.
  pose proof (SchedulerFacts.run_serial_lifecycle_inv humanInterval calculateDelay
                _ _ _ (SchedulerFacts.forJob_lifecycle_inv name imm) Hr)
    as (Hheld & Huniq & Hnone).
  assert (Hst : interval_defined w = isStarted w).
  { eapply run_interval_defined; [|eapply SchedulerFacts.run_serial_run; exact Hr]. reflexivity. }
  assert (Hj : jobHandle (this w) = None) by (eapply Hnone; eauto).
  unfold timers_held in Hheld. rewrite Hj in Hheld.
  unfold interval_defined, isStarted in Hst. rewrite Hj in Hst.
  assert (Hi : interval (this w) = None) by (destruct (interval (this w)); [discriminate|reflexivity]).
  cbn in Hs. rewrite_scrutinee_in Hs Hk. injection Hs as <-.
  pose proof (start_resume_spec k r now (set_tasks (delete k) w)) as Hspec.
  cbn zeta in Hspec.
  remember (Scheduler.start_resume humanInterval calculateDelay k r now
              (set_tasks (delete k) w)) as w' eqn:Ew.
  clear Ew. destruct Hspec as (Htasks & _ & Hc).
  cbn in Htasks. split.
  { apply SchedulerFacts.idle_spec. intros k' t' Hk'. rewrite Htasks in Hk'.
    apply lookup_delete_Some in Hk' as [Hne Hk'].
    destruct (lifecycle t') eqn:Hl; [|reflexivity].
    exfalso. apply Hne. eapply Huniq; eauto. }
  unfold isStarted.
  destruct Hc as [(job & i & -> & Hparse & Hnz & Hh & Hint & Htm & _)|(Hno & Hthis & Htm & _)].
  - cbn in Htm. rewrite Hh, Htm, Hint, Hheld. split; [|split; [|discriminate]].
    + split; [eauto|reflexivity].
    + intros _. exists job, i, (fresh w). eexists.
      split; [reflexivity|]. split; [exact Hparse|]. split; [apply insert_empty|].
      split; reflexivity.
  - cbn in Hthis, Htm. rewrite Hthis, Htm. cbn. rewrite Hj, Hi, Hheld.
    split; [|split; [discriminate|split; reflexivity]].
    split; [discriminate|]. intros (job & i & -> & Hparse & Hnz). exfalso. eauto.
Qed.


(** ** Calls that overlap *)

Lemma launch_extends_trace n job w : exists later, trace (launch n job w) = later ++ trace w.
Proof.
  revert w. induction n as [|n IH]; intros w; cbn [launch]; [exists []; reflexivity|].
  destruct (IH (launch_one job w)) as [later ->]. cbn.
  exists (later ++ [OExecute (fresh w) FromTick job]). rewrite <- app_assoc. reflexivity.
Qed.

(** X6: [stop()] does not know of a tick that has fired and still waits
    for its job definition.  Called when nothing is pending, it resolves at
    once; when the tick's lookup then finds the job, the tick invokes the
    executor as if the scheduler were started, after [stop()] has resolved
    and although the scheduler is stopped. *)
Theorem tick_in_flight_outlives_stop w k job now :
  tasks w !! k = Some TickAwaitFind ->
  pendingExecutions (this w) = [] ->
  exists w1 w2,
    step CallStop w = Some w1
    /\ hd_error (trace w1) = Some (OReturn (fresh w) MStop (Fulfilled VUndefined))
    /\ isStarted w1 = false
    /\ step (FindOneSettles k (Found job) now) w1 = Some w2
    /\ (exists later, trace w2 = later ++ trace w1)
    /\ executor_invocations (trace w2)
       = Z.to_nat (numToExecute job) + executor_invocations (trace w)
    /\ length (pendingExecutions (this w2)) = Z.to_nat (numToExecute job)
    /\ isStarted w2 = false.
Proof.
  intros Hk Hp.
  destruct (call_stop_frame w) as (Hj & _ & _ & _ & _ & Hpen & _ & Htasks & Hhd & Hinv).
  cbn zeta in *. rewrite Hp in Htasks, Hpen.
  assert (Hk1 : tasks (call_stop w) !! k = Some TickAwaitFind) by (rewrite Htasks; exact Hk).
  assert (Hs : step (FindOneSettles k (Found job) now) (call_stop w)
               = Some (executeConcurrently_resume k (Found job)
                         (set_tasks (delete k) (call_stop w)))).
  { cbn [Scheduler.step]. rewrite_scrutinee Hk1. reflexivity. }
  destruct (SchedulerFacts.tick_found_invocations humanInterval calculateDelay _ _ _ _ _ Hk1 Hs)
    as [Hinv2 Hlen2].
  eexists _, _. split; [reflexivity|]. split; [exact (Hhd Hp)|].
  unfold isStarted. rewrite Hj. split; [reflexivity|]. split; [exact Hs|].
  split; [|split; [|split]].
  - cbn [executeConcurrently_resume].
    destruct (launch_extends_trace (Z.to_nat (numToExecute job)) job
      (emit (OLog (LDebug "execute job" (jobName (this (set_tasks (delete k) (call_stop w))))
                     [numToExecute job])) (set_tasks (delete k) (call_stop w)))) as [later Hl].
    cbn [trace emit]. rewrite Hl. cbn [trace emit set_tasks].
    exists (OReturn k MExecuteConcurrently (Fulfilled VUndefined) :: later
            ++ [OLog (LDebug "execute job" (jobName (this (set_tasks (delete k) (call_stop w))))
                        [numToExecute job])]).
    cbn. rewrite <- app_assoc. reflexivity.
  - rewrite Hinv2, Hinv. reflexivity.
  - rewrite Hlen2, Hpen. cbn. lia.
  - cbn [executeConcurrently_resume this emit].
    destruct (SchedulerFacts.launch_frame (Z.to_nat (numToExecute job)) job
      (emit (OLog (LDebug "execute job" (jobName (this (set_tasks (delete k) (call_stop w))))
                     [numToExecute job])) (set_tasks (delete k) (call_stop w))))
      as (_ & _ & _ & -> & _).
    cbn. rewrite Hj. reflexivity.
Qed.

(** X7: a [start()] called while another [start()] still waits for the job
    definition leaks a timer.  When both lookups find the job, each call
    arms a timer; the scheduler keeps the handle of the second only, so a
    later [stop()] clears that one and leaves the first armed: it goes on
    firing although the scheduler is stopped. *)
Theorem overlapping_starts_leak_a_timer w k1 k2 job i now1 now2 :
  tasks w !! k1 = Some StartAwaitFind ->
  tasks w !! k2 = Some StartAwaitFind ->
  k1 <> k2 ->
  humanInterval (JobEntity.interval job) = Some (Num i) ->
  i <> 0%Z ->
  exists w2 w3 tm,
    run [FindOneSettles k1 (Found job) now1; FindOneSettles k2 (Found job) now2] w = Some w2
    /\ jobHandle (this w2) = Some (S (fresh w))
    /\ timers w2 !! fresh w = Some tm
    /\ is_Some (timers w2 !! S (fresh w))
    /\ period tm = i
    /\ step CallStop w2 = Some w3
    /\ isStarted w3 = false
    /\ timers w3 !! fresh w = Some tm
    /\ is_Some (step (TimerFire (fresh w)) w3).
Proof.
  intros Hk1 Hk2 Hne Hparse Hnz.
  pose proof (start_resume_spec k1 (Found job) now1 (set_tasks (delete k1) w)) as Hspec1.
  cbn zeta in Hspec1.
  remember (Scheduler.start_resume humanInterval calculateDelay k1 (Found job) now1
              (set_tasks (delete k1) w)) as w1 eqn:Ew1.
  destruct Hspec1 as (Htasks1 & _ & Hc1).
  destruct Hc1 as [(job1 & i1 & [= <-] & Hp1 & _ & Hh1 & _ & Htm1 & Hf1 & _)|(Hno & _)];
    [|exfalso; eauto].
  rewrite Hparse in Hp1. injection Hp1 as <-. cbn in Htasks1, Htm1, Hf1.
  pose proof (start_resume_spec k2 (Found job) now2 (set_tasks (delete k2) w1)) as Hspec2.
  cbn zeta in Hspec2.
  remember (Scheduler.start_resume humanInterval calculateDelay k2 (Found job) now2
              (set_tasks (delete k2) w1)) as w2 eqn:Ew2.
  destruct Hspec2 as (_ & _ & Hc2).
  destruct Hc2 as [(job2 & i2 & [= <-] & Hp2 & _ & Hh2 & _ & Htm2 & _)|(Hno & _)];
    [|exfalso; eauto].
  cbn in Hh2, Htm2. rewrite Hf1 in Hh2, Htm2. rewrite Htm1 in Htm2.
  assert (Hk2' : tasks w1 !! k2 = Some StartAwaitFind).
  { rewrite Htasks1. rewrite lookup_delete_ne by exact Hne. exact Hk2. }
  destruct (call_stop_frame w2) as (Hj3 & _ & Ht3 & _). cbn zeta in Hj3, Ht3.
  rewrite Hh2 in Ht3.
  assert (Hl3 : timers (call_stop w2) !! fresh w
                = Some {| period := i;
                          delay := calculateDelay now1 i (immediate (this w)) job |}).
  { rewrite Ht3, Htm2. rewrite lookup_delete_ne by lia. rewrite lookup_insert_ne by lia.
    apply lookup_insert_eq. }
  exists w2, (call_stop w2). eexists. split.
  { cbn [Scheduler.run Scheduler.step]. rewrite_scrutinee Hk1. rewrite <- Ew1.
    rewrite_scrutinee Hk2'. rewrite <- Ew2. reflexivity. }
  split; [exact Hh2|]. split.
  { rewrite Htm2. rewrite lookup_insert_ne by lia. apply lookup_insert_eq. }
  split; [rewrite Htm2, lookup_insert_eq; eauto|].
  split; [reflexivity|]. split; [reflexivity|].
  unfold isStarted. rewrite Hj3. split; [reflexivity|]. split; [exact Hl3|].
  cbn [Scheduler.step]. rewrite_scrutinee Hl3. eauto.
Qed.

(** X8: a tick never launches more invocations than [concurrency]; and
    when [maxRunning] is positive, the invocations it launches together with
    those the job definition reports as running do not exceed [maxRunning]
    (unless more than that were running already, and then it launches
    none). *)
Theorem tick_stays_within_concurrency_and_maxRunning w k job now w' :
  tasks w !! k = Some TickAwaitFind ->
  step (FindOneSettles k (Found job) now) w = Some w' ->
  let launched :=
    Z.of_nat (executor_invocations (trace w') - executor_invocations (trace w)) in
  let running := default 0%Z (running job) in
  (launched <= Z.max 0 (concurrency job))%Z
  /\ ((0 < maxRunning job)%Z -> (running + launched <= Z.max running (maxRunning job))%Z)
  /\ ((0 < maxRunning job)%Z -> (maxRunning job < running)%Z -> launched = 0%Z).
Proof.
  intros Hk Hs.
  destruct (SchedulerFacts.tick_found_invocations humanInterval calculateDelay _ _ _ _ _ Hk Hs)
    as [-> _].
  cbn zeta. rewrite SchedulerFacts.numToExecute_eq.
  destruct (Z.leb_spec (maxRunning job) 0); split; try split; intros; lia.
Qed.

(** X9: each tick computes its number of invocations from the job
    definition it has read, not from what the scheduler itself has pending.
    Two ticks whose lookups both settle before the repository learns of
    their invocations launch that number each; with a positive [maxRunning]
    that is not yet reached and a [concurrency] that allows to reach it, the
    two together exceed [maxRunning]. *)
Theorem overlapping_ticks_exceed_maxRunning w k1 k2 job now1 now2 :
  tasks w !! k1 = Some TickAwaitFind ->
  tasks w !! k2 = Some TickAwaitFind ->
  k1 <> k2 ->
  exists w2,
    run [FindOneSettles k1 (Found job) now1; FindOneSettles k2 (Found job) now2] w = Some w2
    /\ executor_invocations (trace w2)
       = 2 * Z.to_nat (numToExecute job) + executor_invocations (trace w)
    /\ length (pendingExecutions (this w2))
       = 2 * Z.to_nat (numToExecute job) + length (pendingExecutions (this w))
    /\ ((0 < maxRunning job)%Z ->
        (default 0 (running job) < maxRunning job)%Z ->
        (maxRunning job - default 0 (running job) <= concurrency job)%Z ->
        (maxRunning job
         < default 0 (running job)
           + Z.of_nat (executor_invocations (trace w2) - executor_invocations (trace w)))%Z).
Proof.
  intros Hk1 Hk2 Hne.
  assert (Hs1 : step (FindOneSettles k1 (Found job) now1) w
                = Some (executeConcurrently_resume k1 (Found job) (set_tasks (delete k1) w))).
  { cbn [Scheduler.step]. rewrite_scrutinee Hk1. reflexivity. }
  destruct (SchedulerFacts.tick_found_invocations humanInterval calculateDelay _ _ _ _ _ Hk1 Hs1)
    as [Hinv1 Hlen1].
  set (w1 := executeConcurrently_resume k1 (Found job) (set_tasks (delete k1) w)) in *.
  assert (Hk2' : tasks w1 !! k2 = Some TickAwaitFind).
  { unfold w1. cbn [executeConcurrently_resume tasks emit].
    destruct (SchedulerFacts.launch_frame (Z.to_nat (numToExecute job)) job
      (emit (OLog (LDebug "execute job" (jobName (this (set_tasks (delete k1) w)))
                     [numToExecute job])) (set_tasks (delete k1) w)))
      as (_ & -> & _).
    cbn. rewrite lookup_delete_ne by exact Hne. exact Hk2. }
  assert (Hs2 : step (FindOneSettles k2 (Found job) now2) w1
                = Some (executeConcurrently_resume k2 (Found job) (set_tasks (delete k2) w1))).
  { cbn [Scheduler.step]. rewrite_scrutinee Hk2'. reflexivity. }
  destruct (SchedulerFacts.tick_found_invocations humanInterval calculateDelay _ _ _ _ _ Hk2' Hs2)
    as [Hinv2 Hlen2].
  eexists. split.
  { cbn [Scheduler.run]. rewrite Hs1. fold w1. rewrite Hs2. reflexivity. }
  rewrite Hinv2, Hinv1, Hlen2, Hlen1. split; [lia|]. split; [lia|].
  intros Hm Hr Hc. rewrite SchedulerFacts.numToExecute_eq.
  destruct (Z.leb_spec (maxRunning job) 0); lia.
Qed.

(** X10: an error of the lookup of the job definition never escapes
    [executeConcurrently()] nor [executeOnce()]: it is counted once and
    logged by [handleUnexpectedError], the promise of the call is fulfilled
    ([executeOnce()] with status [failed]), the executor is not invoked, and
    the timer stays armed, so the next tick fires as before. *)
Theorem lookup_failure_is_counted_and_contained w k e now :
  (tasks w !! k = Some TickAwaitFind ->
   exists w',
     step (FindOneSettles k (FindFails e) now) w = Some w'
     /\ trace w' =
          OReturn k MExecuteConcurrently (Fulfilled VUndefined)
          :: OLog (LError "an unexpected error occurred while running job" executeJob
                     (jobName (this w)) e)
          :: trace w
     /\ getUnexpectedErrorCount w' = S (getUnexpectedErrorCount w)
     /\ pendingExecutions (this w') = pendingExecutions (this w)
     /\ execs w' = execs w /\ timers w' = timers w
     /\ jobHandle (this w') = jobHandle (this w)
     /\ forall t, is_Some (step (TimerFire t) w') <-> is_Some (step (TimerFire t) w))
  /\ (tasks w !! k = Some OnceAwaitFind ->
      exists w',
        step (FindOneSettles k (FindFails e) now) w = Some w'
        /\ trace w' =
             OReturn k MExecuteOnce (Fulfilled (VResult {| status := failed |}))
             :: OLog (LError "an unexpected error occurred while running job" executeJob
                        (jobName (this w)) e)
             :: trace w
        /\ getUnexpectedErrorCount w' = S (getUnexpectedErrorCount w)
        /\ pendingExecutions (this w') = pendingExecutions (this w)
        /\ execs w' = execs w /\ timers w' = timers w
        /\ jobHandle (this w') = jobHandle (this w)).
Proof.
  split; intros Hk; eexists; (split; [cbn [Scheduler.step]; rewrite_scrutinee Hk; reflexivity|]);
    cbn; repeat (split; [reflexivity|]); try reflexivity.
  intros t.
  match goal with |- context [match ?x with _ => _ end] => destruct x end;
    split; intros [? [=]]; eauto.
Qed.


(** ** [start()] waits for what is pending *)



(** ** [executeOnce()] *)

(** X12: [executeOnce()] invokes the executor exactly once with the job
    definition it has read, whatever [concurrency], [maxRunning] and
    [running] say and whether or not the scheduler is started, and resolves
    with the executor's result; it changes no field of the scheduler (its
    promise is not put in [pendingExecutions]) and no timer. *)
Theorem executeOnce_invokes_the_executor_once w job now r :
  exists w',
    run [CallExecuteOnce; FindOneSettles (fresh w) (Found job) now;
         ExecutorSettles (S (fresh w)) (Resolves r)] w = Some w'
    /\ trace w'
       = [OReturn (fresh w) MExecuteOnce (Fulfilled (VResult r));
          OSettled (S (fresh w)) (Resolves r);
          OExecute (S (fresh w)) (FromOnce (fresh w)) job;
          OFindOne (fresh w); OCall (fresh w) MExecuteOnce] ++ trace w
    /\ executor_invocations (trace w') = S (executor_invocations (trace w))
    /\ this w' = this w
    /\ timers w' = timers w.
Proof.
  assert (Hk : tasks (call_executeOnce w) !! fresh w = Some OnceAwaitFind)
    by apply lookup_insert_eq.
  set (w1 := executeOnce_resume (fresh w) (Found job) (set_tasks (delete (fresh w))
                                                         (call_executeOnce w))).
  assert (Hp : execs w1 !! S (fresh w) = Some (FromOnce (fresh w))) by apply lookup_insert_eq.
  eexists. split.
  { cbn [Scheduler.run Scheduler.step]. rewrite_scrutinee Hk. fold w1.
    rewrite_scrutinee Hp. reflexivity. }
  cbn. split; [reflexivity|]. split; [|split; reflexivity].
  rewrite !SchedulerFacts.executor_invocations_cons. reflexivity.
Qed.

End Facts.

(** ** The theorems at concrete inputs *)

Lemma pendingExecutions_are_the_unsettled_tick_invocations_witness :
  let es := [CallStart; FindOneSettles 0 (Found Samples.job) 0; TimerFire 1;
             FindOneSettles 2 (Found Samples.job) 0] in
  let w := Samples.ticked in
  Samples.run es (forJob "j" false) = Some w
  /\ pendingExecutions (this w) = [3]
  /\ (NoDup (pendingExecutions (this w))
      /\ (forall p, p ∈ pendingExecutions (this w)
            <-> (exists job, OExecute p FromTick job ∈ trace w)
                /\ forall out, OSettled p out ∉ trace w)
      /\ (forall p k job, OExecute p (FromOnce k) job ∈ trace w ->
                          p ∉ pendingExecutions (this w))).
Proof.
  intros es w.
  assert (H1 : Samples.run es (forJob "j" false) = Some w) by (vm_compute; reflexivity).
  assert (H2 : pendingExecutions (this w) = [3]) by (vm_compute; reflexivity).
  exact (conj H1 (conj H2
           (pendingExecutions_are_the_unsettled_tick_invocations
              Samples.humanInterval Samples.calculateDelay "j" false es w H1))).
Defined.

Lemma settled_tick_invocation_leaves_pendingExecutions_witness :
  let es := [CallStart; FindOneSettles 0 (Found Samples.job) 0; TimerFire 1;
             FindOneSettles 2 (Found Samples.job) 0] in
  let w := Samples.ticked in
  let out := Rejects (OtherError "handler failed") in
  Samples.run es (forJob "j" false) = Some w
  /\ execs w !! 3 = Some FromTick
  /\ exists w',
       Samples.step (ExecutorSettles 3 out) w = Some w'
       /\ 3 ∈ pendingExecutions (this w)
       /\ (3 ∉ pendingExecutions (this w'))
       /\ (forall q, q <> 3 ->
             (q ∈ pendingExecutions (this w') <-> q ∈ pendingExecutions (this w)))
       /\ S (length (pendingExecutions (this w'))) = length (pendingExecutions (this w))
       /\ getUnexpectedErrorCount w'
          = (if is_rejection out then 1 else 0) + getUnexpectedErrorCount w
       /\ jobHandle (this w') = jobHandle (this w)
       /\ timers w' = timers w /\ tasks w' = tasks w
       /\ (forall k m c, OReturn k m c ∈ trace w' -> OReturn k m c ∈ trace w).
Proof.
  intros es w out.
  assert (H1 : Samples.run es (forJob "j" false) = Some w) by (vm_compute; reflexivity).
  assert (H2 : execs w !! 3 = Some FromTick) by (vm_compute; reflexivity).
  exact (conj H1 (conj H2
           (settled_tick_invocation_leaves_pendingExecutions
              Samples.humanInterval Samples.calculateDelay "j" false es w 3 out H1 H2))).
Defined.


Lemma no_timer_while_start_or_stop_is_in_progress_witness :
  let w := Samples.starting in
  Samples.run_serial [CallStart] (forJob "j" false) = Some w
  /\ idle w = false
  /\ (isStarted w = false
      /\ timers w = ∅
      /\ (forall t, Samples.step (TimerFire t) w = None)
      /\ exists k t,
           tasks w !! k = Some t /\ lifecycle t = true
           /\ forall k' t', tasks w !! k' = Some t' -> lifecycle t' = true -> k' = k).
Proof.
  intros w.
  assert (H1 : Samples.run_serial [CallStart] (forJob "j" false) = Some w)
    by (vm_compute; reflexivity).
  assert (H2 : idle w = false) by (vm_compute; reflexivity).
  exact (conj H1 (conj H2
           (no_timer_while_start_or_stop_is_in_progress
              Samples.humanInterval Samples.calculateDelay "j" false [CallStart] w H1 H2))).
Defined.

Lemma start_ends_started_iff_the_interval_parses_witness :
  let w := Samples.starting in
  let w' := Samples.started in
  let r := Found Samples.job in
  Samples.run_serial [CallStart] (forJob "j" false) = Some w
  /\ tasks w !! 0 = Some StartAwaitFind
  /\ Samples.step (FindOneSettles 0 r 0) w = Some w'
  /\ isStarted w' = true
  /\ (idle w' = true
      /\ (isStarted w' = true <->
          exists job i, r = Found job
                        /\ Samples.humanInterval (JobEntity.interval job) = Some (Num i)
                        /\ i <> 0%Z)
      /\ (isStarted w' = true ->
          exists job i t tm,
            r = Found job /\ Samples.humanInterval (JobEntity.interval job) = Some (Num i)
            /\ timers w' = {[ t := tm ]} /\ period tm = i
            /\ interval (this w') = Some (JobEntity.interval job))
      /\ (isStarted w' = false -> timers w' = ∅ /\ interval (this w') = None)).
Proof.
  intros w w' r.
  assert (H1 : Samples.run_serial [CallStart] (forJob "j" false) = Some w)
    by (vm_compute; reflexivity).
  assert (H2 : tasks w !! 0 = Some StartAwaitFind) by (vm_compute; reflexivity).
  assert (H3 : Samples.step (FindOneSettles 0 r 0) w = Some w') by (vm_compute; reflexivity).
  assert (H4 : isStarted w' = true) by (vm_compute; reflexivity).
  exact (conj H1 (conj H2 (conj H3 (conj H4
           (start_ends_started_iff_the_interval_parses
              Samples.humanInterval Samples.calculateDelay "j" false [CallStart] w 0 r 0 w'
              H1 H2 H3))))).
Defined.

Lemma tick_in_flight_outlives_stop_witness :
  let w := Samples.ticking in
  let job := Samples.job in
  tasks w !! 2 = Some TickAwaitFind
  /\ pendingExecutions (this w) = []
  /\ Z.to_nat (numToExecute job) = 1
  /\ exists w1 w2,
       Samples.step CallStop w = Some w1
       /\ hd_error (trace w1) = Some (OReturn (fresh w) MStop (Fulfilled VUndefined))
       /\ isStarted w1 = false
       /\ Samples.step (FindOneSettles 2 (Found job) 0) w1 = Some w2
       /\ (exists later, trace w2 = later ++ trace w1)
       /\ executor_invocations (trace w2)
          = Z.to_nat (numToExecute job) + executor_invocations (trace w)
       /\ length (pendingExecutions (this w2)) = Z.to_nat (numToExecute job)
       /\ isStarted w2 = false.
Proof.
  intros w job.
  assert (H1 : tasks w !! 2 = Some TickAwaitFind) by (vm_compute; reflexivity).
  assert (H2 : pendingExecutions (this w) = []) by (vm_compute; reflexivity).
  assert (H3 : Z.to_nat (numToExecute job) = 1) by (vm_compute; reflexivity).
  exact (conj H1 (conj H2 (conj H3
           (tick_in_flight_outlives_stop
              Samples.humanInterval Samples.calculateDelay w 2 job 0 H1 H2)))).
Defined.

Lemma overlapping_starts_leak_a_timer_witness :
  let w := Samples.after [CallStart; CallStart] in
  let job := Samples.job in
  tasks w !! 0 = Some StartAwaitFind
  /\ tasks w !! 1 = Some StartAwaitFind
  /\ 0 <> 1
  /\ Samples.humanInterval (JobEntity.interval job) = Some (Num 60000)
  /\ 60000%Z <> 0%Z
  /\ exists w2 w3 tm,
       Samples.run [FindOneSettles 0 (Found job) 0; FindOneSettles 1 (Found job) 5] w = Some w2
       /\ jobHandle (this w2) = Some (S (fresh w))
       /\ timers w2 !! fresh w = Some tm
       /\ is_Some (timers w2 !! S (fresh w))
       /\ period tm = 60000%Z
       /\ Samples.step CallStop w2 = Some w3
       /\ isStarted w3 = false
       /\ timers w3 !! fresh w = Some tm
       /\ is_Some (Samples.step (TimerFire (fresh w)) w3).
Proof.
  intros w job.
  assert (H1 : tasks w !! 0 = Some StartAwaitFind) by (vm_compute; reflexivity).
  assert (H2 : tasks w !! 1 = Some StartAwaitFind) by (vm_compute; reflexivity).
  assert (H3 : 0 <> 1) by discriminate.
  assert (H4 : Samples.humanInterval (JobEntity.interval job) = Some (Num 60000))
    by (vm_compute; reflexivity).
  assert (H5 : 60000%Z <> 0%Z) by discriminate.
  exact (conj H1 (conj H2 (conj H3 (conj H4 (conj H5
           (overlapping_starts_leak_a_timer
              Samples.humanInterval Samples.calculateDelay w 0 1 job 60000 0 5
              H1 H2 H3 H4 H5)))))).
Defined.

Lemma tick_stays_within_concurrency_and_maxRunning_witness :
  let w := Samples.ticking in
  let w' := Samples.ticked in
  let job := Samples.job in
  tasks w !! 2 = Some TickAwaitFind
  /\ Samples.step (FindOneSettles 2 (Found job) 0) w = Some w'
  /\ (let launched :=
        Z.of_nat (executor_invocations (trace w') - executor_invocations (trace w)) in
      let running := default 0%Z (running job) in
      (launched <= Z.max 0 (concurrency job))%Z
      /\ ((0 < maxRunning job)%Z -> (running + launched <= Z.max running (maxRunning job))%Z)
      /\ ((0 < maxRunning job)%Z -> (maxRunning job < running)%Z -> launched = 0%Z)).
Proof.
  intros w w' job.
  assert (H1 : tasks w !! 2 = Some TickAwaitFind) by (vm_compute; reflexivity).
  assert (H2 : Samples.step (FindOneSettles 2 (Found job) 0) w = Some w')
    by (vm_compute; reflexivity).
  exact (conj H1 (conj H2
           (tick_stays_within_concurrency_and_maxRunning
              Samples.humanInterval Samples.calculateDelay w 2 job 0 w' H1 H2))).
Defined.

Lemma overlapping_ticks_exceed_maxRunning_witness :
  let w := Samples.after [CallStart; FindOneSettles 0 (Found Samples.job) 0;
                          TimerFire 1; TimerFire 1] in
  let job := Samples.job in
  tasks w !! 2 = Some TickAwaitFind
  /\ tasks w !! 3 = Some TickAwaitFind
  /\ 2 <> 3
  /\ exists w2,
       Samples.run [FindOneSettles 2 (Found job) 0; FindOneSettles 3 (Found job) 0] w = Some w2
       /\ executor_invocations (trace w2)
          = 2 * Z.to_nat (numToExecute job) + executor_invocations (trace w)
       /\ length (pendingExecutions (this w2))
          = 2 * Z.to_nat (numToExecute job) + length (pendingExecutions (this w))
       /\ ((0 < maxRunning job)%Z ->
           (default 0 (running job) < maxRunning job)%Z ->
           (maxRunning job - default 0 (running job) <= concurrency job)%Z ->
           (maxRunning job
            < default 0 (running job)
              + Z.of_nat (executor_invocations (trace w2) - executor_invocations (trace w)))%Z).
Proof.
  intros w job.
  assert (H1 : tasks w !! 2 = Some TickAwaitFind) by (vm_compute; reflexivity).
  assert (H2 : tasks w !! 3 = Some TickAwaitFind) by (vm_compute; reflexivity).
  assert (H3 : 2 <> 3) by discriminate.
  exact (conj H1 (conj H2 (conj H3
           (overlapping_ticks_exceed_maxRunning
              Samples.humanInterval Samples.calculateDelay w 2 3 job 0 0 H1 H2 H3)))).
Defined.

Lemma lookup_failure_is_counted_and_contained_witness :
  let e := OtherError "store unavailable" in
  (tasks Samples.ticking !! 2 = Some TickAwaitFind
   /\ exists w',
        Samples.step (FindOneSettles 2 (FindFails e) 0) Samples.ticking = Some w'
        /\ getUnexpectedErrorCount w' = S (getUnexpectedErrorCount Samples.ticking)
        /\ timers w' = timers Samples.ticking)
  /\ (tasks Samples.once !! 0 = Some OnceAwaitFind
      /\ exists w',
           Samples.step (FindOneSettles 0 (FindFails e) 0) Samples.once = Some w'
           /\ getUnexpectedErrorCount w' = S (getUnexpectedErrorCount Samples.once)
           /\ execs w' = execs Samples.once).
Proof.
  intros e.
  assert (H1 : tasks Samples.ticking !! 2 = Some TickAwaitFind) by (vm_compute; reflexivity).
  assert (H2 : tasks Samples.once !! 0 = Some OnceAwaitFind) by (vm_compute; reflexivity).
  destruct (lookup_failure_is_counted_and_contained
              Samples.humanInterval Samples.calculateDelay Samples.ticking 2 e 0) as [Ht _].
  destruct (lookup_failure_is_counted_and_contained
              Samples.humanInterval Samples.calculateDelay Samples.once 0 e 0) as [_ Ho].
  destruct (Ht H1) as (w1 & Hs1 & _ & Hc1 & _ & _ & Htm1 & _).
  destruct (Ho H2) as (w2 & Hs2 & _ & Hc2 & _ & He2 & _).
  split; (split; [assumption|]).
  - exists w1. repeat split; assumption.
  - exists w2. repeat split; assumption.
Defined.


End RunFacts.
(** * Properties of getJobDescription *)
Module DescriptionFacts.

Import JobEntity Scheduler Bookkeeping.

Section Facts.

Variable humanInterval : string -> option JsNumber.
Variable calculateDelay : Z -> Z -> bool -> JobEntity.t -> Z.
Variable D : Type.
Variable jobDescriptionFromEntity : JobEntity.t -> D.

Local Abbreviation run := (Scheduler.run humanInterval calculateDelay).
Local Abbreviation getJobDescription :=
  (Description.getJobDescription D jobDescriptionFromEntity).

(** X13: at every point of every run, [getJobDescription()] reports a
    [schedulerStatus] exactly when the scheduler is started: the status
    carries the interval string the scheduler was started with and the
    [running] count of the job definition just read; on a scheduler that is
    not started the status is [undefined].  The description is built from
    the definition just read and the scheduler is left as it was.  If the
    job is missing, the error jobNotFound is logged and [undefined] is
    returned; an error of the lookup rejects the call. *)
Theorem getJobDescription_reports_status_iff_started name imm es w :
  run es (forJob name imm) = Some w ->
  (forall job,
     exists d,
       getJobDescription (Found job) w = (Description.Describes (Some d), w)
       /\ Description.fromEntity d = jobDescriptionFromEntity job
       /\ (isStarted w = false -> Description.schedulerStatus d = None)
       /\ (isStarted w = true ->
           exists i,
             interval (this w) = Some i
             /\ Description.schedulerStatus d
                = Some {| Description.interval := i;
                          Description.running := running job |}))
  /\ (exists w',
        getJobDescription Missing w = (Description.Describes None, w')
        /\ trace w' = OLog (LError "get job description - job not found" scheduleJob
                              (jobName (this w)) jobNotFound) :: trace w
        /\ this w' = this w /\ timers w' = timers w /\ tasks w' = tasks w
        /\ execs w' = execs w)
  /\ (forall e, getJobDescription (FindFails e) w = (Description.DescribeFails e, w)).
Proof.
  intros Hr.
  assert (Hst : interval_defined w = isStarted w).
  { eapply RunFacts.run_interval_defined; [|exact Hr]. reflexivity. }
  unfold interval_defined in Hst. split; [|split].
  - intros job. eexists. split; [reflexivity|]. cbn. split; [reflexivity|].
    destruct (interval (this w)) as [i|]; rewrite <- Hst; split; try discriminate; eauto.
  - eexists. split; [reflexivity|]. cbn. repeat split.
  - intros e. reflexivity.
Qed.

End Facts.

Lemma getJobDescription_reports_status_iff_started_witness :
  let es := [CallStart; FindOneSettles 0 (Found Samples.job) 0] in
  let w := Samples.started in
  let describe := Description.getJobDescription Z JobEntity.concurrency in
  Samples.run es (forJob "j" false) = Some w
  /\ isStarted w = true
  /\ snd (describe (Found Samples.job) w) = w
  /\ ((forall job,
         exists d,
           describe (Found job) w = (Description.Describes (Some d), w)
           /\ Description.fromEntity d = JobEntity.concurrency job
           /\ (isStarted w = false -> Description.schedulerStatus d = None)
           /\ (isStarted w = true ->
               exists i,
                 interval (this w) = Some i
                 /\ Description.schedulerStatus d
                    = Some {| Description.interval := i;
                              Description.running := running job |}))
      /\ (exists w',
            describe Missing w = (Description.Describes None, w')
            /\ trace w' = OLog (LError "get job description - job not found" scheduleJob
                                  (jobName (this w)) jobNotFound) :: trace w
            /\ this w' = this w /\ timers w' = timers w /\ tasks w' = tasks w
            /\ execs w' = execs w)
      /\ (forall e, describe (FindFails e) w = (Description.DescribeFails e, w))).
Proof.
  intros es w describe.
  assert (H1 : Samples.run es (forJob "j" false) = Some w) by (vm_compute; reflexivity).
  assert (H2 : isStarted w = true) by (vm_compute; reflexivity).
  assert (H3 : snd (describe (Found Samples.job) w) = w) by reflexivity.
  exact (conj H1 (conj H2 (conj H3
           (getJobDescription_reports_status_iff_started
              Samples.humanInterval Samples.calculateDelay Z JobEntity.concurrency
              "j" false es w H1)))).
Defined.

End DescriptionFacts.

(** * Properties of the schedule ping *)
Module PingFacts.

Import Effects Process Ping.

(** What one round of pinging and cleaning can change: the activity flag,
    the entries and the log. *)
Lemma pingAndClean_frame env st r st' :
  pingAndClean env st = (r, st') ->
  handle (fst st') = handle (fst st)
  /\ scheduleId (fst st') = scheduleId (fst st)
  /\ scheduleName (fst st') = scheduleName (fst st)
  /\ interval (fst st') = interval (fst st)
  /\ manager (snd st') = manager (snd st)
  /\ uuids (snd st') = uuids (snd st)
  /\ nextId (snd st') = nextId (snd st)
  /\ exists new,
       effects (snd st') = new ++ ECall (IsActiveSchedule (scheduleName (fst st))) :: effects (snd st)
       /\ forall e, e ∈ new ->
            e = ECall StartAllJobs \/ e = ECall (PingSchedule (scheduleId (fst st)))
            \/ exists t, e = ECall (DeleteDead (scheduleName (fst st)) t).
Proof.
  destruct st as [p s]. unfold pingAndClean, proc, zoom, isActiveSchedule, ping, deleteDead,
    call, log, set_schedules, set_wasActive, when, modify, gets, bind, ret, throw. cbn.
  destruct (fails env (IsActiveSchedule (scheduleName p))); cbn.
  { intros [= <- <-]. cbn. repeat split. exists []. split; [reflexivity|]. set_solver. }
  destruct (active env && negb (wasActive p)); cbn.
  - destruct (fails env StartAllJobs); cbn.
    { intros [= <- <-]. cbn. repeat split. eexists [_]. split; [reflexivity|]. set_solver. }
    destruct (fails env (PingSchedule (scheduleId p))); cbn.
    { intros [= <- <-]. cbn. repeat split. eexists [_; _]. split; [reflexivity|]. set_solver. }
    destruct (fails env (DeleteDead _ _)); cbn; intros [= <- <-]; cbn; repeat split;
      eexists [_; _; _]; (split; [reflexivity|]); set_solver.
  - destruct (fails env (PingSchedule (scheduleId p))); cbn.
    { intros [= <- <-]. cbn. repeat split. eexists [_]. split; [reflexivity|]. set_solver. }
    destruct (fails env (DeleteDead _ _)); cbn; intros [= <- <-]; cbn; repeat split;
      eexists [_; _]; (split; [reflexivity|]); set_solver.
Qed.

(** The entry of this schedule survives a round, if it was alive. *)
Lemma pingAndClean_keeps_entry env st r st' :
  pingAndClean env st = (r, st') ->
  (0 <= interval (fst st))%Z ->
  (exists e, e ∈ schedules (snd st) /\ Process.scheduleId e = scheduleId (fst st)
             /\ (now env - 2 * interval (fst st) <= lastAlive e)%Z) ->
  exists e, e ∈ schedules (snd st') /\ Process.scheduleId e = scheduleId (fst st).
Proof.
  destruct st as [p s]. unfold pingAndClean, proc, zoom, isActiveSchedule, ping, deleteDead,
    call, log, set_schedules, set_wasActive, when, modify, gets, bind, ret, throw. cbn.
  intros Hrun Hi (e & Hin & Hid & Hal).
  assert (Hping : exists e', e' ∈ List.map
            (fun e0 => if bool_decide (Process.scheduleId e0 = scheduleId p)
                       then {| Process.scheduleId := Process.scheduleId e0; name := name e0;
                               lastAlive := now env |}
                       else e0) (schedules s)
            /\ Process.scheduleId e' = scheduleId p /\ lastAlive e' = now env).
  { eexists. split; [apply list_elem_of_In, in_map, list_elem_of_In, Hin|].
    rewrite bool_decide_eq_true_2 by assumption. cbn. split; [assumption|reflexivity]. }
  assert (Hclean : forall l, (exists e', e' ∈ l /\ Process.scheduleId e' = scheduleId p
                                         /\ lastAlive e' = now env) ->
            exists e', e' ∈ List.filter
              (fun e0 => negb (bool_decide (name e0 = scheduleName p)
                               && (lastAlive e0 <? now env - 2 * interval p)%Z)) l
              /\ Process.scheduleId e' = scheduleId p).
  { intros l (e' & Hin' & Hid' & Hal'). exists e'. split; [|assumption].
    apply list_elem_of_In, filter_In. split; [apply list_elem_of_In, Hin'|].
    rewrite Hal'. destruct (Z.ltb_spec (now env) (now env - 2 * interval p)); [lia|].
    rewrite andb_false_r. reflexivity. }
  assert (Hold : exists e', e' ∈ schedules s /\ Process.scheduleId e' = scheduleId p) by eauto.
  assert (Hping' : exists e', e' ∈ List.map
            (fun e0 => if bool_decide (Process.scheduleId e0 = scheduleId p)
                       then {| Process.scheduleId := Process.scheduleId e0; name := name e0;
                               lastAlive := now env |}
                       else e0) (schedules s)
            /\ Process.scheduleId e' = scheduleId p).
  { destruct Hping as (e' & ? & ? & ?). eauto. }
  revert Hrun.
  destruct (fails env (IsActiveSchedule (scheduleName p))); cbn; [intros [= <- <-]; exact Hold|].
  destruct (active env && negb (wasActive p)); cbn.
  - destruct (fails env StartAllJobs); cbn; [intros [= <- <-]; exact Hold|].
    destruct (fails env (PingSchedule (scheduleId p))); cbn; [intros [= <- <-]; exact Hold|].
    destruct (fails env (DeleteDead _ _)); cbn; intros [= <- <-]; cbn; auto.
  - destruct (fails env (PingSchedule (scheduleId p))); cbn; [intros [= <- <-]; exact Hold|].
    destruct (fails env (DeleteDead _ _)); cbn; intros [= <- <-]; cbn; auto.
Qed.

(** A successful round made all its calls without a failure; a failing one
    throws the error of the call that failed. *)
Lemma pingAndClean_throws env st e st' :
  pingAndClean env st = (Throw e, st') ->
  exists c, fails env c = Some e /\ hd_error (effects (snd st')) = Some (ECall c).
Proof.
  destruct st as [p s]. unfold pingAndClean, proc, zoom, isActiveSchedule, ping, deleteDead,
    call, log, set_schedules, set_wasActive, when, modify, gets, bind, ret, throw. cbn.
  destruct (fails env (IsActiveSchedule (scheduleName p))) eqn:E1; cbn.
  { intros [= <- <-]. eauto. }
  destruct (active env && negb (wasActive p)); cbn.
  - destruct (fails env StartAllJobs) eqn:E2; cbn; [intros [= <- <-]; eauto|].
    destruct (fails env (PingSchedule (scheduleId p))) eqn:E3; cbn; [intros [= <- <-]; eauto|].
    destruct (fails env (DeleteDead _ _)) eqn:E4; cbn; [intros [= <- <-]; eauto|discriminate].
  - destruct (fails env (PingSchedule (scheduleId p))) eqn:E3; cbn; [intros [= <- <-]; eauto|].
    destruct (fails env (DeleteDead _ _)) eqn:E4; cbn; [intros [= <- <-]; eauto|discriminate].
Qed.

Lemma tick_returns env st :
  exists st',
    tick env st = (Ok tt, st')
    /\ handle (fst st') = handle (fst st)
    /\ ticks_begun (effects (snd st')) = S (ticks_begun (effects (snd st)))
    /\ match pingAndClean env st with
       | (Ok _, st1) => st' = st1
       | (Throw e, st1) =>
           fst st' = fst st1
           /\ effects (snd st')
              = EError "Pinging or cleaning the Schedules repository failed" internal e
                :: effects (snd st1)
           /\ exists c, fails env c = Some e /\ hd_error (effects (snd st1)) = Some (ECall c)
       end.
Proof.
  unfold tick, try_catch.
  destruct (pingAndClean env st) as [[[]|e] st1] eqn:Hp;
    pose proof (pingAndClean_frame _ _ _ _ Hp) as (Hh & _ & _ & _ & _ & _ & _ & new & Hn & Hforms).
  all: assert (Hcount : ticks_begun (new ++ ECall (IsActiveSchedule (scheduleName (fst st)))
                                       :: effects (snd st))
                        = S (ticks_begun (effects (snd st)))).
  1,3: unfold ticks_begun; rewrite List.filter_app, length_app; cbn;
       replace (List.filter _ new) with (@nil Effect); [cbn; reflexivity|];
       symmetry; clear Hn; induction new as [|x new IH]; [reflexivity|]; cbn;
       assert (Hx : x ∈ x :: new) by set_solver;
       destruct (Hforms x Hx) as [->|[->|[? ->]]]; cbn; apply IH; intros; apply Hforms; set_solver.
  - exists st1. rewrite Hn. repeat split; assumption.
  - eexists. split; [reflexivity|]. destruct st1 as [p1 s1]. cbn in *.
    rewrite Hn. repeat split; try assumption.
    destruct (pingAndClean_throws _ _ _ _ Hp) as (c & Hc & Hhd). cbn in Hhd.
    rewrite Hn in Hhd. exists c. split; assumption.
Qed.

(** C8: a tick of the schedule ping never throws.  Whatever calls of the
    store fail, the tick returns normally; an error raised by its steps is
    caught and logged with the message "Pinging or cleaning the Schedules
    repository failed"; the timer stays armed, so the loop goes on: each
    firing of the timer begins a further tick, and the loop returns
    normally. *)
Theorem ping_tick_never_throws :
  (forall env st,
     exists st',
       tick env st = (Ok tt, st')
       /\ handle (fst st') = handle (fst st)
       /\ match pingAndClean env st with
          | (Ok _, st1) => st' = st1
          | (Throw e, st1) =>
              fst st' = fst st1
              /\ effects (snd st')
                 = EError "Pinging or cleaning the Schedules repository failed" internal e
                   :: effects (snd st1)
              /\ exists c, fails env c = Some e /\ hd_error (effects (snd st1)) = Some (ECall c)
          end)
  /\ (forall envs st t,
        handle (fst st) = Some t ->
        exists st',
          loop envs st = (Ok tt, st')
          /\ handle (fst st') = Some t
          /\ ticks_begun (effects (snd st'))
             = length envs + ticks_begun (effects (snd st))).
Proof.
  split.
  - intros env st. destruct (tick_returns env st) as (st' & H1 & H2 & _ & H3). eauto.
  - intros envs. induction envs as [|env envs IH]; intros st t Ht; cbn.
    + exists st. repeat split. assumption.
    + unfold bind, gets. cbn. rewrite Ht.
      destruct (tick_returns env st) as (st1 & H1 & H2 & H3 & _). rewrite H1.
      destruct (IH st1 t) as (st' & Hl & Hh & Hc); [congruence|].
      exists st'. rewrite Hc, H3. repeat split; try assumption. lia.
Qed.

Lemma ping_tick_never_throws_witness :
  let st := snd (start (MongoSamples.calm 0) MongoSamples.test_ping) in
  let envs := [MongoSamples.ping_rejected 1000; MongoSamples.calm 2000; MongoSamples.ping_rejected 3000] in
  handle (fst st) = Some 0
  /\ exists st',
       loop envs st = (Ok tt, st')
       /\ handle (fst st') = Some 0
       /\ ticks_begun (effects (snd st')) = 3 + ticks_begun (effects (snd st)).
Proof.
  intros st envs.
  assert (H : handle (fst st) = Some 0) by (vm_compute; reflexivity).
  exact (conj H (proj2 ping_tick_never_throws envs st 0 H)).
Defined.

(** The test "handles mongo errors": [isActiveSchedule] answers true,
    [ping] is rejected; after [start()], [ping] has been called once and the
    logger has received the message, the error type and the error. *)
Example ping_handles_mongo_errors :
  let r := start (MongoSamples.ping_rejected 0) MongoSamples.test_ping in
  fst r = Ok tt
  /\ rev (effects (snd (snd r))) =
       [ECall (IsActiveSchedule "schedule"); ECall StartAllJobs; ECall (PingSchedule "123");
        EError "Pinging or cleaning the Schedules repository failed" internal
          (OtherError "I am an error that should be caught");
        ECall (SetInterval 0 1000)]
  /\ handle (fst (snd r)) = Some 0.
Proof. vm_compute. repeat split. Qed.

(** The test "starts, pings, cleans and stops": after [start()] the jobs
    have been started once and [ping] called once; a second tick pings again
    without starting the jobs again; [stop()] deletes the entry and clears
    the timer. *)
Example ping_starts_pings_cleans_and_stops :
  let run :=
    start (MongoSamples.calm 0) ;! loop [MongoSamples.calm 1000] ;! stop (MongoSamples.calm 1100) in
  let r := run MongoSamples.test_ping in
  fst r = Ok tt
  /\ rev (effects (snd (snd r))) =
       [ECall (IsActiveSchedule "schedule"); ECall StartAllJobs; ECall (PingSchedule "123");
        ECall (DeleteDead "schedule" (-2000)); ECall (SetInterval 0 1000);
        ECall (IsActiveSchedule "schedule"); ECall (PingSchedule "123");
        ECall (DeleteDead "schedule" (-1000));
        ECall (DeleteOne "123"); ECall (ClearInterval 0)]
  /\ handle (fst (snd r)) = None.
Proof. vm_compute. repeat split. Qed.

End PingFacts.

(** * Properties of connect and MongoSchedule *)
Module MongoFacts.

Import Effects Process Mongo MongoSamples.

Lemma connect_existing env opts logger s c :
  manager s !! connectionName = Some c ->
  connect env opts logger s = (Ok c, s).
Proof.
  intros Hc. unfold connect, bind, gets, isConnected, getConnection. cbn.
  rewrite Hc. rewrite bool_decide_eq_true_2 by eauto. cbn. unfold bind, gets. cbn.
  rewrite Hc. reflexivity.
Qed.

Lemma connect_registers env opts logger s c s' :
  connect env opts logger s = (Ok c, s') ->
  manager s' !! connectionName = Some c.
Proof.
  unfold connect, bind, gets, isConnected. cbn.
  destruct (manager s !! connectionName) as [c0|] eqn:Hm.
  - rewrite bool_decide_eq_true_2 by eauto. unfold getConnection, bind, gets. cbn.
    rewrite Hm. intros [= <- <-]. assumption.
  - rewrite bool_decide_eq_false_2 by (intros [? ?]; discriminate).
    unfold createConnection, createCollectionIndex, call, debug, when, log, modify, set_manager,
      next, bind, ret, throw. cbn.
    destruct logger; cbn;
      destruct (fails env (CreateConnection connectionName (url opts))); cbn; try discriminate;
      destruct (fails env (CreateCollectionIndex Jobs "name" "job_name_index")); cbn;
        try discriminate;
      destruct (fails env (CreateCollectionIndex Executions "scheduleId" "schedule_id_index"));
        cbn; try discriminate;
      intros [= <- <-]; cbn; apply lookup_insert_eq.
Qed.

(** C9: when a connection named "momo" exists, [connect] returns it and
    does nothing else: no connection is created, no index, nothing is
    logged, the state is the same; so after a call of [connect] that
    succeeded, a further call returns the same connection and changes
    nothing. *)
Theorem connect_is_idempotent :
  (forall env opts logger s c,
     manager s !! connectionName = Some c ->
     isConnected s = true /\ connect env opts logger s = (Ok c, s))
  /\ (forall env1 env2 opts1 opts2 logger1 logger2 s c s1,
        connect env1 opts1 logger1 s = (Ok c, s1) ->
        connect env2 opts2 logger2 s1 = (Ok c, s1)
        /\ bind (connect env1 opts1 logger1) (fun _ => connect env2 opts2 logger2) s
           = connect env1 opts1 logger1 s).
Proof.
  split.
  - intros env opts logger s c Hc. split; [|apply connect_existing, Hc].
    unfold isConnected. apply bool_decide_eq_true_2. eauto.
  - intros env1 env2 opts1 opts2 logger1 logger2 s c s1 H1.
    pose proof (connect_existing env2 opts2 logger2 s1 c (connect_registers _ _ _ _ _ _ H1)) as H2.
    split; [exact H2|]. unfold bind. rewrite H1. exact H2.
Qed.


(** ** The ping as [MongoSchedule] uses it *)

Lemma ping_start_spec env st :
  Ping.handle (fst st) = None ->
  exists st' new,
    Ping.start env st = (Ok tt, st')
    /\ Ping.handle (fst st') = Some (nextId (snd st))
    /\ Ping.scheduleId (fst st') = Ping.scheduleId (fst st)
    /\ manager (snd st') = manager (snd st)
    /\ uuids (snd st') = uuids (snd st)
    /\ effects (snd st')
       = ECall (SetInterval (nextId (snd st)) (Ping.interval (fst st))) :: new
         ++ ECall (IsActiveSchedule (Ping.scheduleName (fst st))) :: effects (snd st)
    /\ ((0 <= Ping.interval (fst st))%Z ->
        (exists e, e ∈ schedules (snd st) /\ Process.scheduleId e = Ping.scheduleId (fst st)
                   /\ (now env - 2 * Ping.interval (fst st) <= lastAlive e)%Z) ->
        exists e, e ∈ schedules (snd st') /\ Process.scheduleId e = Ping.scheduleId (fst st)).
Proof.
  intros Hh.
  destruct (PingFacts.tick_returns env st) as (st1 & Ht & Hh1 & _ & Hcase).
  unfold Ping.start, bind, gets. cbn. rewrite Hh. unfold bind. rewrite Ht.
  destruct st1 as [p1 s1]. cbn.
  unfold Ping.tick, try_catch in Ht.
  destruct (Ping.pingAndClean env st) as [[[]|e] st2] eqn:Hp;
    pose proof (PingFacts.pingAndClean_frame _ _ _ _ Hp)
      as (Hf1 & Hf2 & Hf3 & Hf4 & Hf5 & Hf6 & Hf7 & new & Hn & _).
  - injection Ht as ->. cbn in *. eexists. exists new. split; [reflexivity|]. cbn.
    rewrite Hf7, Hn. repeat split; try assumption.
    intros Hi He. eapply PingFacts.pingAndClean_keeps_entry in Hp; eauto.
  - destruct st2 as [p2 s2]. cbn in Ht. injection Ht as -> <-. cbn in *.
    eexists. eexists (_ :: new). split; [reflexivity|]. cbn.
    rewrite Hf7, Hn. repeat split; try assumption.
    intros Hi He. eapply PingFacts.pingAndClean_keeps_entry in Hp; eauto.
Qed.

Lemma ping_stop_spec env st :
  let id := Ping.scheduleId (fst st) in
  exists st',
    Ping.stop env st = (Ok tt, st')
    /\ Ping.handle (fst st') = None
    /\ manager (snd st') = manager (snd st)
    /\ effects (snd st')
       = match Ping.handle (fst st) with Some t => [ECall (ClearInterval t)] | None => [] end
         ++ match fails env (DeleteOne id) with
            | Some e => [EError Ping.errorMessage internal e]
            | None => []
            end
         ++ ECall (DeleteOne id) :: effects (snd st)
    /\ (fails env (DeleteOne id) = None ->
        forall e, e ∈ schedules (snd st') -> Process.scheduleId e <> id).
Proof.
  destruct st as [p s]. cbn.
  unfold Ping.stop, Ping.proc, Ping.set_handle, try_catch, zoom, deleteOne, call, log,
    set_schedules, modify, gets, bind, ret, throw. cbn.
  destruct (fails env (DeleteOne (Ping.scheduleId p))); cbn;
    destruct (Ping.handle p) eqn:Hh; cbn; eexists; (split; [reflexivity|]); cbn;
    rewrite ?Hh;
    (split; [reflexivity|]); (split; [reflexivity|]); (split; [reflexivity|]);
    intros Hf; try discriminate.
  all: intros x Hx; apply list_elem_of_In, filter_In in Hx as [_ Hx];
    apply negb_true_iff, bool_decide_eq_false in Hx; exact Hx.
Qed.

Ltac some_prefix :=
  first [ exists []; reflexivity | eexists [_]; reflexivity | eexists [_; _]; reflexivity
        | eexists [_; _; _]; reflexivity | eexists [_; _; _; _]; reflexivity
        | eexists [_; _; _; _; _]; reflexivity ].

Lemma connect_frame env opts logger s r s' :
  connect env opts logger s = (r, s') ->
  schedules s' = schedules s /\ uuids s' = uuids s
  /\ exists new, effects s' = new ++ effects s.
Proof.
  unfold connect, bind, gets, isConnected. cbn.
  destruct (manager s !! connectionName) as [c0|] eqn:Hm.
  - rewrite bool_decide_eq_true_2 by eauto. unfold getConnection, bind, gets. cbn.
    rewrite Hm. intros [= <- <-]. repeat split. exists []. reflexivity.
  - rewrite bool_decide_eq_false_2 by (intros [? ?]; discriminate).
    unfold createConnection, createCollectionIndex, call, debug, when, log, modify, set_manager,
      next, bind, ret, throw. cbn.
    destruct logger; cbn;
      destruct (fails env (CreateConnection connectionName (url opts))); cbn;
      try (intros [= <- <-]; cbn; repeat split; some_prefix);
      destruct (fails env (CreateCollectionIndex Jobs "name" "job_name_index")); cbn;
      try (intros [= <- <-]; cbn; repeat split; some_prefix);
      destruct (fails env (CreateCollectionIndex Executions "scheduleId" "schedule_id_index"));
        cbn;
      intros [= <- <-]; cbn; repeat split; some_prefix.
Qed.

(** ** [MongoSchedule.connect] and [disconnect] *)

Lemma bind_ok_inv {S A B} (m : M S A) (k : A -> M S B) s b s' :
  bind m k s = (Ok b, s') ->
  exists a s1, m s = (Ok a, s1) /\ k a s1 = (Ok b, s').
Proof.
  unfold bind. destruct (m s) as [[a|e] s1]; [eauto|discriminate].
Qed.

Lemma MongoSchedule_connect_spec uuid pingInterval env opts s ms s' :
  MongoSchedule_connect uuid pingInterval env opts s = (Ok ms, s') ->
  let id := uuid (uuids s) in
  scheduleId ms = id
  /\ Ping.scheduleId (schedulePing ms) = id
  /\ uuids s' = S (uuids s)
  /\ (exists connecting pinging t,
        effects s'
        = ECall (SetInterval t pingInterval) :: pinging
          ++ ECall (IsActiveSchedule "") :: ECall (AddSchedule id) :: connecting
          ++ ECall Uuid :: effects s
        /\ Ping.handle (schedulePing ms) = Some t)
  /\ fails env (AddSchedule id) = None
  /\ ((0 <= pingInterval)%Z ->
      exists e, e ∈ schedules s' /\ Process.scheduleId e = id).
Proof.
  unfold MongoSchedule_connect. intros H.
  apply bind_ok_inv in H as (n & s0 & Hn & H). injection Hn as <- <-.
  apply bind_ok_inv in H as ([] & s0 & Hl & H). injection Hl as <-.
  apply bind_ok_inv in H as (c & s1 & Hc & H).
  destruct (connect_frame _ _ _ _ _ _ Hc) as (Hsch & Hu & connecting & Hconn).
  cbn in Hsch, Hu, Hconn.
  apply bind_ok_inv in H as ([] & s2 & Ha & H).
  assert (Hs2 : fails env (AddSchedule (uuid (uuids s))) = None
                /\ s2 = {| manager := manager s1;
                           schedules := schedules s1
                                        ++ [{| Process.scheduleId := uuid (uuids s);
                                               name := ""; lastAlive := now env |}];
                           uuids := uuids s1; nextId := nextId s1;
                           effects := ECall (AddSchedule (uuid (uuids s))) :: effects s1 |}).
  { revert Ha. unfold addSchedule, call, set_schedules, log, modify, bind, ret, throw. cbn.
    destruct (fails env (AddSchedule (uuid (uuids s)))); cbn; [discriminate|].
    intros [= <-]. split; reflexivity. }
  destruct Hs2 as [Hf ->].
  unfold onPing, zoom in H. cbn [fst snd schedulePing new] in H.
  match type of H with
  | context [Ping.start env ?st] =>
      destruct (ping_start_spec env st eq_refl)
        as (st' & pinging & Hstart & Hh & Hid & Hm & Hu' & Heff & Hentry)
  end.
  rewrite Hstart in H. destruct st' as [p' s3]. cbn in *.
  injection H as <- <-. cbn.
  split; [reflexivity|]. split; [assumption|]. split; [congruence|].
  split.
  { exists connecting, pinging, (nextId s1). rewrite Heff, Hconn. split; [reflexivity|assumption]. }
  split; [assumption|].
  intros Hi. apply Hentry; [assumption|].
  eexists. split; [apply elem_of_app; right; apply list_elem_of_singleton; reflexivity|].
  cbn. split; [reflexivity|lia].
Qed.

Lemma MongoSchedule_disconnect_spec env st r st' :
  MongoSchedule_disconnect env st = (r, st') ->
  let id := Ping.scheduleId (schedulePing (fst st)) in
  jobSchedulers (fst st') = ∅
  /\ Ping.handle (schedulePing (fst st')) = None
  /\ (exists stopping closing,
        effects (snd st')
        = closing ++ stopping
          ++ ECall (DeleteOne id)
          :: ECall (CancelJobs (map fst (map_to_list (jobSchedulers (fst st)))))
          :: effects (snd st)
        /\ (forall e, e ∈ stopping -> e <> ECall (Close connectionName))
        /\ (closing = [] \/ closing = [ECall (Close connectionName)])
        /\ (r = Ok tt ->
            closing = [ECall (Close connectionName)]
            /\ manager (snd st') !! connectionName = None))
  /\ (fails env (DeleteOne id) = None ->
      forall e, e ∈ schedules (snd st') -> Process.scheduleId e <> id).
Proof.
  destruct st as [ms s]. cbn [fst snd].
  unfold MongoSchedule_disconnect, cancel, bind, gets, proc, zoom, log, modify. cbn.
  set (s1 := {| manager := manager s; schedules := schedules s; uuids := uuids s;
                nextId := nextId s;
                effects := ECall (CancelJobs (map fst (map_to_list (jobSchedulers ms))))
                           :: effects s |}).
  unfold onPing, zoom. cbn.
  destruct (ping_stop_spec env (schedulePing ms, s1)) as (st2 & Hstop & Hh & Hm & Heff & Hdel).
  cbn in Hstop, Hh, Hm, Heff, Hdel. rewrite Hstop. destruct st2 as [p2 s2]. cbn in *.
  unfold disconnect, getConnection, call, set_manager, log, modify, bind, gets, ret, throw. cbn.
  rewrite app_assoc in Heff.
  set (stopping := match Ping.handle (schedulePing ms) with
                   | Some t => [ECall (ClearInterval t)]
                   | None => []
                   end
                   ++ match fails env (DeleteOne (Ping.scheduleId (schedulePing ms))) with
                      | Some e => [EError Ping.errorMessage internal e]
                      | None => []
                      end) in *.
  assert (Hstopping : forall e, e ∈ stopping -> e <> ECall (Close connectionName)).
  { intros e He. unfold stopping in He.
    destruct (Ping.handle (schedulePing ms)), (fails env (DeleteOne _));
      cbn in He; repeat (apply elem_of_cons in He as [->|He]); try discriminate;
      apply elem_of_nil in He; contradiction. }
  destruct (manager s2 !! connectionName) as [c|] eqn:Hc; cbn.
  - destruct (fails env (Close connectionName)) eqn:Hf; cbn; intros [= <- <-]; cbn.
    + split; [reflexivity|]. split; [assumption|]. split; [|assumption].
      exists stopping, [ECall (Close connectionName)]. rewrite Heff.
      split; [reflexivity|]. split; [assumption|]. split; [right; reflexivity|discriminate].
    + split; [reflexivity|]. split; [assumption|]. split; [|assumption].
      exists stopping, [ECall (Close connectionName)]. rewrite Heff.
      split; [reflexivity|]. split; [assumption|]. split; [right; reflexivity|].
      intros _. split; [reflexivity|apply lookup_delete_eq].
  - intros [= <- <-]. cbn.
    split; [reflexivity|]. split; [assumption|]. split; [|assumption].
    exists stopping, []. rewrite Heff.
    split; [reflexivity|]. split; [assumption|]. split; [left; reflexivity|discriminate].
Qed.

(** C7: when [MongoSchedule.connect] returns, it has generated the
    schedule's identifier, then connected, then created the ScheduleEntry of
    that identifier ([addSchedule]), then started the schedule ping, in this
    order; identifiers generated by different calls differ when the
    generator never repeats itself.  [disconnect] cancels the jobs, then
    stops the ping, which deletes the schedule's own entry, and only then
    closes the connection. *)
Theorem MongoSchedule_connect_then_disconnect :
  (forall uuid pingInterval env opts s ms s',
     MongoSchedule_connect uuid pingInterval env opts s = (Ok ms, s') ->
     let id := uuid (uuids s) in
     scheduleId ms = id
     /\ Ping.scheduleId (schedulePing ms) = id
     /\ uuids s' = S (uuids s)
     /\ (exists connecting pinging t,
           effects s'
           = ECall (SetInterval t pingInterval) :: pinging
             ++ ECall (IsActiveSchedule "") :: ECall (AddSchedule id) :: connecting
             ++ ECall Uuid :: effects s
           /\ Ping.handle (schedulePing ms) = Some t)
     /\ fails env (AddSchedule id) = None
     /\ ((0 <= pingInterval)%Z ->
         exists e, e ∈ schedules s' /\ Process.scheduleId e = id))
  /\ (forall uuid pingInterval env1 env2 opts1 opts2 s ms1 s1 s2 ms2 s3,
        Inj (=) (=) uuid ->
        MongoSchedule_connect uuid pingInterval env1 opts1 s = (Ok ms1, s1) ->
        uuids s1 <= uuids s2 ->
        MongoSchedule_connect uuid pingInterval env2 opts2 s2 = (Ok ms2, s3) ->
        scheduleId ms1 <> scheduleId ms2)
  /\ (forall env st r st',
        MongoSchedule_disconnect env st = (r, st') ->
        let id := Ping.scheduleId (schedulePing (fst st)) in
        jobSchedulers (fst st') = ∅
        /\ Ping.handle (schedulePing (fst st')) = None
        /\ (exists stopping closing,
              effects (snd st')
              = closing ++ stopping
                ++ ECall (DeleteOne id)
                :: ECall (CancelJobs (map fst (map_to_list (jobSchedulers (fst st)))))
                :: effects (snd st)
              /\ (forall e, e ∈ stopping -> e <> ECall (Close connectionName))
              /\ (closing = [] \/ closing = [ECall (Close connectionName)])
              /\ (r = Ok tt ->
                  closing = [ECall (Close connectionName)]
                  /\ manager (snd st') !! connectionName = None))
        /\ (fails env (DeleteOne id) = None ->
            forall e, e ∈ schedules (snd st') -> Process.scheduleId e <> id)).
Proof.
  split; [exact MongoSchedule_connect_spec|]. split; [|exact MongoSchedule_disconnect_spec].
  intros uuid pingInterval env1 env2 opts1 opts2 s ms1 s1 s2 ms2 s3 Hinj H1 Hle H2.
  destruct (MongoSchedule_connect_spec _ _ _ _ _ _ _ H1) as (E1 & _ & U1 & _).
  destruct (MongoSchedule_connect_spec _ _ _ _ _ _ _ H2) as (E2 & _).
  cbn zeta in E1, E2. rewrite E1, E2. intros Heq. apply Hinj in Heq. lia.
Qed.

(** ** The theorems at concrete inputs *)

Lemma connect_is_idempotent_witness :
  let r := connect (calm 0) sample_options true Process.empty in
  let c := {| connId := 0; Process.url := "mongodb://localhost:27017" |} in
  r = (Ok c, snd r)
  /\ rev (effects (snd r)) =
       [EDebug "connect to database"; ECall (CreateConnection "momo" "mongodb://localhost:27017");
        EDebug "create indices";
        ECall (CreateCollectionIndex Jobs "name" "job_name_index");
        ECall (CreateCollectionIndex Executions "scheduleId" "schedule_id_index")]
  /\ connect (calm 1) sample_options true (snd r) = (Ok c, snd r).
Proof.
  intros r c.
  assert (H : connect (calm 0) sample_options true Process.empty = (Ok c, snd r))
    by (vm_compute; reflexivity).
  assert (He : rev (effects (snd r)) =
       [EDebug "connect to database"; ECall (CreateConnection "momo" "mongodb://localhost:27017");
        EDebug "create indices";
        ECall (CreateCollectionIndex Jobs "name" "job_name_index");
        ECall (CreateCollectionIndex Executions "scheduleId" "schedule_id_index")])
    by (vm_compute; reflexivity).
  exact (conj H (conj He
           (proj1 (proj2 connect_is_idempotent (calm 0) (calm 1) sample_options sample_options
                     true true Process.empty c (snd r) H)))).
Defined.

Lemma sample_uuid_inj : Inj (=) (=) sample_uuid.
Proof.
  intros x. induction x as [|x IH]; intros [|y] H; cbn in H; try discriminate.
  - reflexivity.
  - injection H as H. f_equal. apply IH, H.
Qed.

Lemma MongoSchedule_connect_then_disconnect_witness :
  let ms := connected_schedule in
  let s := snd connected in
  let r := MongoSchedule_disconnect (calm 10) (ms, s) in
  MongoSchedule_connect sample_uuid 1000 (calm 0) sample_options Process.empty = (Ok ms, s)
  /\ scheduleId ms = "id"
  /\ Ping.scheduleId (schedulePing ms) = "id"
  /\ rev (effects s) =
       [ECall Uuid;
        EDebug "connect to database"; ECall (CreateConnection "momo" "mongodb://localhost:27017");
        EDebug "create indices";
        ECall (CreateCollectionIndex Jobs "name" "job_name_index");
        ECall (CreateCollectionIndex Executions "scheduleId" "schedule_id_index");
        ECall (AddSchedule "id");
        ECall (IsActiveSchedule ""); ECall StartAllJobs; ECall (PingSchedule "id");
        ECall (DeleteDead "" (-2000)); ECall (SetInterval 1 1000)]
  /\ schedules s = [{| Process.scheduleId := "id"; name := ""; lastAlive := 0 |}]
  /\ (exists e, e ∈ schedules s /\ Process.scheduleId e = sample_uuid (uuids Process.empty))
  /\ fst r = Ok tt
  /\ rev (effects (snd (snd r))) =
       rev (effects s)
       ++ [ECall (CancelJobs []); ECall (DeleteOne "id"); ECall (ClearInterval 1);
           ECall (Close "momo")]
  /\ schedules (snd (snd r)) = []
  /\ (forall e, e ∈ schedules (snd (snd r)) ->
                Process.scheduleId e <> Ping.scheduleId (schedulePing (fst (ms, s)))).
Proof.
  intros ms s r.
  assert (H : MongoSchedule_connect sample_uuid 1000 (calm 0) sample_options Process.empty
              = (Ok ms, s)) by (vm_compute; reflexivity).
  pose proof MongoSchedule_connect_then_disconnect as (Hconnect & _ & Hdisconnect).
  pose proof (Hconnect sample_uuid 1000%Z (calm 0) sample_options Process.empty ms s H)
    as (_ & _ & _ & _ & _ & Hentry).
  pose proof (Hdisconnect (calm 10) (ms, s) (fst r) (snd r) (surjective_pairing r))
    as (_ & _ & _ & Hgone).
  split; [exact H|]. split; [vm_compute; reflexivity|]. split; [vm_compute; reflexivity|].
  split; [vm_compute; reflexivity|]. split; [vm_compute; reflexivity|].
  split; [exact (Hentry ltac:(discriminate))|].
  split; [vm_compute; reflexivity|]. split; [vm_compute; reflexivity|].
  split; [vm_compute; reflexivity|].
  exact (Hgone eq_refl).
Defined.

End MongoFacts.

(** * Further properties of connect and MongoSchedule *)
Module ConnectFacts.

Import Effects Process Mongo MongoSamples.

Lemma not_connected s : isConnected s = false -> manager s !! connectionName = None.
Proof.
  unfold isConnected. intros H. apply bool_decide_eq_false in H.
  destruct (manager s !! connectionName) eqn:Hm; [|reflexivity].
  exfalso. apply H. eauto.
Qed.

(** X14: [connect] on a process without a connection performs its calls in
    the order of the text and stops at the first that fails, rejecting with
    its error: no index is created unless the connection was, the index of
    the executions is not created unless the index of the jobs was.  Once
    [createConnection] has succeeded the connection is registered, whether
    or not the indices could be created: every later [connect] returns it
    and does nothing, so indices that could not be created are not created
    by calling [connect] again. *)
Theorem connect_stops_at_the_first_failing_call env opts logger s :
  isConnected s = false ->
  let create := CreateConnection connectionName (url opts) in
  let jobs := CreateCollectionIndex Jobs "name" "job_name_index" in
  let executions := CreateCollectionIndex Executions "scheduleId" "schedule_id_index" in
  let said message := if logger : bool then [EDebug message] else [] in
  let c := {| connId := nextId s; Process.url := url opts |} in
  let connecting := ECall create :: said "connect to database" ++ effects s in
  let indexing := ECall jobs :: said "create indices" ++ connecting in
  exists s',
    fst (connect env opts logger s)
    = match fails env create, fails env jobs, fails env executions with
      | Some e, _, _ => Throw e
      | None, Some e, _ => Throw e
      | None, None, Some e => Throw e
      | None, None, None => Ok c
      end
    /\ snd (connect env opts logger s) = s'
    /\ effects s'
       = match fails env create, fails env jobs with
         | Some _, _ => connecting
         | None, Some _ => indexing
         | None, None => ECall executions :: indexing
         end
    /\ match fails env create with
       | Some _ => manager s' = manager s
       | None =>
           manager s' = <[connectionName := c]> (manager s)
           /\ forall env' opts' logger', connect env' opts' logger' s' = (Ok c, s')
       end.
Proof.
  intros Hnc. apply not_connected in Hnc. cbn zeta.
  eexists. split; [|split; [reflexivity|]].
  - unfold connect, bind, gets, isConnected. cbn. rewrite Hnc.
    rewrite bool_decide_eq_false_2 by (intros [? ?]; discriminate).
    unfold createConnection, createCollectionIndex, call, debug, when, log, modify, set_manager,
      next, bind, ret, throw. cbn.
    destruct logger; cbn;
      destruct (fails env (CreateConnection connectionName (url opts))); cbn; try reflexivity;
      destruct (fails env (CreateCollectionIndex Jobs "name" "job_name_index")); cbn;
        try reflexivity;
      destruct (fails env (CreateCollectionIndex Executions "scheduleId" "schedule_id_index"));
        reflexivity.
  - assert (Hm : match fails env (CreateConnection connectionName (url opts)) with
                 | Some _ => manager (snd (connect env opts logger s)) = manager s
                 | None => manager (snd (connect env opts logger s))
                           = <[connectionName := {| connId := nextId s; Process.url := url opts |}]>
                               (manager s)
                 end
                 /\ effects (snd (connect env opts logger s))
                    = match fails env (CreateConnection connectionName (url opts)),
                            fails env (CreateCollectionIndex Jobs "name" "job_name_index") with
                      | Some _, _ =>
                          ECall (CreateConnection connectionName (url opts))
                          :: (if logger then [EDebug "connect to database"] else []) ++ effects s
                      | None, Some _ =>
                          ECall (CreateCollectionIndex Jobs "name" "job_name_index")
                          :: (if logger then [EDebug "create indices"] else [])
                          ++ ECall (CreateConnection connectionName (url opts))
                          :: (if logger then [EDebug "connect to database"] else []) ++ effects s
                      | None, None =>
                          ECall (CreateCollectionIndex Executions "scheduleId" "schedule_id_index")
                          :: ECall (CreateCollectionIndex Jobs "name" "job_name_index")
                          :: (if logger then [EDebug "create indices"] else [])
                          ++ ECall (CreateConnection connectionName (url opts))
                          :: (if logger then [EDebug "connect to database"] else []) ++ effects s
                      end).
    { unfold connect, bind, gets, isConnected. cbn. rewrite Hnc.
      rewrite bool_decide_eq_false_2 by (intros [? ?]; discriminate).
      unfold createConnection, createCollectionIndex, call, debug, when, log, modify, set_manager,
        next, bind, ret, throw. cbn.
      destruct logger; cbn;
        destruct (fails env (CreateConnection connectionName (url opts))); cbn;
          try (split; reflexivity);
        destruct (fails env (CreateCollectionIndex Jobs "name" "job_name_index")); cbn;
          try (split; reflexivity);
        destruct (fails env (CreateCollectionIndex Executions "scheduleId" "schedule_id_index"));
          split; reflexivity. }
    destruct Hm as [Hm He]. split; [exact He|].
    destruct (fails env (CreateConnection connectionName (url opts))); [exact Hm|].
    split; [exact Hm|]. intros env' opts' logger'.
    apply MongoFacts.connect_existing. rewrite Hm. apply lookup_insert_eq.
Qed.

(** [MongoSchedule.connect] as a composition of its three awaited steps. *)
Lemma MongoSchedule_connect_unfold uuid pingInterval env opts s :
  MongoSchedule_connect uuid pingInterval env opts s
  = match connect env opts true
            {| manager := manager s; schedules := schedules s; uuids := S (uuids s);
               nextId := nextId s; effects := ECall Uuid :: effects s |} with
    | (Ok _, s1) =>
        match addSchedule env (uuid (uuids s)) "" s1 with
        | (Ok _, s2) =>
            let '(_, (ms, s')) :=
              onPing (Ping.start env) (new pingInterval (uuid (uuids s)), s2) in
            (Ok ms, s')
        | (Throw e, s2) => (Throw e, s2)
        end
    | (Throw e, s1) => (Throw e, s1)
    end.
Proof. reflexivity. Qed.

Lemma addSchedule_unfold env id nm s :
  addSchedule env id nm s
  = match fails env (AddSchedule id) with
    | Some e =>
        (Throw e,
         {| manager := manager s; schedules := schedules s; uuids := uuids s;
            nextId := nextId s; effects := ECall (AddSchedule id) :: effects s |})
    | None =>
        (Ok tt,
         {| manager := manager s;
            schedules := (schedules s
                          ++ [{| Process.scheduleId := id; name := nm; lastAlive := now env |}])%list;
            uuids := uuids s; nextId := nextId s;
            effects := ECall (AddSchedule id) :: effects s |})
    end.
Proof.
  unfold addSchedule, call, bind, log, modify, set_schedules, throw, ret. cbn.
  destruct (fails env (AddSchedule id)); reflexivity.
Qed.

(** What [MongoSchedule.connect] does once [connect] has returned. *)
Lemma MongoSchedule_connect_after_connect uuid pingInterval env opts s c s1 :
  let id := uuid (uuids s) in
  connect env opts true
    {| manager := manager s; schedules := schedules s; uuids := S (uuids s);
       nextId := nextId s; effects := ECall Uuid :: effects s |} = (Ok c, s1) ->
  match fails env (AddSchedule id) with
  | Some e =>
      exists s2,
        MongoSchedule_connect uuid pingInterval env opts s = (Throw e, s2)
        /\ effects s2 = ECall (AddSchedule id) :: effects s1
        /\ schedules s2 = schedules s1
        /\ manager s2 = manager s1
  | None =>
      exists ms s2 pinging t,
        MongoSchedule_connect uuid pingInterval env opts s = (Ok ms, s2)
        /\ scheduleId ms = id
        /\ Ping.scheduleId (schedulePing ms) = id
        /\ Ping.handle (schedulePing ms) = Some t
        /\ effects s2
           = ECall (SetInterval t pingInterval) :: pinging
             ++ ECall (IsActiveSchedule "") :: ECall (AddSchedule id) :: effects s1
        /\ manager s2 = manager s1
        /\ uuids s2 = uuids s1
  end.
Proof.
  cbn zeta. intros Hc.
  rewrite MongoSchedule_connect_unfold, Hc, addSchedule_unfold.
  destruct (fails env (AddSchedule (uuid (uuids s)))) as [e|].
  - eexists. split; [reflexivity|]. cbn. repeat split.
  - set (s2 := {| manager := manager s1;
                  schedules := (schedules s1
                                ++ [{| Process.scheduleId := uuid (uuids s); name := "";
                                       lastAlive := now env |}])%list;
                  uuids := uuids s1; nextId := nextId s1;
                  effects := ECall (AddSchedule (uuid (uuids s))) :: effects s1 |}).
    destruct (MongoFacts.ping_start_spec env
                (schedulePing (new pingInterval (uuid (uuids s))), s2) eq_refl)
      as ([p s3] & pinging & Hstart & Hh & Hid & Hman & Huu & Heff & _).
    cbn [fst snd] in *.
    unfold onPing, zoom. cbn [fst snd]. rewrite Hstart. cbn [fst snd].
    eexists _, _, pinging, _. split; [reflexivity|]. cbn [scheduleId schedulePing new].
    split; [reflexivity|]. split; [exact Hid|]. split; [exact Hh|].
    split; [exact Heff|]. split; [exact Hman|exact Huu].
Qed.

(** X15: the three ways [MongoSchedule.connect] ends.  An identifier is
    drawn first.  If [connect] rejects, so does the call, and nothing more
    is done: no schedule is added, no ping is started.  If [addSchedule]
    rejects, so does the call: the ping is not started, and the connection
    that was opened stays open.  Otherwise the call returns a schedule with
    the identifier drawn, whose ping has been started. *)
Theorem MongoSchedule_connect_outcomes uuid pingInterval env opts s :
  let id := uuid (uuids s) in
  let s0 := {| manager := manager s; schedules := schedules s; uuids := S (uuids s);
               nextId := nextId s; effects := ECall Uuid :: effects s |} in
  match connect env opts true s0 with
  | (Throw e, s1) => MongoSchedule_connect uuid pingInterval env opts s = (Throw e, s1)
  | (Ok c, s1) =>
      manager s1 !! connectionName = Some c
      /\ match fails env (AddSchedule id) with
         | Some e =>
             exists s2,
               MongoSchedule_connect uuid pingInterval env opts s = (Throw e, s2)
               /\ effects s2 = ECall (AddSchedule id) :: effects s1
               /\ schedules s2 = schedules s
               /\ manager s2 !! connectionName = Some c
         | None =>
             exists ms s2 pinging t,
               MongoSchedule_connect uuid pingInterval env opts s = (Ok ms, s2)
               /\ scheduleId ms = id
               /\ Ping.handle (schedulePing ms) = Some t
               /\ effects s2
                  = ECall (SetInterval t pingInterval) :: pinging
                    ++ ECall (IsActiveSchedule "") :: ECall (AddSchedule id) :: effects s1
               /\ manager s2 !! connectionName = Some c
         end
  end.
Proof.
  cbn zeta.
  destruct (connect env opts true _) as [[c|e] s1] eqn:Hc.
  - pose proof (MongoFacts.connect_registers _ _ _ _ _ _ Hc) as Hreg.
    destruct (MongoFacts.connect_frame _ _ _ _ _ _ Hc) as (Hsch & _ & _). cbn in Hsch.
    split; [exact Hreg|].
    pose proof (MongoSchedule_connect_after_connect uuid pingInterval env opts s c s1 Hc) as H.
    cbn zeta in H. destruct (fails env (AddSchedule (uuid (uuids s)))) as [e|].
    + destruct H as (s2 & Hr & He & Hs & Hm). exists s2.
      split; [exact Hr|]. split; [exact He|]. split; [congruence|]. rewrite Hm. exact Hreg.
    + destruct H as (ms & s2 & pinging & t & Hr & Hid & _ & Hh & He & Hm & _).
      exists ms, s2, pinging, t. repeat (split; [assumption|]). rewrite Hm. exact Hreg.
  - rewrite MongoSchedule_connect_unfold, Hc. reflexivity.
Qed.

(** X16: a second [MongoSchedule.connect] in the same process shares the
    connection of the first: it creates neither a connection nor an index,
    but it draws a new identifier, adds a schedule under it and starts a
    ping of its own; with a generator that does not repeat itself the two
    schedules have different identifiers. *)
Theorem MongoSchedule_connect_twice_shares_the_connection
    uuid pingInterval env1 env2 opts1 opts2 s ms1 s1 :
  MongoSchedule_connect uuid pingInterval env1 opts1 s = (Ok ms1, s1) ->
  fails env2 (AddSchedule (uuid (uuids s1))) = None ->
  exists ms2 s2 pinging t,
    MongoSchedule_connect uuid pingInterval env2 opts2 s1 = (Ok ms2, s2)
    /\ manager s2 = manager s1
    /\ effects s2
       = ECall (SetInterval t pingInterval) :: pinging
         ++ ECall (IsActiveSchedule "") :: ECall (AddSchedule (uuid (uuids s1)))
         :: ECall Uuid :: effects s1
    /\ scheduleId ms2 = uuid (uuids s1)
    /\ Ping.handle (schedulePing ms2) = Some t
    /\ (Inj (=) (=) uuid -> scheduleId ms2 <> scheduleId ms1).
Proof.
  intros H1 Hadd.
  assert (Hc1 : exists c, manager s1 !! connectionName = Some c).
  { pose proof H1 as H. unfold MongoSchedule_connect in H.
    apply MongoFacts.bind_ok_inv in H as (n & sa & Hn & H).
    apply MongoFacts.bind_ok_inv in H as ([] & sb & Hl & H).
    apply MongoFacts.bind_ok_inv in H as (c & sc & Hc & H).
    unfold next_uuid in Hn. injection Hn as <- <-.
    unfold log, modify in Hl. injection Hl as <-.
    pose proof (MongoFacts.connect_registers _ _ _ _ _ _ Hc) as Hreg.
    pose proof (MongoSchedule_connect_after_connect uuid pingInterval env1 opts1 s c sc Hc) as H'.
    cbn zeta in H'. destruct (fails env1 (AddSchedule (uuid (uuids s)))) as [e|].
    - destruct H' as (s2 & Hr & _). rewrite Hr in H1. discriminate.
    - destruct H' as (ms & s2 & pinging & t & Hr & _ & _ & _ & _ & Hm & _).
      rewrite Hr in H1. injection H1 as <- <-. exists c. rewrite Hm. exact Hreg. }
  destruct Hc1 as [c Hc1].
  destruct (MongoFacts.MongoSchedule_connect_spec _ _ _ _ _ _ _ H1) as (Hid1 & _ & Huu1 & _).
  set (s0 := {| manager := manager s1; schedules := schedules s1; uuids := S (uuids s1);
                nextId := nextId s1; effects := ECall Uuid :: effects s1 |}).
  assert (Hc2 : connect env2 opts2 true s0 = (Ok c, s0)).
  { apply MongoFacts.connect_existing. exact Hc1. }
  pose proof (MongoSchedule_connect_after_connect uuid pingInterval env2 opts2 s1 c s0 Hc2) as H.
  cbn zeta in H. rewrite Hadd in H.
  destruct H as (ms2 & s2 & pinging & t & Hr & Hid & _ & Hh & He & Hm & _).
  exists ms2, s2, pinging, t. split; [exact Hr|]. split; [exact Hm|]. split; [exact He|].
  split; [exact Hid|]. split; [exact Hh|].
  intros Hinj. rewrite Hid, Hid1. intros Heq. apply Hinj in Heq.
  rewrite Huu1 in Heq. lia.
Qed.

(** X17: the earlier version of [MongoSchedule]: on a process without a
    connection and with a store that does not fail, [connect] opens the
    connection and creates the two indices, writes no schedule entry and
    returns a schedule without job schedulers; [disconnect] then cancels the
    jobs before it closes the connection, and leaves the process without a
    connection, as it was. *)
Theorem first_version_connect_then_disconnect env1 env2 opts s :
  isConnected s = false ->
  fails env1 (CreateConnection connectionName (url opts)) = None ->
  fails env1 (CreateCollectionIndex Jobs "name" "job_name_index") = None ->
  fails env1 (CreateCollectionIndex Executions "scheduleId" "schedule_id_index") = None ->
  fails env2 (Close connectionName) = None ->
  exists ms s1 s2,
    MongoV1.MongoSchedule_connect env1 opts s = (Ok ms, s1)
    /\ MongoV1.jobSchedulers ms = ∅
    /\ isConnected s1 = true
    /\ schedules s1 = schedules s
    /\ effects s1
       = [ECall (CreateCollectionIndex Executions "scheduleId" "schedule_id_index");
          ECall (CreateCollectionIndex Jobs "name" "job_name_index");
          EDebug "create indices";
          ECall (CreateConnection connectionName (url opts));
          EDebug "connect to database"] ++ effects s
    /\ MongoV1.MongoSchedule_disconnect env2 (ms, s1) = (Ok tt, (ms, s2))
    /\ effects s2 = [ECall (Close connectionName); ECall (CancelJobs [])] ++ effects s1
    /\ manager s2 = manager s
    /\ isConnected s2 = false.
Proof.
  intros Hnc F1 F2 F3 F4. pose proof (not_connected _ Hnc) as Hm.
  unfold MongoV1.MongoSchedule_connect, connect, bind, gets. cbn. rewrite Hnc.
  unfold createConnection, createCollectionIndex, call, debug, when, log, modify, set_manager,
    next, bind, ret, throw. cbn. rewrite F1. cbn. rewrite F2. cbn. rewrite F3. cbn.
  eexists _, _, _. split; [reflexivity|]. split; [reflexivity|].
  split.
  { unfold isConnected. cbn. rewrite lookup_insert_eq. apply bool_decide_eq_true_2. eauto. }
  split; [reflexivity|]. split; [reflexivity|].
  split.
  { unfold MongoV1.MongoSchedule_disconnect, MongoV1.cancel, MongoV1.proc, disconnect,
      getConnection, call, zoom, bind, gets, log, modify, set_manager, ret, throw. cbn.
    rewrite lookup_insert_eq. cbn. rewrite F4. cbn. rewrite map_to_list_empty. reflexivity. }
  cbn. split; [reflexivity|]. split.
  { rewrite delete_insert_eq. apply delete_id. exact Hm. }
  unfold isConnected. cbn. rewrite delete_insert_eq, (delete_id _ _ Hm), Hm.
  apply bool_decide_eq_false_2. intros [? ?]. discriminate.
Qed.

Lemma connect_stops_at_the_first_failing_call_witness :
  let env := {| fails := fun c => match c with
                                  | CreateCollectionIndex Jobs _ _ =>
                                      Some (OtherError "index failed")
                                  | _ => None
                                  end;
                active := true; now := 0 |} in
  let s := Process.empty in
  let c := {| connId := 0; Process.url := "mongodb://localhost:27017" |} in
  isConnected s = false
  /\ fst (connect env sample_options true s) = Throw (OtherError "index failed")
  /\ rev (effects (snd (connect env sample_options true s)))
     = [EDebug "connect to database"; ECall (CreateConnection "momo" "mongodb://localhost:27017");
        EDebug "create indices"; ECall (CreateCollectionIndex Jobs "name" "job_name_index")]
  /\ exists s',
       snd (connect env sample_options true s) = s'
       /\ forall env' opts' logger', connect env' opts' logger' s' = (Ok c, s').
Proof.
  intros env s c.
  assert (H1 : isConnected s = false) by (vm_compute; reflexivity).
  assert (H2 : fst (connect env sample_options true s) = Throw (OtherError "index failed"))
    by (vm_compute; reflexivity).
  assert (H3 : rev (effects (snd (connect env sample_options true s)))
               = [EDebug "connect to database";
                  ECall (CreateConnection "momo" "mongodb://localhost:27017");
                  EDebug "create indices";
                  ECall (CreateCollectionIndex Jobs "name" "job_name_index")])
    by (vm_compute; reflexivity).
  destruct (connect_stops_at_the_first_failing_call env sample_options true s H1)
    as (s' & _ & Hs & _ & _ & Hnext).
  exact (conj H1 (conj H2 (conj H3 (ex_intro _ s' (conj Hs Hnext))))).
Defined.

Lemma MongoSchedule_connect_twice_shares_the_connection_witness :
  let ms1 := connected_schedule in
  let s1 := snd connected in
  MongoSchedule_connect sample_uuid 1000 (calm 0) sample_options Process.empty = (Ok ms1, s1)
  /\ fails (calm 5) (AddSchedule (sample_uuid (uuids s1))) = None
  /\ sample_uuid (uuids s1) = "Iid"
  /\ exists ms2 s2 pinging t,
       MongoSchedule_connect sample_uuid 1000 (calm 5) sample_options s1 = (Ok ms2, s2)
       /\ manager s2 = manager s1
       /\ effects s2
          = ECall (SetInterval t 1000) :: pinging
            ++ ECall (IsActiveSchedule "") :: ECall (AddSchedule (sample_uuid (uuids s1)))
            :: ECall Uuid :: effects s1
       /\ scheduleId ms2 = sample_uuid (uuids s1)
       /\ Ping.handle (schedulePing ms2) = Some t
       /\ (Inj (=) (=) sample_uuid -> scheduleId ms2 <> scheduleId ms1).
Proof.
  intros ms1 s1.
  assert (H1 : MongoSchedule_connect sample_uuid 1000 (calm 0) sample_options Process.empty
               = (Ok ms1, s1)) by (vm_compute; reflexivity).
  assert (H2 : fails (calm 5) (AddSchedule (sample_uuid (uuids s1))) = None) by reflexivity.
  assert (H3 : sample_uuid (uuids s1) = "Iid") by (vm_compute; reflexivity).
  exact (conj H1 (conj H2 (conj H3
           (MongoSchedule_connect_twice_shares_the_connection
              sample_uuid 1000 (calm 0) (calm 5) sample_options sample_options
              Process.empty ms1 s1 H1 H2)))).
Defined.

Lemma first_version_connect_then_disconnect_witness :
  let env1 := calm 0 in
  let env2 := calm 1 in
  let opts := sample_options in
  let s := Process.empty in
  isConnected s = false
  /\ fails env1 (CreateConnection connectionName (url opts)) = None
  /\ fails env1 (CreateCollectionIndex Jobs "name" "job_name_index") = None
  /\ fails env1 (CreateCollectionIndex Executions "scheduleId" "schedule_id_index") = None
  /\ fails env2 (Close connectionName) = None
  /\ exists ms s1 s2,
       MongoV1.MongoSchedule_connect env1 opts s = (Ok ms, s1)
       /\ MongoV1.jobSchedulers ms = ∅
       /\ isConnected s1 = true
       /\ schedules s1 = schedules s
       /\ effects s1
          = [ECall (CreateCollectionIndex Executions "scheduleId" "schedule_id_index");
             ECall (CreateCollectionIndex Jobs "name" "job_name_index");
             EDebug "create indices";
             ECall (CreateConnection connectionName (url opts));
             EDebug "connect to database"] ++ effects s
       /\ MongoV1.MongoSchedule_disconnect env2 (ms, s1) = (Ok tt, (ms, s2))
       /\ effects s2 = [ECall (Close connectionName); ECall (CancelJobs [])] ++ effects s1
       /\ manager s2 = manager s
       /\ isConnected s2 = false.
Proof.
  intros env1 env2 opts s.
  assert (H1 : isConnected s = false) by (vm_compute; reflexivity).
  exact (conj H1 (conj eq_refl (conj eq_refl (conj eq_refl (conj eq_refl
           (first_version_connect_then_disconnect env1 env2 opts s
              H1 eq_refl eq_refl eq_refl eq_refl)))))).
Defined.

End ConnectFacts.
